(** * caddy-slicervm: the VM state manager and the idle watcher

    A shallow embedding of [state.go] (type [vmStateManager]) and of the
    idle watcher ([runIdleWatcher], [pauseIdleVMs]), and the properties of
    their specification.

    - The critical sections of the manager (the code between [m.mu.Lock()]
      and [m.mu.Unlock()]) are functions on the manager's fields.
    - [lookup], [ensureRunning] (up to its wait) and the watcher are given
      as sequential programs that take the behaviour of the control-plane
      client as an argument.
    - The goroutines of the process (request handlers, [doWake], the one
      idle watcher) are put together in an executable interleaving
      semantics [step].  Its atomic steps are the critical sections, the
      reads the code makes without the lock ([info.status] in the switch
      of ensureRunning, [info.wakeCh] when the select is entered,
      [info.wakeErr] and [info.ip] when the channel is closed) and the
      calls of the control plane, whose answers are part of the action.
      A critical section is one step: a read without the lock that falls
      between two assignments of one critical section (those of
      initiateWake to [status], [wakeCh] and [wakeErr]) is not a run of
      [step], so what is proved of [step] is proved of the records as
      they are whenever the lock is free.
      A goroutine scheduled alone does what the sequential programs do
      ([ensureRunning_alone], [pauseIdleVMs_alone]).
    - Logging through zap is modelled for the watcher only.
    - Around the manager: the configuration ([Provision]'s defaults and
      [Validate] of config.go), the registry of watchers
      ([startIdleWatcher], [stopIdleWatcher]), the request handler
      ([extractHostname], [extractAppName], [ServeHTTP]), the ask server
      ([handleAsk]) and [buildHTTPClient].  The verb [%q] and
      [Duration.String] are parameters of the rendering of errors. *)

From Stdlib Require Import ZArith Lia Ascii.
From Stdlib Require DecimalString.
From stdpp Require Import base option list gmap strings.

Local Open Scope string_scope.
Local Open Scope list_scope.
Local Open Scope Z_scope.

(** ** Data model (state.go, lines 13-43) *)

(** [type vmStatus int] with the [iota] constants. *)
Definition vmStatus := Z.
Definition statusUnknown  : vmStatus := 0.
Definition statusRunning  : vmStatus := 1.
Definition statusPaused   : vmStatus := 2.
Definition statusWaking   : vmStatus := 3.
Definition statusNotFound : vmStatus := 4.

(** [time.Time] as nanoseconds since the Unix epoch, [time.Duration] as
    an [int64] number of nanoseconds. *)
Definition Time := Z.
Definition Duration := Z.

(** The zero [time.Time] (January 1, year 1, 00:00 UTC), the value of a
    [lastSeen] field that was never assigned. *)
Definition zeroTime : Time := -62135596800 * 1000000000.

Definition maxDuration : Duration := 2 ^ 63 - 1.
Definition minDuration : Duration := - 2 ^ 63.

(** [t.Sub(u)]: the difference, saturated to the range of [Duration]. *)
Definition time_Sub (t u : Time) : Duration :=
  if maxDuration <? t - u then maxDuration
  else if t - u <? minDuration then minDuration
  else t - u.

(** Go [error] values met by the manager.  [ErrRemote] is whatever the
    sdk client returned; the others are the manager's own [fmt.Errorf]
    and [ctx.Err()] values. *)
Inductive error : Type :=
  | ErrRemote (msg : string)
  | ErrFetch (app : string) (cause : error)        (* fetching host group %q: %w *)
  | ErrNotFound (app : string)                     (* app %q: not found *)
  | ErrWakeFailed (app : string) (cause : error)   (* app %q: wake failed: %w *)
  | ErrWakeTimeout (app : string) (timeout : Duration)
  | ErrCtx (msg : string)                          (* ctx.Err() *)
  | ErrUnexpected (app : string).                  (* app %q: unexpected status *)

(** A channel is an index into the heap of channels [chans] of the
    state; [None] is the nil channel. *)
Definition chanId := nat.

(** [type vmInfo struct]. *)
Record vmInfo : Type := mkInfo {
  hostname : string;
  ip       : string;
  status   : vmStatus;
  lastSeen : Time;
  wakeCh   : option chanId;
  wakeErr  : option error;
}.

(** The zero value of [vmInfo]. *)
Definition zeroInfo : vmInfo :=
  {| hostname := ""; ip := ""; status := statusUnknown; lastSeen := zeroTime;
     wakeCh := None; wakeErr := None |}.

Definition set_status (st : vmStatus) (i : vmInfo) : vmInfo :=
  {| hostname := hostname i; ip := ip i; status := st; lastSeen := lastSeen i;
     wakeCh := wakeCh i; wakeErr := wakeErr i |}.

Definition set_lastSeen (t : Time) (i : vmInfo) : vmInfo :=
  {| hostname := hostname i; ip := ip i; status := status i; lastSeen := t;
     wakeCh := wakeCh i; wakeErr := wakeErr i |}.

Definition set_wakeCh (c : option chanId) (i : vmInfo) : vmInfo :=
  {| hostname := hostname i; ip := ip i; status := status i; lastSeen := lastSeen i;
     wakeCh := c; wakeErr := wakeErr i |}.

Definition set_wakeErr (e : option error) (i : vmInfo) : vmInfo :=
  {| hostname := hostname i; ip := ip i; status := status i; lastSeen := lastSeen i;
     wakeCh := wakeCh i; wakeErr := e |}.

(** A node as returned by the sdk's [GetHostGroupNodes]. *)
Record sdkNode : Type := mkNode {
  Hostname : string;
  IP       : string;
  Status   : string;
}.

(** A request received by the control plane through [m.client]. *)
Inductive apiCall : Type :=
  | GetHostGroupNodes (group : string)
  | ResumeVM (host : string)
  | PauseVM (host : string).

(** ** The heap of wake channels

    [chans !! c = Some false]: channel [c] is open; [Some true]: closed.
    [make(chan struct{})] allocates the next index. *)
Definition make_chan (chans : list bool) : chanId * list bool :=
  (List.length chans, chans ++ [false]).

(** [close(c)]; closing a closed channel panics ([None]). *)
Definition close_chan (c : chanId) (chans : list bool) : option (list bool) :=
  match chans !! c with
  | Some false => Some (<[c := true]> chans)
  | _ => None
  end.

Definition is_closed (chans : list bool) (c : chanId) : bool :=
  match chans !! c with Some true => true | _ => false end.

(** ** The critical sections of the manager

    [m.vms] is a [map[string]*vmInfo].  An entry is assigned only when the
    key is absent and is never deleted, so the pointer a caller got from
    [lookup] is the record stored at its key: the functions below take the
    key where the Go code takes the pointer. *)

(** lookup, lines 77-96: the record built from the describe result. *)
Definition newInfo (nodes : list sdkNode) (now : Time) : vmInfo :=
  match nodes with
  | [] => set_status statusNotFound zeroInfo
  | node :: _ =>
      {| hostname := Hostname node; ip := IP node;
         status := (if String.eqb (Status node) "Running" then statusRunning
                    else if String.eqb (Status node) "Paused" then statusPaused
                    else statusUnknown);
         lastSeen := now; wakeCh := None; wakeErr := None |}
  end.

(** lookup, lines 69-98: the second critical section.  Returns the new
    map and the record handed to the caller. *)
Definition lookup_store (appName : string) (nodes : list sdkNode) (now : Time)
    (vms : gmap string vmInfo) : gmap string vmInfo * vmInfo :=
  match vms !! appName with
  | Some info => (vms, info)
  | None => let info := newInfo nodes now in (<[appName := info]> vms, info)
  end.

(** What the critical section of [initiateWake] decides. *)
Inductive initiated : Type :=
  | JoinWake                    (* status was Waking: wait for the wake in flight *)
  | AlreadyRunning (addr : string)
  | StartWake (host : string).  (* go m.doWake(appName, hostname) *)

(** initiateWake, lines 125-140. *)
Definition initiateWake_locked (appName : string)
    (vms : gmap string vmInfo) (chans : list bool)
    : option (gmap string vmInfo * list bool * initiated) :=
  match vms !! appName with
  | None => None
  | Some info =>
      if status info =? statusWaking then Some (vms, chans, JoinWake)
      else if status info =? statusRunning then Some (vms, chans, AlreadyRunning (ip info))
      else
        let '(c, chans') := make_chan chans in
        let info' := set_wakeErr None (set_wakeCh (Some c) (set_status statusWaking info)) in
        Some (<[appName := info']> vms, chans', StartWake (hostname info))
  end.

(** finishWake, lines 174-195.  [None] is the panic of closing a closed
    channel. *)
Definition finishWake (appName : string) (err : option error)
    (vms : gmap string vmInfo) (chans : list bool)
    : option (gmap string vmInfo * list bool) :=
  match vms !! appName with
  | None => Some (vms, chans)
  | Some info =>
      let info1 := set_wakeErr err info in
      let info2 := match err with
                   | None => set_status statusRunning info1
                   | Some _ => set_status statusPaused info1
                   end in
      match wakeCh info2 with
      | None => Some (<[appName := info2]> vms, chans)
      | Some c =>
          chans' ← close_chan c chans;
          Some (<[appName := info2]> vms, chans')
      end
  end.

(** touchLastSeen, lines 197-203. *)
Definition touchLastSeen (appName : string) (now : Time)
    (vms : gmap string vmInfo) : gmap string vmInfo :=
  match vms !! appName with
  | Some info => <[appName := set_lastSeen now info]> vms
  | None => vms
  end.

(** The test of idleApps, line 212. *)
Definition is_idle (now : Time) (timeout : Duration) (info : vmInfo) : bool :=
  (status info =? statusRunning) && (timeout <? time_Sub now (lastSeen info)).

(** idleApps, lines 205-217.  Go ranges over the map in an unspecified
    order; the list below is in the order of [map_to_list]. *)
Definition idleApps (timeout : Duration) (now : Time)
    (vms : gmap string vmInfo) : list string :=
  (map_to_list (filter (λ kv, is_idle now timeout kv.2 = true) vms)).*1.

(** markPaused, lines 219-225. *)
Definition markPaused (appName : string)
    (vms : gmap string vmInfo) : gmap string vmInfo :=
  match vms !! appName with
  | Some info => <[appName := set_status statusPaused info]> vms
  | None => vms
  end.

(** getHostname, lines 227-234. *)
Definition getHostname (appName : string) (vms : gmap string vmInfo) : string :=
  match vms !! appName with
  | Some info => hostname info
  | None => ""
  end.

(** ** The manager with its client

    [vms] is [m.vms]; [chans] is the heap holding the channels the
    [wakeCh] fields point to; [calls] lists the requests made through
    [m.client], oldest first (what a test double of the control plane
    records). *)
Record vmStateManager : Type := mkMgr {
  vms   : gmap string vmInfo;
  chans : list bool;
  calls : list apiCall;
}.

(** newVMStateManager, lines 45-51. *)
Definition newVMStateManager : vmStateManager :=
  {| vms := ∅; chans := []; calls := [] |}.

Definition with_vms (v : gmap string vmInfo) (m : vmStateManager) : vmStateManager :=
  {| vms := v; chans := chans m; calls := calls m |}.

Definition with_chans (c : list bool) (m : vmStateManager) : vmStateManager :=
  {| vms := vms m; chans := c; calls := calls m |}.

Definition record_call (c : apiCall) (m : vmStateManager) : vmStateManager :=
  {| vms := vms m; chans := chans m; calls := calls m ++ [c] |}.

(** A Go pair [(value, error)]. *)
Inductive result (A : Type) : Type :=
  | Ok (a : A)
  | Err (e : error).
Arguments Ok {A} a.
Arguments Err {A} e.

Definition is_Err {A : Type} (r : result A) : Prop :=
  match r with Err _ => True | Ok _ => False end.

(** ** lookup as a sequential program (lines 54-99)

    [describe] is the behaviour of [m.client.GetHostGroupNodes] at the
    time of the call, [now] the reading of [time.Now()]. *)
Definition lookup (describe : string → result (list sdkNode)) (now : Time)
    (appName : string) (m : vmStateManager) : vmStateManager * result vmInfo :=
  match vms m !! appName with
  | Some info => (m, Ok info)
  | None =>
      let m1 := record_call (GetHostGroupNodes appName) m in
      match describe appName with
      | Err err => (m1, Err (ErrFetch appName err))
      | Ok nodes =>
          let '(v, info) := lookup_store appName nodes now (vms m1) in
          (with_vms v m1, Ok info)
      end
  end.

(** ** ensureRunning as a sequential program (lines 104-146)

    The caller runs alone up to the point where [ensureRunning] returns
    or reaches the [select] of [waitForWake]. *)
Inductive outcome : Type :=
  | Returns (r : result string)
  | Waits (c : option chanId) (spawned : option (string * string)).
      (* blocked on channel [c]; [spawned] is the [doWake] goroutine
         started on the way, if any *)

(** The switch of lines 110-121. *)
Inductive dispatch : Type :=
  | DNotFound | DRunning | DWaking | DWake | DUnexpected.

Definition switch_status (st : vmStatus) : dispatch :=
  if st =? statusNotFound then DNotFound
  else if st =? statusRunning then DRunning
  else if st =? statusWaking then DWaking
  else if (st =? statusPaused) || (st =? statusUnknown) then DWake
  else DUnexpected.

Definition wait_channel (appName : string) (m : vmStateManager) : option chanId :=
  match vms m !! appName with
  | Some info => wakeCh info
  | None => None
  end.

(** Lines 110-121, with initiateWake up to its call of waitForWake.  The
    [None] case of [initiateWake_locked] (no record at the key) is not
    taken: [info] is the record [lookup] returned for [appName]. *)
Definition ensureRunning_switch (appName : string) (info : vmInfo)
    (m1 : vmStateManager) : vmStateManager * outcome :=
  match switch_status (status info) with
  | DNotFound => (m1, Returns (Err (ErrNotFound appName)))
  | DRunning => (m1, Returns (Ok (ip info)))
  | DWaking => (m1, Waits (wait_channel appName m1) None)
  | DWake =>
      match initiateWake_locked appName (vms m1) (chans m1) with
      | None => (m1, Returns (Err (ErrUnexpected appName)))
      | Some (v, c, JoinWake) => (m1, Waits (wait_channel appName m1) None)
      | Some (v, c, AlreadyRunning addr) => (m1, Returns (Ok addr))
      | Some (v, c, StartWake host) =>
          let m2 := with_chans c (with_vms v m1) in
          (m2, Waits (wait_channel appName m2) (Some (appName, host)))
      end
  | DUnexpected => (m1, Returns (Err (ErrUnexpected appName)))
  end.

Definition ensureRunning (describe : string → result (list sdkNode)) (now : Time)
    (appName : string) (m : vmStateManager) : vmStateManager * outcome :=
  match lookup describe now appName m with
  | (m1, Err err) => (m1, Returns (Err err))
  | (m1, Ok info) => ensureRunning_switch appName info m1
  end.

(** waitForWake, lines 153-157: what a waiter returns once its channel
    is closed. *)
Definition wake_result (appName : string) (info : vmInfo) : result string :=
  match wakeErr info with
  | Some err => Err (ErrWakeFailed appName err)
  | None => Ok (ip info)
  end.

(** ** The idle watcher as a sequential program *)

(** What [rs.client.PauseVM] does when called: it returns nil, returns
    an error, or panics. *)
Inductive pauseResp : Type :=
  | PauseOk
  | PauseFails (err : error)
  | PausePanics (v : string).

(** Lines written through [rs.logger]. *)
Inductive logLine : Type :=
  | LogInfo (msg : string)
  | LogError (msg : string).

Inductive tickEnd : Type :=
  | TickCompleted
  | TickPanicked (v : string).

(** The loop of pauseIdleVMs, lines 73-98. *)
Fixpoint pauseLoop (pauseVM : string → pauseResp) (idle : list string)
    (m : vmStateManager) (log : list logLine)
    : vmStateManager * list logLine * tickEnd :=
  match idle with
  | [] => (m, log, TickCompleted)
  | appName :: rest =>
      let hostname := getHostname appName (vms m) in
      if String.eqb hostname "" then pauseLoop pauseVM rest m log
      else
        let log1 := log ++ [LogInfo "pausing idle VM"] in
        let m1 := record_call (PauseVM hostname) m in
        match pauseVM hostname with
        | PausePanics v => (m1, log1, TickPanicked v)
        | PauseFails _ =>
            pauseLoop pauseVM rest m1 (log1 ++ [LogError "failed to pause VM"])
        | PauseOk =>
            pauseLoop pauseVM rest (with_vms (markPaused appName (vms m1)) m1)
              (log1 ++ [LogInfo "VM paused successfully"])
        end
  end.

(** pauseIdleVMs, lines 71-99. *)
Definition pauseIdleVMs (pauseVM : string → pauseResp) (idleTimeout : Duration)
    (now : Time) (m : vmStateManager) (log : list logLine)
    : vmStateManager * list logLine * tickEnd :=
  pauseLoop pauseVM (idleApps idleTimeout now (vms m)) m log.

(** What the [select] of runIdleWatcher receives: [ctx.Done()], or a
    tick of the ticker, with the time the tick reads and the behaviour of
    the control plane during it. *)
Inductive event : Type :=
  | CtxDone
  | TickerFires (now : Time) (pauseVM : string → pauseResp).

Inductive watcherEnd : Type :=
  | Selecting                    (* still in the loop, waiting for an event *)
  | ReturnedOnDone               (* returned from the ctx.Done() case *)
  | ReturnedOnPanic (v : string). (* a panic unwound the loop *)

Record watcherRun : Type := mkRun {
  run_mgr   : vmStateManager;
  run_log   : list logLine;
  run_ticks : nat;               (* calls of pauseIdleVMs made *)
  run_end   : watcherEnd;
}.

(** The [for { select { ... } }] of runIdleWatcher, lines 60-68. *)
Fixpoint watchLoop (idleTimeout : Duration) (events : list event)
    (m : vmStateManager) (log : list logLine) (ticks : nat) : watcherRun :=
  match events with
  | [] => mkRun m log ticks Selecting
  | CtxDone :: _ => mkRun m (log ++ [LogInfo "idle watcher stopped"]) ticks ReturnedOnDone
  | TickerFires now pauseVM :: events' =>
      match pauseIdleVMs pauseVM idleTimeout now m log with
      | (m', log', TickPanicked v) => mkRun m' log' (S ticks) (ReturnedOnPanic v)
      | (m', log', TickCompleted) => watchLoop idleTimeout events' m' log' (S ticks)
      end
  end.

(** runIdleWatcher, lines 42-69.  The deferred function runs when the
    function returns or a panic unwinds it; [recover()] is non-nil only in
    the second case, and the function then returns to its caller. *)
Definition runIdleWatcher (idleTimeout : Duration) (events : list event)
    (m : vmStateManager) (log : list logLine) : watcherRun :=
  let r := watchLoop idleTimeout events m (log ++ [LogInfo "idle watcher started"]) 0 in
  match run_end r with
  | ReturnedOnPanic v =>
      mkRun (run_mgr r) (run_log r ++ [LogError "idle watcher panic recovered"])
            (run_ticks r) (ReturnedOnPanic v)
  | _ => r
  end.


(** ** The process: goroutines and their interleaving

    One [SlicerVM] owns one manager and starts one idle watcher
    (Provision calls startIdleWatcher once).  Request goroutines run
    ServeHTTP: [ensureRunning], then [touchLastSeen] on success.  (The
    ask server only calls [lookup], which is the first part of a request
    goroutine.)  Every wake started by [initiateWake] is a [doWake]
    goroutine. *)

(** Where a request goroutine stands. *)
Inductive reqPc : Type :=
  | AtLookup                         (* lookup, line 55 *)
  | AtDescribe                       (* line 64, before GetHostGroupNodes *)
  | AtStore (nodes : list sdkNode)   (* line 69, describe returned nodes *)
  | AtSwitch                         (* line 110, before reading info.status *)
  | AtInitiate                       (* initiateWake, line 125 *)
  | AtSelect                         (* waitForWake, line 152: info.wakeCh not yet read *)
  | Blocked (c : option chanId)      (* in the select, receiving from c *)
  | Returned (r : result string)     (* ensureRunning returned r *)
  | Finished.                        (* ServeHTTP went on after touchLastSeen or the error reply *)

Record request : Type := mkReq {
  rkey     : string;
  rtimeout : Duration;
  rpc      : reqPc;
}.

(** Where a doWake goroutine stands (lines 166-172). *)
Inductive wakePc : Type :=
  | WakeCall                          (* before m.client.ResumeVM *)
  | WakeReturned (err : option error) (* ResumeVM returned err; before finishWake *)
  | WakeDone.

Record wake : Type := mkWake {
  wkey  : string;
  whost : string;
  wpc   : wakePc;
}.

(** Where the idle watcher stands. *)
Inductive watcherPc : Type :=
  | Ticking                                         (* in the select of runIdleWatcher *)
  | AtHostname (idle : list string)                 (* pauseIdleVMs, top of the loop body *)
  | AtPause (appName host : string) (rest : list string)  (* before PauseVM *)
  | AtMark (appName : string) (rest : list string)  (* PauseVM returned nil *)
  | Stopped.

Record sys : Type := mkSys {
  mgr         : vmStateManager;
  clock       : Time;
  idleTimeout : Duration;
  reqs        : list request;
  wakes       : list wake;
  watcher     : watcherPc;
}.

Definition with_mgr (m : vmStateManager) (s : sys) : sys :=
  {| mgr := m; clock := clock s; idleTimeout := idleTimeout s;
     reqs := reqs s; wakes := wakes s; watcher := watcher s |}.

Definition with_clock (t : Time) (s : sys) : sys :=
  {| mgr := mgr s; clock := t; idleTimeout := idleTimeout s;
     reqs := reqs s; wakes := wakes s; watcher := watcher s |}.

Definition with_reqs (r : list request) (s : sys) : sys :=
  {| mgr := mgr s; clock := clock s; idleTimeout := idleTimeout s;
     reqs := r; wakes := wakes s; watcher := watcher s |}.

Definition with_wakes (w : list wake) (s : sys) : sys :=
  {| mgr := mgr s; clock := clock s; idleTimeout := idleTimeout s;
     reqs := reqs s; wakes := w; watcher := watcher s |}.

Definition with_watcher (p : watcherPc) (s : sys) : sys :=
  {| mgr := mgr s; clock := clock s; idleTimeout := idleTimeout s;
     reqs := reqs s; wakes := wakes s; watcher := p |}.

(** The state after Provision. *)
Definition init (timeout : Duration) (now : Time) : sys :=
  {| mgr := newVMStateManager; clock := now; idleTimeout := timeout;
     reqs := []; wakes := []; watcher := Ticking |}.

(** Request [t] moves to [pc]. *)
Definition goto (t : nat) (r : request) (pc : reqPc) (s : sys) : sys :=
  with_reqs (<[t := mkReq (rkey r) (rtimeout r) pc]> (reqs s)) s.

(** The next step of a request goroutine that needs nothing from outside:
    a critical section or an unlocked read. *)
Definition req_step (t : nat) (r : request) (s : sys) : option sys :=
  let m := mgr s in
  match rpc r with
  | AtLookup =>
      match vms m !! rkey r with
      | Some _ => Some (goto t r AtSwitch s)
      | None => Some (goto t r AtDescribe s)
      end
  | AtDescribe => None
  | AtStore nodes =>
      let '(v, _) := lookup_store (rkey r) nodes (clock s) (vms m) in
      Some (goto t r AtSwitch (with_mgr (with_vms v m) s))
  | AtSwitch =>
      info ← vms m !! rkey r;
      Some (goto t r
              match switch_status (status info) with
              | DNotFound => Returned (Err (ErrNotFound (rkey r)))
              | DRunning => Returned (Ok (ip info))
              | DWaking => AtSelect
              | DWake => AtInitiate
              | DUnexpected => Returned (Err (ErrUnexpected (rkey r)))
              end s)
  | AtInitiate =>
      '(v, c, d) ← initiateWake_locked (rkey r) (vms m) (chans m);
      match d with
      | JoinWake => Some (goto t r AtSelect s)
      | AlreadyRunning addr => Some (goto t r (Returned (Ok addr)) s)
      | StartWake host =>
          Some (goto t r AtSelect
                  (with_wakes (wakes s ++ [mkWake (rkey r) host WakeCall])
                     (with_mgr (with_chans c (with_vms v m)) s)))
      end
  | AtSelect =>
      info ← vms m !! rkey r;
      Some (goto t r (Blocked (wakeCh info)) s)
  | Blocked (Some c) =>
      if is_closed (chans m) c then
        info ← vms m !! rkey r;
        Some (goto t r (Returned (wake_result (rkey r) info)) s)
      else None
  | Blocked None => None
  | Returned (Ok _) =>
      Some (goto t r Finished
              (with_mgr (with_vms (touchLastSeen (rkey r) (clock s) (vms m)) m) s))
  | Returned (Err _) => Some (goto t r Finished s)
  | Finished => None
  end.

(** What can happen next in the process. *)
Inductive action : Type :=
  | Arrive (appName : string) (timeout : Duration)
      (* a request arrives and its goroutine calls ensureRunning *)
  | ReqStep (t : nat)
      (* request t runs its next critical section or unlocked read *)
  | ReqDescribe (t : nat) (resp : result (list sdkNode))
      (* request t calls GetHostGroupNodes, which returns resp *)
  | ReqTimeout (t : nat)
      (* the timer of request t fires in its select *)
  | ReqCancel (t : nat) (msg : string)
      (* the context of request t is done in its select *)
  | WakeResume (w : nat) (resp : option error)
      (* wake goroutine w calls ResumeVM, which returns resp *)
  | WakeFinish (w : nat)
      (* wake goroutine w runs finishWake *)
  | WatchTick
      (* the ticker fires: the watcher calls idleApps *)
  | WatchStep
      (* the watcher runs getHostname or markPaused, or ends the tick *)
  | WatchPause (resp : pauseResp)
      (* the watcher calls PauseVM, which does resp *)
  | WatchStop
      (* the watcher's context is cancelled *)
  | Advance (dt : Duration).
      (* time passes *)

Definition step (a : action) (s : sys) : option sys :=
  let m := mgr s in
  match a with
  | Arrive appName timeout =>
      Some (with_reqs (reqs s ++ [mkReq appName timeout AtLookup]) s)
  | ReqStep t =>
      r ← reqs s !! t; req_step t r s
  | ReqDescribe t resp =>
      r ← reqs s !! t;
      match rpc r with
      | AtDescribe =>
          let s1 := with_mgr (record_call (GetHostGroupNodes (rkey r)) m) s in
          match resp with
          | Err err => Some (goto t r (Returned (Err (ErrFetch (rkey r) err))) s1)
          | Ok nodes => Some (goto t r (AtStore nodes) s1)
          end
      | _ => None
      end
  | ReqTimeout t =>
      r ← reqs s !! t;
      match rpc r with
      | Blocked _ =>
          Some (goto t r (Returned (Err (ErrWakeTimeout (rkey r) (rtimeout r)))) s)
      | _ => None
      end
  | ReqCancel t msg =>
      r ← reqs s !! t;
      match rpc r with
      | Blocked _ => Some (goto t r (Returned (Err (ErrCtx msg))) s)
      | _ => None
      end
  | WakeResume w resp =>
      k ← wakes s !! w;
      match wpc k with
      | WakeCall =>
          Some (with_wakes (<[w := mkWake (wkey k) (whost k) (WakeReturned resp)]> (wakes s))
                  (with_mgr (record_call (ResumeVM (whost k)) m) s))
      | _ => None
      end
  | WakeFinish w =>
      k ← wakes s !! w;
      match wpc k with
      | WakeReturned err =>
          '(v, c) ← finishWake (wkey k) err (vms m) (chans m);
          Some (with_wakes (<[w := mkWake (wkey k) (whost k) WakeDone]> (wakes s))
                  (with_mgr (with_chans c (with_vms v m)) s))
      | _ => None
      end
  | WatchTick =>
      match watcher s with
      | Ticking =>
          Some (with_watcher (AtHostname (idleApps (idleTimeout s) (clock s) (vms m))) s)
      | _ => None
      end
  | WatchStep =>
      match watcher s with
      | AtHostname [] => Some (with_watcher Ticking s)
      | AtHostname (appName :: rest) =>
          let host := getHostname appName (vms m) in
          if String.eqb host "" then Some (with_watcher (AtHostname rest) s)
          else Some (with_watcher (AtPause appName host rest) s)
      | AtMark appName rest =>
          Some (with_watcher (AtHostname rest)
                  (with_mgr (with_vms (markPaused appName (vms m)) m) s))
      | _ => None
      end
  | WatchPause resp =>
      match watcher s with
      | AtPause appName host rest =>
          let s1 := with_mgr (record_call (PauseVM host) m) s in
          match resp with
          | PauseOk => Some (with_watcher (AtMark appName rest) s1)
          | PauseFails _ => Some (with_watcher (AtHostname rest) s1)
          | PausePanics _ => Some (with_watcher Stopped s1)
          end
      | _ => None
      end
  | WatchStop =>
      match watcher s with
      | Ticking => Some (with_watcher Stopped s)
      | _ => None
      end
  | Advance dt =>
      if 0 <=? dt then Some (with_clock (clock s + dt) s) else None
  end.

(** A schedule is a list of actions; [run] performs them in order. *)
Fixpoint run (tr : list action) (s : sys) : option sys :=
  match tr with
  | [] => Some s
  | a :: tr' => s' ← step a s; run tr' s'
  end.

Definition reachable (s : sys) : Prop :=
  ∃ timeout now tr, run tr (init timeout now) = Some s.

(** The keys of the [doWake] goroutines started so far, in the order in
    which they were started; each goroutine calls ResumeVM once. *)
Definition wake_keys (s : sys) : list string := wkey <$> wakes s.

(** The number of resumes started for a key. *)
Definition resumes_started (appName : string) (s : sys) : nat :=
  List.length (filter (λ k, k = appName) (wake_keys s)).





(** The record of a key in a state of the process. *)
Definition record_of (appName : string) (s : sys) : option vmInfo :=
  vms (mgr s) !! appName.


(** Request [t] scheduled alone, until ensureRunning returns or blocks in
    the select; [describe] answers its describe call. *)
Fixpoint run_alone (describe : string → result (list sdkNode)) (fuel : nat)
    (t : nat) (s : sys) : option sys :=
  match fuel with
  | O => Some s
  | S fuel' =>
      r ← reqs s !! t;
      match rpc r with
      | Returned _ | Blocked _ | Finished => Some s
      | AtDescribe =>
          s' ← step (ReqDescribe t (describe (rkey r))) s;
          run_alone describe fuel' t s'
      | _ => s' ← step (ReqStep t) s; run_alone describe fuel' t s'
      end
  end.

(** The goroutine a sequential run of ensureRunning has started. *)
Definition spawned_wake (o : outcome) : list wake :=
  match o with
  | Waits _ (Some (appName, host)) => [mkWake appName host WakeCall]
  | _ => []
  end.

(** Where the request goroutine stands at that outcome. *)
Definition outcome_pc (o : outcome) : reqPc :=
  match o with
  | Returns r => Returned r
  | Waits c _ => Blocked c
  end.

(** What it means for the state [s'] reached by request [t] to match the
    result [res] of the sequential program run on the manager of [s]. *)
Definition matches (k : string) (to : Duration) (t : nat) (s s' : sys)
    (res : vmStateManager * outcome) : Prop :=
  mgr s' = res.1
  ∧ reqs s' !! t = Some (mkReq k to (outcome_pc res.2))
  ∧ wakes s' = wakes s ++ spawned_wake res.2
  ∧ clock s' = clock s ∧ watcher s' = watcher s.

(** The watcher scheduled alone until the tick is over; [pauseVM]
    answers its PauseVM calls. *)
Fixpoint watch_alone (pauseVM : string → pauseResp) (fuel : nat) (s : sys)
    : option sys :=
  match fuel with
  | O => Some s
  | S fuel' =>
      match watcher s with
      | Ticking | Stopped => Some s
      | AtPause _ host _ =>
          s' ← step (WatchPause (pauseVM host)) s; watch_alone pauseVM fuel' s'
      | _ => s' ← step WatchStep s; watch_alone pauseVM fuel' s'
      end
  end.

(** Where the watcher stands after a tick. *)
Definition tick_pc (e : tickEnd) : watcherPc :=
  match e with
  | TickCompleted => Ticking
  | TickPanicked _ => Stopped
  end.

(** ** Example schedules *)

Definition alpha_paused : list sdkNode := [mkNode "vm-alpha" "10.0.0.5" "Paused"].

(** One request for the unseen key alpha: describe reports a paused VM,
    the request starts the wake and blocks; the resume succeeds; the
    request returns the address and touches the record. *)
Definition wake_schedule : list action :=
  [ Arrive "alpha" 5000000000; ReqStep 0; ReqDescribe 0 (Ok alpha_paused);
    ReqStep 0; ReqStep 0; ReqStep 0; ReqStep 0;
    WakeResume 0 None; WakeFinish 0; ReqStep 0; ReqStep 0 ].

(** The state in which the wake of alpha is in flight and request 0 is
    blocked on its channel. *)
Definition waking_state : sys :=
  default (init 30000000000 0) (run (take 7 wake_schedule) (init 30000000000 0)).

(** The state after the whole schedule. *)
Definition woken_state : sys :=
  default (init 30000000000 0) (run wake_schedule (init 30000000000 0)).

(** A request for a key the control plane does not know. *)
Definition ghost_schedule : list action :=
  [ Arrive "ghost" 5000000000; ReqStep 0; ReqDescribe 0 (Ok []); ReqStep 0; ReqStep 0 ].

Definition ghost_state : sys :=
  default (init 30000000000 0) (run ghost_schedule (init 30000000000 0)).

(** Later on: a second request for the same key, a request that wakes
    alpha, and a tick of the watcher. *)
Definition ghost_later : list action :=
  [ ReqStep 0; Arrive "ghost" 5000000000; ReqStep 1; ReqStep 1; ReqStep 1;
    Arrive "alpha" 5000000000; ReqStep 2; ReqDescribe 2 (Ok alpha_paused);
    ReqStep 2; ReqStep 2; ReqStep 2; ReqStep 2; WakeResume 0 None; WakeFinish 0;
    Advance 31000000000; WatchTick; WatchStep; WatchPause PauseOk; WatchStep;
    WatchStep ].

Definition ghost_later_state : sys :=
  default ghost_state (run ghost_later ghost_state).

(** The accepted race between a request and the watcher.  The record of
    alpha is created Paused at time 0.  31 seconds later a request wakes
    the VM; the wake does not touch lastSeen, so the record is idle as
    soon as it is Running, and a tick of the watcher pauses the VM before
    the request (which has its address) touches the record. *)
Definition late_touch_schedule : list action :=
  take 4 wake_schedule ++ [Advance 31000000000] ++ drop 4 (take 10 wake_schedule)
  ++ [ WatchTick; WatchStep; WatchPause PauseOk; WatchStep ].

Definition paused_state : sys :=
  default (init 30000000000 0) (run late_touch_schedule (init 30000000000 0)).

Definition pause_works : string → pauseResp := λ _, PauseOk.


(** Two requests for alpha are in ensureRunning at the same time, and
    both read the status Paused at the switch. *)
Definition race_observe : list action :=
  [ Arrive "alpha" 5000000000; Arrive "alpha" 5000000000;
    ReqStep 0; ReqDescribe 0 (Ok alpha_paused); ReqStep 0; ReqStep 1;
    ReqStep 0; ReqStep 1 ].

(** Request 0 starts the wake and waits; the resume fails; request 0
    returns.  Only then request 1 takes the lock in initiateWake: it finds
    the record Paused and starts a second wake, which succeeds. *)
Definition race_rest : list action :=
  [ ReqStep 0; ReqStep 0; WakeResume 0 (Some (ErrRemote "resume failed"));
    WakeFinish 0; ReqStep 0;
    ReqStep 1; ReqStep 1; WakeResume 1 None; WakeFinish 1; ReqStep 1 ].

Definition race_observed : sys :=
  default (init 30000000000 0) (run race_observe (init 30000000000 0)).

Definition race_end : sys :=
  default (init 30000000000 0) (run race_rest race_observed).

(** As [race_rest], but request 0, released by the failed wake, takes its
    step only after request 1 has started the second wake. *)
Definition race_late_read : list action :=
  [ ReqStep 0; ReqStep 0; WakeResume 0 (Some (ErrRemote "resume failed"));
    WakeFinish 0; ReqStep 1; ReqStep 0 ].

(** Three requests for alpha; the first starts the wake, the other two
    join it; all three are blocked in the select and ResumeVM has
    returned. *)
Definition three_waiting_schedule : list action :=
  [ Arrive "alpha" 5000000000; Arrive "alpha" 5000000000; Arrive "alpha" 5000000000;
    ReqStep 0; ReqDescribe 0 (Ok alpha_paused); ReqStep 0; ReqStep 1;
    ReqStep 0; ReqStep 1; ReqStep 0; ReqStep 2; ReqStep 2;
    ReqStep 1; ReqStep 0; ReqStep 1; ReqStep 2; WakeResume 0 None ].


(** ** Invariants of the process *)

(** The records and the channel heap: statuses are the five constants; a
    record in Waking points to an open channel; the channel of a record
    not in Waking, if any, is closed; no two records share a channel. *)
Record rec_inv (v : gmap string vmInfo) (ch : list bool) : Prop := mkRecInv {
  ri_status : ∀ k info, v !! k = Some info → 0 ≤ status info ≤ 4;
  ri_waking : ∀ k info, v !! k = Some info → status info = statusWaking →
                ∃ c, wakeCh info = Some c ∧ ch !! c = Some false;
  ri_settled : ∀ k info c, v !! k = Some info → status info ≠ statusWaking →
                wakeCh info = Some c → ch !! c = Some true;
  ri_inj : ∀ k1 k2 i1 i2 c, v !! k1 = Some i1 → v !! k2 = Some i2 →
                wakeCh i1 = Some c → wakeCh i2 = Some c → k1 = k2;
}.

(** A [doWake] goroutine that has not run finishWake yet. *)
Definition in_flight (w : wake) : Prop := wpc w ≠ WakeDone.

(** The wakes in flight are those of the records in Waking, one each. *)
Record wake_inv (v : gmap string vmInfo) (ws : list wake) : Prop := mkWakeInv {
  wi_waking : ∀ i w, ws !! i = Some w → in_flight w →
                ∃ info, v !! wkey w = Some info ∧ status info = statusWaking;
  wi_unique : ∀ i j w1 w2, ws !! i = Some w1 → ws !! j = Some w2 →
                in_flight w1 → in_flight w2 → wkey w1 = wkey w2 → i = j;
  wi_exists : ∀ k info, v !! k = Some info → status info = statusWaking →
                ∃ i w, ws !! i = Some w ∧ in_flight w ∧ wkey w = k;
}.

(** The keys the watcher still has to go through in the current tick. *)
Definition watch_keys (p : watcherPc) : list string :=
  match p with
  | AtHostname idle => idle
  | AtPause appName _ rest => appName :: rest
  | AtMark appName rest => appName :: rest
  | Ticking | Stopped => []
  end.

(** They are distinct and their records are Running. *)
Definition watch_inv (v : gmap string vmInfo) (p : watcherPc) : Prop :=
  NoDup (watch_keys p) ∧
  ∀ k, k ∈ watch_keys p → ∃ info, v !! k = Some info ∧ status info = statusRunning.

(** What a request goroutine knows about its record, and what it can
    have returned. *)
Definition req_ok (v : gmap string vmInfo) (ch : list bool) (r : request) : Prop :=
  match rpc r with
  | AtLookup | AtDescribe | AtStore _ | Finished => True
  | Returned res => ∀ app, res ≠ Err (ErrUnexpected app)
  | AtSwitch | AtSelect => is_Some (v !! rkey r)
  | AtInitiate => ∃ info, v !! rkey r = Some info ∧ status info ≠ statusNotFound
  | Blocked c =>
      ∃ info, v !! rkey r = Some info ∧
        ∀ c', c = Some c' → ch !! c' = Some true ∨ wakeCh info = Some c'
  end.

Record coherent (s : sys) : Prop := mkCoherent {
  coh_rec   : rec_inv (vms (mgr s)) (chans (mgr s));
  coh_wake  : wake_inv (vms (mgr s)) (wakes s);
  coh_watch : watch_inv (vms (mgr s)) (watcher s);
  coh_reqs  : ∀ t r, reqs s !! t = Some r → req_ok (vms (mgr s)) (chans (mgr s)) r;
}.

(** How the records and channels change in one step: records stay, a
    record keeps being NotFound or not being NotFound, closed channels
    stay closed, and a record gets a new channel only when its old one is
    closed. *)
Record evolves (v : gmap string vmInfo) (ch : list bool)
    (v' : gmap string vmInfo) (ch' : list bool) : Prop := mkEvolves {
  ev_keep : ∀ k info, v !! k = Some info → ∃ info', v' !! k = Some info' ∧
              (status info = statusNotFound ↔ status info' = statusNotFound) ∧
              (∀ c, wakeCh info = Some c → ch' !! c = Some true ∨ wakeCh info' = Some c);
  ev_closed : ∀ c, ch !! c = Some true → ch' !! c = Some true;
}.

(** ** The state machine of a record

    What one step of the process can do to a record that exists.  The
    index counts the resumes the step starts for the record's key. *)
Inductive transition : nat → vmInfo → vmInfo → Prop :=
  | Stays info info' :
      status info' = status info → wakeCh info' = wakeCh info →
      wakeErr info' = wakeErr info →
      transition 0 info info'
  | WakeStarts info info' :
      status info = statusPaused ∨ status info = statusUnknown →
      status info' = statusWaking → wakeErr info' = None →
      lastSeen info' = lastSeen info →
      transition 1 info info'
  | WakeSucceeds info info' :
      status info = statusWaking → status info' = statusRunning →
      wakeErr info' = None → wakeCh info' = wakeCh info →
      lastSeen info' = lastSeen info →
      transition 0 info info'
  | WakeFails err info info' :
      status info = statusWaking → status info' = statusPaused →
      wakeErr info' = Some err → wakeCh info' = wakeCh info →
      lastSeen info' = lastSeen info →
      transition 0 info info'
  | Pauses info info' :
      status info = statusRunning → info' = set_status statusPaused info →
      transition 0 info info'.

(** How a step relates the record of a key before and after it. *)
Definition record_step (k : string) (s s' : sys) : Prop :=
  ∀ info, record_of k s = Some info →
    ∃ info' n, record_of k s' = Some info'
      ∧ hostname info' = hostname info ∧ ip info' = ip info
      ∧ transition n info info'
      ∧ resumes_started k s' = (resumes_started k s + n)%nat
      ∧ (n = 1%nat → wakeCh info' = Some (List.length (chans (mgr s)))).

(** ** What a tick of the watcher does to a record *)

(** pauseIdleVMs pauses the VM of a record when its key is idle, its
    hostname is not empty and PauseVM returns nil. *)
Definition tick_pauses (pauseVM : string → pauseResp) (info : vmInfo) : bool :=
  negb (String.eqb (hostname info) "")
  && match pauseVM (hostname info) with PauseOk => true | _ => false end.

(** The hostnames PauseVM is called with for the keys [idle]. *)
Definition pause_targets (idle : list string) (v : gmap string vmInfo) : list string :=
  filter (λ h, h ≠ "") ((λ a, getHostname a v) <$> idle).

(** ** What the watcher may do to the manager *)

(** [m'] differs from [m] only by PauseVM calls with a hostname and by
    records gone from Running to Paused. *)
Definition paused_only (m m' : vmStateManager) : Prop :=
  chans m' = chans m
  ∧ (∃ hosts, calls m' = calls m ++ (PauseVM <$> hosts) ∧ "" ∉ hosts)
  ∧ ∀ k, match vms m !! k with
         | None => vms m' !! k = None
         | Some info =>
             vms m' !! k = Some info
             ∨ (status info = statusRunning
                ∧ vms m' !! k = Some (set_status statusPaused info))
         end.

(** runIdleWatcher with its ticker, lines 42-69.  [time.NewTicker] panics
    when the interval is not positive; this happens after the recover
    has been deferred and before "idle watcher started" is logged. *)
Definition runIdleWatcher_ticker (interval idleTimeout : Duration)
    (events : list event) (m : vmStateManager) (log : list logLine) : watcherRun :=
  if interval <=? 0 then
    mkRun m (log ++ [LogError "idle watcher panic recovered"]) 0
          (ReturnedOnPanic "non-positive interval for NewTicker")
  else runIdleWatcher idleTimeout events m log.

(** ** The module: configuration (config.go) *)

Definition second : Duration := 1000000000.
Definition minute : Duration := 60 * second.

(** [type SlicerVM struct], the configured fields. *)
Record SlicerVM : Type := mkSlicerVM {
  SlicerURL     : string;
  SlicerToken   : string;
  IdleTimeout   : Duration;
  WakeTimeout   : Duration;
  AppPort       : Z;
  WatchInterval : Duration;
}.

(** The defaults of Provision, lines 46-57. *)
Definition Provision_defaults (rs : SlicerVM) : SlicerVM :=
  {| SlicerURL := SlicerURL rs;
     SlicerToken := SlicerToken rs;
     IdleTimeout := if IdleTimeout rs =? 0 then 5 * minute else IdleTimeout rs;
     WakeTimeout := if WakeTimeout rs =? 0 then 30 * second else WakeTimeout rs;
     AppPort := if AppPort rs =? 0 then 8080 else AppPort rs;
     WatchInterval := if WatchInterval rs =? 0 then 30 * second else WatchInterval rs |}.

(** Validate, lines 67-81: the message of the error, [None] for nil. *)
Definition Validate (rs : SlicerVM) : option string :=
  if String.eqb (SlicerURL rs) "" then Some "slicer_url is required"
  else if String.eqb (SlicerToken rs) "" then Some "slicer_token is required"
  else if IdleTimeout rs <? 30 * second then Some "idle_timeout must be at least 30s"
  else if (AppPort rs <? 1) || (65535 <? AppPort rs)
       then Some "app_port must be between 1 and 65535"
  else None.

(** ** The registry of watchers (part_000, lines 11-40)

    [watcherCancels] maps a module instance (its address) to the cancel
    function of the context of its watcher.  A context is an index into
    [ctxs], the flag telling whether it has been cancelled. *)
Record registry : Type := mkRegistry {
  ctxs           : list bool;
  watcherCancels : gmap nat nat;
}.

Definition no_watchers : registry := {| ctxs := []; watcherCancels := ∅ |}.

(** startIdleWatcher, lines 18-26; the second component is the context
    the new [runIdleWatcher] goroutine is started with. *)
Definition startIdleWatcher (rs : nat) (g : registry) : registry * nat :=
  let ctx := List.length (ctxs g) in
  ({| ctxs := ctxs g ++ [false]; watcherCancels := <[rs := ctx]> (watcherCancels g) |},
   ctx).

(** stopIdleWatcher, lines 29-40.  Calling a cancel function a second
    time does nothing. *)
Definition stopIdleWatcher (rs : nat) (g : registry) : registry :=
  match watcherCancels g !! rs with
  | Some cancel =>
      {| ctxs := <[cancel := true]> (ctxs g);
         watcherCancels := delete rs (watcherCancels g) |}
  | None => g
  end.

(** Provision (line 62) and Cleanup (line 84) as seen by the registry. *)
Inductive lifecycle : Type :=
  | DoProvision (rs : nat)
  | DoCleanup (rs : nat).

Definition lifecycle_step (op : lifecycle) (g : registry) : registry :=
  match op with
  | DoProvision rs => (startIdleWatcher rs g).1
  | DoCleanup rs => stopIdleWatcher rs g
  end.

Definition lifecycle_run (ops : list lifecycle) (g : registry) : registry :=
  foldl (λ g op, lifecycle_step op g) g ops.

(** The watchers that are running: the contexts not cancelled. *)
Definition ctx_live (g : registry) (ctx : nat) : Prop := ctxs g !! ctx = Some false.

(** ** What the calls, the wakes and the results refer to *)

(** [host] is the hostname of the record of [k], which is not NotFound. *)
Definition names_record (v : gmap string vmInfo) (k host : string) : Prop :=
  ∃ info, v !! k = Some info ∧ hostname info = host ∧ status info ≠ statusNotFound.

Definition call_ok (v : gmap string vmInfo) (c : apiCall) : Prop :=
  match c with
  | GetHostGroupNodes _ => True
  | ResumeVM host => ∃ k, names_record v k host
  | PauseVM host => host ≠ "" ∧ ∃ k, names_record v k host
  end.

Definition watch_ok (v : gmap string vmInfo) (p : watcherPc) : Prop :=
  match p with
  | AtPause appName host _ => host ≠ "" ∧ names_record v appName host
  | _ => True
  end.

(** The record of a request that waits, and of one whose ensureRunning
    has returned. *)
Definition found (v : gmap string vmInfo) (k : string) : Prop :=
  ∃ info, v !! k = Some info ∧ status info ≠ statusNotFound.

Definition error_ok (v : gmap string vmInfo) (r : request) (e : error) : Prop :=
  match e with
  | ErrNotFound app =>
      app = rkey r ∧ ∃ info, v !! rkey r = Some info ∧ status info = statusNotFound
  | ErrFetch app _ => app = rkey r
  | ErrWakeFailed app _ => app = rkey r ∧ found v (rkey r)
  | ErrWakeTimeout app timeout => app = rkey r ∧ timeout = rtimeout r ∧ found v (rkey r)
  | ErrCtx _ => found v (rkey r)
  | ErrRemote _ | ErrUnexpected _ => False
  end.

Definition result_ok (v : gmap string vmInfo) (r : request) : Prop :=
  match rpc r with
  | AtSelect | Blocked _ => found v (rkey r)
  | Returned (Ok addr) =>
      ∃ info, v !! rkey r = Some info ∧ ip info = addr ∧ status info ≠ statusNotFound
  | Returned (Err e) => error_ok v r e
  | _ => True
  end.

Record traced (s : sys) : Prop := mkTraced {
  tr_calls : ∀ c, c ∈ calls (mgr s) → call_ok (vms (mgr s)) c;
  tr_wakes : ∀ i w, wakes s !! i = Some w → names_record (vms (mgr s)) (wkey w) (whost w);
  tr_watch : watch_ok (vms (mgr s)) (watcher s);
  tr_reqs  : ∀ t r, reqs s !! t = Some r → result_ok (vms (mgr s)) r;
}.

(** Records stay, with their hostname and ip, and stay NotFound or not
    NotFound. *)
Definition keeps (v v' : gmap string vmInfo) : Prop :=
  ∀ k info, v !! k = Some info →
    ∃ info', v' !! k = Some info' ∧ hostname info' = hostname info ∧ ip info' = ip info
      ∧ (status info = statusNotFound ↔ status info' = statusNotFound).

(** ** The request handler (ask.go)

    Go strings are byte strings, as are [string]s here. *)

(** [strings.HasPrefix]. *)
Definition HasPrefix (s prefix : string) : bool := String.prefix prefix s.

(** [strings.Contains]. *)
Fixpoint Contains (s substr : string) : bool :=
  HasPrefix s substr
  || match s with
     | EmptyString => false
     | String _ s' => Contains s' substr
     end.

(** [strings.LastIndex] and [strings.Split]; the code calls them with
    separators of one byte. *)
Fixpoint LastIndex (s : string) (sep : Ascii.ascii) : Z :=
  match s with
  | EmptyString => -1
  | String c s' =>
      let i := LastIndex s' sep in
      if 0 <=? i then i + 1 else if Ascii.eqb c sep then 0 else -1
  end.

Fixpoint Split (s : string) (sep : Ascii.ascii) : list string :=
  match s with
  | EmptyString => [EmptyString]
  | String c s' =>
      if Ascii.eqb c sep then EmptyString :: Split s' sep
      else match Split s' sep with
           | p :: ps => String c p :: ps
           | [] => [String c EmptyString]
           end
  end.

(** [strings.Count] for a separator of one byte. *)
Fixpoint Count (s : string) (sep : Ascii.ascii) : nat :=
  match s with
  | EmptyString => 0%nat
  | String c s' => ((if Ascii.eqb c sep then 1 else 0) + Count s' sep)%nat
  end.

(** The slice [s[:idx]]. *)
Definition slice_to (s : string) (idx : Z) : string := String.substring 0 (Z.to_nat idx) s.

(** "Strip port if present", lines 140-145 and again lines 204-209. *)
Definition strip_port (host : string) : string :=
  let idx := LastIndex host ":"%char in
  if negb (idx =? -1) then
    if negb (Contains host "]") || (LastIndex host "]"%char <? idx) then slice_to host idx
    else host
  else host.

(** extractHostname, lines 136-148, on [r.Host]. *)
Definition extractHostname (host : string) : string := strip_port host.

(** extractAppName, lines 200-217, on [r.Host]. *)
Definition extractAppName (host : string) : string :=
  let parts := Split (strip_port host) "."%char in
  if (List.length parts <? 3)%nat then "" else hd "" parts.

Definition nl : string := String "010"%char EmptyString.

(** What a handler has done with a request: written a reply, or set the
    upstream and called the next handler. *)
Inductive served : Type :=
  | Replied (code : Z) (body : string) (retryAfter : option string)
  | Forwarded (upstream : string).

(** The verb [%d]. *)
Definition itoa (n : Z) : string := DecimalString.NilZero.string_of_int (Z.to_int n).

Section replies.
(** The verb [%q] ([strconv.Quote]) and [Duration.String]. *)
Variable quote : string → string.
Variable duration_String : Duration → string.

(** [err.Error()], from the format strings of state.go. *)
Fixpoint Error (e : error) : string :=
  match e with
  | ErrRemote msg => msg
  | ErrFetch app cause => "fetching host group " +:+ quote app +:+ ": " +:+ Error cause
  | ErrNotFound app => "app " +:+ quote app +:+ ": not found"
  | ErrWakeFailed app cause => "app " +:+ quote app +:+ ": wake failed: " +:+ Error cause
  | ErrWakeTimeout app timeout =>
      "app " +:+ quote app +:+ ": wake timed out after " +:+ duration_String timeout
  | ErrCtx msg => msg
  | ErrUnexpected app => "app " +:+ quote app +:+ ": unexpected status"
  end.

(** ServeHTTP from the return of ensureRunning on, lines 171-194. *)
Definition ServeHTTP_reply (appName : string) (port : Z) (res : result string) : served :=
  match res with
  | Err err =>
      if Contains (Error err) "not found"
      then Replied 404 ("app " +:+ quote appName +:+ " not found" +:+ nl) None
      else Replied 503 ("app " +:+ quote appName +:+ " is starting up, please retry" +:+ nl)
                   (Some "5")
  | Ok addr => Forwarded (addr +:+ ":" +:+ itoa port)
  end.

(** ServeHTTP, lines 162-195, for a request whose ensureRunning does not
    have to wait; [None] when it blocks in waitForWake.  [now] is the
    time read by lookup, [now'] the one read by touchLastSeen. *)
Definition ServeHTTP (describe : string → result (list sdkNode)) (now now' : Time)
    (port : Z) (host : string) (m : vmStateManager)
    : vmStateManager * option served :=
  let appName := extractAppName host in
  if String.eqb appName "" then
    (m, Some (Replied 400 ("could not determine app name from hostname" +:+ nl) None))
  else
    match ensureRunning describe now appName m with
    | (m1, Returns (Ok addr)) =>
        (with_vms (touchLastSeen appName now' (vms m1)) m1,
         Some (ServeHTTP_reply appName port (Ok addr)))
    | (m1, Returns (Err err)) => (m1, Some (ServeHTTP_reply appName port (Err err)))
    | (m1, Waits _ _) => (m1, None)
    end.
End replies.

(** handleAsk, lines 53-79, on the [domain] parameter of the query. *)
Definition handleAsk (describe : string → result (list sdkNode)) (now : Time)
    (domain : string) (m : vmStateManager) : vmStateManager * served :=
  if String.eqb domain "" then (m, Replied 400 ("missing domain parameter" +:+ nl) None)
  else
    match lookup describe now domain m with
    | (m1, Err _) => (m1, Replied 500 ("lookup failed" +:+ nl) None)
    | (m1, Ok info) =>
        if status info =? statusNotFound
        then (m1, Replied 404 ("404 page not found" +:+ nl) None)
        else (m1, Replied 200 ("ok" +:+ nl) None)
    end.

Definition reply_code (s : served) : Z :=
  match s with
  | Replied code _ _ => code
  | Forwarded _ => 0
  end.

(** buildHTTPClient (part_002, lines 133-152).  [home] is what
    [os.UserHomeDir] returns, empty when it fails (the error is dropped).
    The first component is the socket the client dials, [None] for the
    nil client; the second is the base URL. *)
Definition buildHTTPClient (home rawURL : string) : option string * string :=
  if HasPrefix rawURL "http://" || HasPrefix rawURL "https://" then (None, rawURL)
  else
    let sockPath :=
      if HasPrefix rawURL "~/"
      then home +:+ String.substring 1 (String.length rawURL - 1) rawURL
      else rawURL in
    (Some sockPath, "http://localhost").

(** ** lastSeen along a step *)

(** Time does not go back, the idle timeout is fixed, and the record of
    [k] keeps its lastSeen or has it set to the time of the step. *)
Definition seen_step (k : string) (s s' : sys) : Prop :=
  clock s ≤ clock s' ∧ idleTimeout s' = idleTimeout s
  ∧ ∀ info, record_of k s = Some info →
      ∃ info', record_of k s' = Some info'
        ∧ (lastSeen info' = lastSeen info ∨ lastSeen info' = clock s).

(** A request for alpha is forwarded while a tick of the watcher that has
    already listed alpha as idle is under way. *)
Definition touch_during_tick : list action :=
  [Advance 40000000000; WatchTick; Arrive "alpha" 5000000000;
   ReqStep 1; ReqStep 1; ReqStep 1;
   WatchStep; WatchPause PauseOk; WatchStep].

(** A request for alpha whose ensureRunning has returned the address. *)
Definition returned_state : sys :=
  default (init 0 0)
    (run [Advance 40000000000; Arrive "alpha" 5000000000; ReqStep 1; ReqStep 1] woken_state).

(** * Properties *)

(** ** Time *)

Lemma time_Sub_exact (t u : Time) :
  minDuration ≤ t - u ≤ maxDuration → time_Sub t u = t - u.
Proof.
  intros [Hlo Hhi]. unfold time_Sub.
  destruct (Z.ltb_spec maxDuration (t - u)); [lia|].
  destruct (Z.ltb_spec (t - u) minDuration); [lia|]. reflexivity.
Qed.

Lemma time_Sub_gt (t u : Time) (d : Duration) :
  d < maxDuration → minDuration ≤ d → (d < time_Sub t u ↔ d < t - u).
Proof.
  intros Hd Hd'. unfold time_Sub.
  destruct (Z.ltb_spec maxDuration (t - u)); [lia|].
  destruct (Z.ltb_spec (t - u) minDuration); lia.
Qed.

(** ** The critical sections, one record at a time *)

Lemma is_idle_spec now timeout info :
  is_idle now timeout info = true ↔
  status info = statusRunning ∧ timeout < time_Sub now (lastSeen info).
Proof.
  unfold is_idle. rewrite andb_true_iff, Z.eqb_eq, Z.ltb_lt. tauto.
Qed.

Lemma elem_of_idleApps timeout now (v : gmap string vmInfo) k :
  k ∈ idleApps timeout now v ↔
  ∃ info, v !! k = Some info ∧ status info = statusRunning
          ∧ timeout < time_Sub now (lastSeen info).
Proof.
  unfold idleApps. rewrite list_elem_of_fmap. split.
  - intros [[k' info] [-> Hin]]. apply elem_of_map_to_list in Hin.
    apply map_lookup_filter_Some in Hin as [Hk Hidle]. simpl in *.
    apply is_idle_spec in Hidle. eauto.
  - intros (info & Hk & Hst & Hlt). exists (k, info). split; [done|].
    apply elem_of_map_to_list, map_lookup_filter_Some. split; [done|].
    simpl. apply is_idle_spec. done.
Qed.

Lemma NoDup_idleApps timeout now (v : gmap string vmInfo) :
  NoDup (idleApps timeout now v).
Proof. unfold idleApps. apply NoDup_fst_map_to_list. Qed.

Lemma touchLastSeen_lookup k k' now (v : gmap string vmInfo) :
  touchLastSeen k now v !! k' =
  if decide (k = k') then set_lastSeen now <$> v !! k' else v !! k'.
Proof.
  unfold touchLastSeen. case_decide as Hk.
  - subst k'. destruct (v !! k) eqn:E; simpl; [by rewrite lookup_insert_eq | done].
  - destruct (v !! k); [by rewrite lookup_insert_ne | done].
Qed.

Lemma markPaused_lookup k k' (v : gmap string vmInfo) :
  markPaused k v !! k' =
  if decide (k = k') then set_status statusPaused <$> v !! k' else v !! k'.
Proof.
  unfold markPaused. case_decide as Hk.
  - subst k'. destruct (v !! k) eqn:E; simpl; [by rewrite lookup_insert_eq | done].
  - destruct (v !! k); [by rewrite lookup_insert_ne | done].
Qed.

Lemma lookup_store_lookup k k' nodes now (v : gmap string vmInfo) :
  (lookup_store k nodes now v).1 !! k' =
  if decide (k = k') then Some (default (newInfo nodes now) (v !! k')) else v !! k'.
Proof.
  unfold lookup_store. case_decide as Hk.
  - subst k'. destruct (v !! k) eqn:E; simpl; [done | by rewrite lookup_insert_eq].
  - destruct (v !! k); simpl; [done | by rewrite lookup_insert_ne].
Qed.

Lemma lookup_store_result k nodes now (v : gmap string vmInfo) :
  (lookup_store k nodes now v).1 !! k = Some (lookup_store k nodes now v).2.
Proof.
  unfold lookup_store. destruct (v !! k) eqn:E; simpl; [done | by rewrite lookup_insert_eq].
Qed.

Lemma newInfo_status nodes now :
  status (newInfo nodes now) ∈ [statusUnknown; statusRunning; statusPaused; statusNotFound].
Proof.
  destruct nodes as [|n ?]; simpl; [set_solver|].
  destruct (String.eqb _ _); [set_solver|]. destruct (String.eqb _ _); set_solver.
Qed.

(** initiateWake's critical section, by the status it finds. *)
Lemma initiateWake_locked_spec k (v : gmap string vmInfo) ch info :
  v !! k = Some info →
  initiateWake_locked k v ch =
    if status info =? statusWaking then Some (v, ch, JoinWake)
    else if status info =? statusRunning then Some (v, ch, AlreadyRunning (ip info))
    else Some (<[k := set_wakeErr None (set_wakeCh (Some (List.length ch))
                                          (set_status statusWaking info))]> v,
               ch ++ [false], StartWake (hostname info)).
Proof. intros Hk. unfold initiateWake_locked. rewrite Hk. done. Qed.

(** finishWake on a record whose channel is open. *)
Lemma finishWake_open k err (v : gmap string vmInfo) ch info c :
  v !! k = Some info → wakeCh info = Some c → ch !! c = Some false →
  finishWake k err v ch =
    Some (<[k := set_status (match err with None => statusRunning | Some _ => statusPaused end)
                   (set_wakeErr err info)]> v,
          <[c := true]> ch).
Proof.
  intros Hk Hc Hopen. unfold finishWake. rewrite Hk.
  destruct err; simpl; rewrite Hc; simpl; unfold close_chan; rewrite Hopen; done.
Qed.

(** ** Preservation of the invariants by the critical sections *)

Lemma rec_inv_allocated v ch k info c :
  rec_inv v ch → v !! k = Some info → wakeCh info = Some c → is_Some (ch !! c).
Proof.
  intros H Hk Hc. destruct (decide (status info = statusWaking)) as [Hw|Hw].
  - destruct (ri_waking _ _ H _ _ Hk Hw) as (c' & Hc' & Hopen). naive_solver.
  - rewrite (ri_settled _ _ H _ _ _ Hk Hw Hc). eauto.
Qed.

Lemma req_ok_evolves v ch v' ch' r :
  evolves v ch v' ch' → req_ok v ch r → req_ok v' ch' r.
Proof.
  intros [Hkeep Hclosed]. unfold req_ok. destruct (rpc r); try done.
  - intros [info Hk]. destruct (Hkeep _ _ Hk) as (info' & -> & _). eauto.
  - intros (info & Hk & Hst). destruct (Hkeep _ _ Hk) as (info' & ? & Hnf & _).
    exists info'. split; [done|]. by rewrite <- Hnf.
  - intros [info Hk]. destruct (Hkeep _ _ Hk) as (info' & -> & _). eauto.
  - intros (info & Hk & Hc). destruct (Hkeep _ _ Hk) as (info' & Hk' & _ & Hch).
    exists info'. split; [done|]. intros c' ->.
    destruct (Hc c' eq_refl) as [?|?]; [left; auto | auto].
Qed.

(** *** lookup's second critical section *)

Section store.
Context (k : string) (nodes : list sdkNode) (now : Time).
Context (v : gmap string vmInfo) (ch : list bool).
Let v' := (lookup_store k nodes now v).1.

Lemma lookup_store_old k' info : v !! k' = Some info → v' !! k' = Some info.
Proof.
  intros Hk. unfold v'. rewrite lookup_store_lookup. case_decide; [|done].
  subst. by rewrite Hk.
Qed.

Lemma lookup_store_inv k' info' :
  v' !! k' = Some info' →
  v !! k' = Some info' ∨ (k' = k ∧ v !! k = None ∧ info' = newInfo nodes now).
Proof.
  unfold v'. rewrite lookup_store_lookup. case_decide as Hk; [|auto].
  subst k'. destruct (v !! k) eqn:E; simpl; intros [= <-]; auto.
Qed.

Lemma newInfo_not_waking : status (newInfo nodes now) ≠ statusWaking.
Proof.
  pose proof (newInfo_status nodes now) as H.
  rewrite !elem_of_cons, elem_of_nil in H. unfold statusWaking.
  unfold statusUnknown, statusRunning, statusPaused, statusNotFound in H. lia.
Qed.

Lemma newInfo_wakeCh : wakeCh (newInfo nodes now) = None.
Proof. by destruct nodes. Qed.

Lemma lookup_store_rec_inv : rec_inv v ch → rec_inv v' ch.
Proof.
  intros [H1 H2 H3 H4]. split.
  - intros k' i [?|(-> & _ & ->)]%lookup_store_inv; [eauto|].
    pose proof (newInfo_status nodes now) as H.
    rewrite !elem_of_cons, elem_of_nil in H.
    unfold statusUnknown, statusRunning, statusPaused, statusNotFound in H. lia.
  - intros k' i [?|(-> & _ & ->)]%lookup_store_inv; [eauto|].
    intros ?. by destruct newInfo_not_waking.
  - intros k' i c [?|(-> & _ & ->)]%lookup_store_inv; [eauto|].
    by rewrite newInfo_wakeCh.
  - intros k1 k2 i1 i2 c [?|(-> & _ & ->)]%lookup_store_inv
      [?|(-> & _ & ->)]%lookup_store_inv; rewrite ?newInfo_wakeCh; try done. eauto.
Qed.

Lemma lookup_store_evolves : evolves v ch v' ch.
Proof.
  split; [|done]. intros k' i Hk. exists i. split; [by apply lookup_store_old|]. eauto.
Qed.

Lemma lookup_store_wake_inv ws : wake_inv v ws → wake_inv v' ws.
Proof.
  intros [H1 H2 H3]. split; [| done |].
  - intros i w Hi Hw. destruct (H1 _ _ Hi Hw) as (info & Hk & Hst).
    exists info. split; [by apply lookup_store_old | done].
  - intros k' i [?|(-> & _ & ->)]%lookup_store_inv; [eauto|].
    intros ?. by destruct newInfo_not_waking.
Qed.

Lemma lookup_store_watch_inv p : watch_inv v p → watch_inv v' p.
Proof.
  intros [H1 H2]. split; [done|]. intros k' Hk'.
  destruct (H2 _ Hk') as (info & Hk & Hst). exists info.
  split; [by apply lookup_store_old | done].
Qed.
End store.

(** *** touchLastSeen *)

Section touch.
Context (k : string) (now : Time).
Context (v : gmap string vmInfo) (ch : list bool).
Let v' := touchLastSeen k now v.

Lemma touch_old k' info :
  v !! k' = Some info →
  ∃ info', v' !! k' = Some info' ∧ status info' = status info
           ∧ wakeCh info' = wakeCh info.
Proof.
  intros Hk. unfold v'. rewrite touchLastSeen_lookup, Hk.
  case_decide; simpl; eauto.
Qed.

Lemma touch_inv k' info' :
  v' !! k' = Some info' →
  ∃ info, v !! k' = Some info ∧ status info' = status info
          ∧ wakeCh info' = wakeCh info.
Proof.
  unfold v'. rewrite touchLastSeen_lookup. case_decide; [|eauto].
  destruct (v !! k') as [i|]; simpl; [|done]. intros [= <-]. eauto.
Qed.

Lemma touch_rec_inv : rec_inv v ch → rec_inv v' ch.
Proof.
  intros [H1 H2 H3 H4]. split.
  - intros k' i (i0 & Hk & -> & _)%touch_inv. eauto.
  - intros k' i (i0 & Hk & -> & ->)%touch_inv. eauto.
  - intros k' i c (i0 & Hk & -> & ->)%touch_inv. eauto.
  - intros k1 k2 i1 i2 c (j1 & Hk1 & _ & ->)%touch_inv
      (j2 & Hk2 & _ & ->)%touch_inv. eauto.
Qed.

Lemma touch_evolves : evolves v ch v' ch.
Proof.
  split; [|done]. intros k' i Hk.
  destruct (touch_old _ _ Hk) as (i' & Hk' & Hst & Hc). exists i'.
  rewrite Hst, Hc. eauto.
Qed.

Lemma touch_wake_inv ws : wake_inv v ws → wake_inv v' ws.
Proof.
  intros [H1 H2 H3]. split; [| done |].
  - intros i w Hi Hw. destruct (H1 _ _ Hi Hw) as (info & Hk & Hst).
    destruct (touch_old _ _ Hk) as (i' & Hk' & Hst' & _). exists i'.
    split; [done | congruence].
  - intros k' i (i0 & Hk & -> & _)%touch_inv. eauto.
Qed.

Lemma touch_watch_inv p : watch_inv v p → watch_inv v' p.
Proof.
  intros [H1 H2]. split; [done|]. intros k' Hk'.
  destruct (H2 _ Hk') as (info & Hk & Hst).
  destruct (touch_old _ _ Hk) as (i' & ? & ? & _). exists i'.
  split; [done | congruence].
Qed.
End touch.

(** *** markPaused on a Running record *)

Section mark.
Context (k : string) (v : gmap string vmInfo) (ch : list bool) (info : vmInfo).
Context (Hk : v !! k = Some info) (Hrun : status info = statusRunning).
Let v' := markPaused k v.

Lemma mark_same : v' !! k = Some (set_status statusPaused info).
Proof. unfold v'. rewrite markPaused_lookup, Hk. by rewrite decide_True. Qed.

Lemma mark_other k' : k' ≠ k → v' !! k' = v !! k'.
Proof. intros ?. unfold v'. rewrite markPaused_lookup. by rewrite decide_False. Qed.

Lemma mark_inv k' i' :
  v' !! k' = Some i' →
  (k' = k ∧ i' = set_status statusPaused info) ∨ (k' ≠ k ∧ v !! k' = Some i').
Proof.
  destruct (decide (k' = k)) as [->|Hne].
  - rewrite mark_same. intros [= <-]. auto.
  - rewrite mark_other by done. auto.
Qed.

Lemma mark_rec_inv : rec_inv v ch → rec_inv v' ch.
Proof.
  intros [H1 H2 H3 H4]. split.
  - intros k' i [(-> & ->)|(? & ?)]%mark_inv; [simpl; unfold statusPaused; lia | eauto].
  - intros k' i [(-> & ->)|(? & ?)]%mark_inv; [done | eauto].
  - intros k' i c [(-> & ->)|(? & ?)]%mark_inv; [|eauto].
    simpl. intros _ Hc. eapply H3; [done | | done]. rewrite Hrun. done.
  - intros k1 k2 i1 i2 c [(-> & ->)|(? & ?)]%mark_inv
      [(-> & ->)|(? & ?)]%mark_inv; simpl; eauto.
Qed.

Lemma mark_evolves : evolves v ch v' ch.
Proof.
  split; [|done]. intros k' i Hk'. destruct (decide (k' = k)) as [->|Hne].
  - exists (set_status statusPaused info). rewrite mark_same.
    rewrite Hk in Hk'. injection Hk' as <-.
    split; [done|]. simpl. split; [by rewrite Hrun|]. auto.
  - exists i. rewrite mark_other by done. eauto.
Qed.

Lemma mark_wake_inv ws : wake_inv v ws → wake_inv v' ws.
Proof.
  intros [H1 H2 H3]. split; [| done |].
  - intros i w Hi Hw. destruct (H1 _ _ Hi Hw) as (i0 & Hk0 & Hst).
    exists i0. split; [|done]. rewrite mark_other; [done|].
    intros Heq. rewrite Heq, Hk in Hk0. injection Hk0 as <-.
    rewrite Hrun in Hst. done.
  - intros k' i [(-> & ->)|(? & ?)]%mark_inv; [done | eauto].
Qed.

Lemma mark_watch_inv rest :
  watch_inv v (AtMark k rest) → watch_inv v' (AtHostname rest).
Proof.
  intros [Hnd Hkeys]. simpl in *. apply NoDup_cons in Hnd as [Hnotin Hnd].
  split; [done|]. intros k' Hin.
  destruct (Hkeys k') as (i & Hi & Hst); [set_solver|].
  exists i. split; [|done]. rewrite mark_other; [done|]. by intros ->.
Qed.
End mark.

(** *** initiateWake's critical section when it starts a wake *)

Section initiate.
Context (k : string) (v : gmap string vmInfo) (ch : list bool) (info : vmInfo).
Context (Hk : v !! k = Some info).
Context (Hnw : status info ≠ statusWaking) (Hnr : status info ≠ statusRunning).
Context (Hnf : status info ≠ statusNotFound).
Let info' := set_wakeErr None (set_wakeCh (Some (List.length ch))
                                 (set_status statusWaking info)).
Let v' := <[k := info']> v.
Let ch' := ch ++ [false].

Lemma initiate_starts :
  initiateWake_locked k v ch = Some (v', ch', StartWake (hostname info)).
Proof.
  rewrite (initiateWake_locked_spec _ _ _ _ Hk).
  destruct (Z.eqb_spec (status info) statusWaking); [done|].
  destruct (Z.eqb_spec (status info) statusRunning); done.
Qed.

Lemma initiate_inv k' i' :
  v' !! k' = Some i' → (k' = k ∧ i' = info') ∨ (k' ≠ k ∧ v !! k' = Some i').
Proof. unfold v'. rewrite lookup_insert_Some. naive_solver. Qed.

Lemma initiate_old_chan c b : ch !! c = Some b → ch' !! c = Some b.
Proof.
  intros Hc. unfold ch'. rewrite lookup_app_l; [done|].
  by apply lookup_lt_Some in Hc.
Qed.

Lemma initiate_new_chan : ch' !! List.length ch = Some false.
Proof. unfold ch'. by apply list_lookup_middle. Qed.

Lemma initiate_rec_inv : rec_inv v ch → rec_inv v' ch'.
Proof.
  intros Hinv. destruct Hinv as [H1 H2 H3 H4] eqn:E. clear E. split.
  - intros k' i [(-> & ->)|(? & ?)]%initiate_inv; [simpl; unfold statusWaking; lia | eauto].
  - intros k' i [(-> & ->)|(? & ?)]%initiate_inv.
    + intros _. exists (List.length ch). split; [done | apply initiate_new_chan].
    + intros Hw. destruct (H2 _ _ H0 Hw) as (c & ? & ?).
      exists c. eauto using initiate_old_chan.
  - intros k' i c [(-> & ->)|(? & ?)]%initiate_inv; [done|].
    eauto using initiate_old_chan.
  - assert (Hfresh : ∀ k0 i0, v !! k0 = Some i0 → wakeCh i0 ≠ Some (List.length ch)).
    { intros k0 i0 Hk0 Hc.
      pose proof (rec_inv_allocated _ _ _ _ _ (mkRecInv _ _ H1 H2 H3 H4) Hk0 Hc) as Hs.
      apply lookup_lt_is_Some in Hs. lia. }
    intros k1 k2 i1 i2 c [(-> & ->)|(? & ?)]%initiate_inv
      [(-> & ->)|(? & ?)]%initiate_inv; simpl; try done.
    + intros [= <-] Hc. by destruct (Hfresh _ _ H0).
    + intros Hc [= <-]. by destruct (Hfresh _ _ H0).
    + eauto.
Qed.

Lemma initiate_evolves : rec_inv v ch → evolves v ch v' ch'.
Proof.
  intros [H1 H2 H3 H4]. split.
  - intros k' i Hk'. destruct (decide (k' = k)) as [->|Hne].
    + exists info'. unfold v'. rewrite lookup_insert_eq. split; [done|].
      rewrite Hk in Hk'. injection Hk' as <-. split; [done|].
      intros c Hc. left. eauto using initiate_old_chan.
    + exists i. unfold v'. rewrite lookup_insert_ne by done. eauto.
  - intros c. apply initiate_old_chan.
Qed.

Lemma initiate_wake_inv ws host :
  wake_inv v ws → wake_inv v' (ws ++ [mkWake k host WakeCall]).
Proof.
  intros [H1 H2 H3].
  assert (Hold : ∀ i w, ws !! i = Some w → in_flight w → wkey w ≠ k).
  { intros i w Hi Hw Heq. destruct (H1 _ _ Hi Hw) as (i0 & Hk0 & Hst).
    rewrite Heq, Hk in Hk0. by injection Hk0 as <-. }
  split.
  - intros i w [[? Hi]|[-> <-]]%lookup_snoc_Some Hw.
    + destruct (H1 _ _ Hi Hw) as (i0 & Hk0 & Hst). exists i0.
      split; [|done]. unfold v'. rewrite lookup_insert_ne; [done|].
      intros Heq. by destruct (Hold _ _ Hi Hw).
    + exists info'. simpl. unfold v'. by rewrite lookup_insert_eq.
  - intros i j w1 w2 [[? Hi]|[-> <-]]%lookup_snoc_Some
      [[? Hj]|[-> <-]]%lookup_snoc_Some Hw1 Hw2 Heq; simpl in *.
    + eauto.
    + by destruct (Hold _ _ Hi Hw1).
    + by destruct (Hold _ _ Hj Hw2).
    + done.
  - intros k' i [(-> & ->)|(? & Hk')]%initiate_inv Hst.
    + exists (List.length ws), (mkWake k host WakeCall).
      split; [by apply list_lookup_middle | done].
    + destruct (H3 _ _ Hk' Hst) as (j & w & Hj & ? & ?). exists j, w.
      split; [|done]. rewrite lookup_app_l; [done|]. by apply lookup_lt_Some in Hj.
Qed.

Lemma initiate_watch_inv p : watch_inv v p → watch_inv v' p.
Proof.
  intros [Hnd Hkeys]. split; [done|]. intros k' Hin.
  destruct (Hkeys _ Hin) as (i & Hi & Hst). exists i. split; [|done].
  unfold v'. rewrite lookup_insert_ne; [done|]. intros <-.
  rewrite Hk in Hi. by injection Hi as <-.
Qed.
End initiate.

(** *** finishWake on a record in Waking *)

Section finish.
Context (k : string) (err : option error).
Context (v : gmap string vmInfo) (ch : list bool) (info : vmInfo) (c : chanId).
Context (Hinv : rec_inv v ch).
Context (Hk : v !! k = Some info) (Hw : status info = statusWaking).
Context (Hc : wakeCh info = Some c).
Let info' := set_status (match err with None => statusRunning | Some _ => statusPaused end)
               (set_wakeErr err info).
Let v' := <[k := info']> v.
Let ch' := <[c := true]> ch.

Lemma finish_open : ch !! c = Some false.
Proof.
  destruct (ri_waking _ _ Hinv _ _ Hk Hw) as (c' & Hc' & Hopen). congruence.
Qed.

Lemma finish_returns : finishWake k err v ch = Some (v', ch').
Proof. apply finishWake_open; [done | done | apply finish_open]. Qed.

Lemma finish_status : status info' ≠ statusWaking ∧ status info' ≠ statusNotFound
                      ∧ 0 ≤ status info' ≤ 4.
Proof.
  unfold info', statusWaking, statusNotFound, statusRunning, statusPaused.
  destruct err; simpl; lia.
Qed.

Lemma finish_wakeCh : wakeCh info' = Some c.
Proof. unfold info'. by destruct err. Qed.

Lemma finish_inv k' i' :
  v' !! k' = Some i' → (k' = k ∧ i' = info') ∨ (k' ≠ k ∧ v !! k' = Some i').
Proof. unfold v'. rewrite lookup_insert_Some. naive_solver. Qed.

Lemma finish_closed : ch' !! c = Some true.
Proof.
  unfold ch'. apply list_lookup_insert_eq.
  eapply lookup_lt_Some, finish_open.
Qed.

Lemma finish_other_chan c' : c' ≠ c → ch' !! c' = ch !! c'.
Proof. intros ?. unfold ch'. by rewrite list_lookup_insert_ne. Qed.

Lemma finish_stays_closed c' : ch !! c' = Some true → ch' !! c' = Some true.
Proof.
  intros ?. destruct (decide (c' = c)) as [->|?];
    [apply finish_closed | by rewrite finish_other_chan].
Qed.

Lemma finish_rec_inv : rec_inv v' ch'.
Proof.
  pose proof finish_status as (Hs1 & Hs2 & Hs3).
  split.
  - intros k' i [(-> & ->)|(? & ?)]%finish_inv; [done|].
    eapply ri_status; eauto.
  - intros k' i [(-> & ->)|(Hne & Hk')]%finish_inv; [done|].
    intros Hst. destruct (ri_waking _ _ Hinv _ _ Hk' Hst) as (c' & Hc' & Hopen).
    exists c'. split; [done|]. rewrite finish_other_chan; [done|].
    intros ->. destruct Hne. eapply ri_inj; eauto.
  - intros k' i c' [(-> & ->)|(Hne & Hk')]%finish_inv.
    + rewrite finish_wakeCh. intros _ [= <-]. apply finish_closed.
    + intros. apply finish_stays_closed. eapply ri_settled; eauto.
  - intros k1 k2 i1 i2 c' [(-> & ->)|(? & Hk1)]%finish_inv
      [(-> & ->)|(? & Hk2)]%finish_inv; rewrite ?finish_wakeCh; try done.
    + intros [= <-] ?. eapply ri_inj; eauto.
    + intros ? [= <-]. eapply ri_inj; eauto.
    + eapply ri_inj; eauto.
Qed.

Lemma finish_evolves : evolves v ch v' ch'.
Proof.
  pose proof finish_status as (Hs1 & Hs2 & Hs3).
  split; [|apply finish_stays_closed].
  intros k' i Hk'. destruct (decide (k' = k)) as [->|Hne].
  - exists info'. unfold v'. rewrite lookup_insert_eq. split; [done|].
    rewrite Hk in Hk'. injection Hk' as <-. split; [by rewrite Hw|].
    intros c0 Hc0. right. rewrite finish_wakeCh. congruence.
  - exists i. unfold v'. rewrite lookup_insert_ne by done. eauto.
Qed.

Lemma finish_wake_inv ws i w :
  ws !! i = Some w → in_flight w → wkey w = k →
  wake_inv v ws → wake_inv v' (<[i := mkWake (wkey w) (whost w) WakeDone]> ws).
Proof.
  pose proof finish_status as (Hs1 & Hs2 & Hs3).
  intros Hi Hfl Hkey [H1 H2 H3]. split.
  - intros j w' [(-> & <- & _)|(Hne & Hj)]%list_lookup_insert_Some Hw';
      [by destruct Hw'|].
    destruct (H1 _ _ Hj Hw') as (i0 & Hk0 & Hst). exists i0.
    split; [|done]. unfold v'. rewrite lookup_insert_ne; [done|].
    intros Heq. destruct Hne. eapply H2; eauto. congruence.
  - intros j1 j2 w1 w2 [(-> & <- & _)|(? & Hj1)]%list_lookup_insert_Some
      [(-> & <- & _)|(? & Hj2)]%list_lookup_insert_Some Hw1 Hw2;
      try (by destruct Hw1); try (by destruct Hw2). eauto.
  - intros k' i0 [(-> & ->)|(Hne & Hk')]%finish_inv Hst; [done|].
    destruct (H3 _ _ Hk' Hst) as (j & w' & Hj & Hw' & Hkey').
    exists j, w'. split; [|done]. rewrite list_lookup_insert_ne; [done|].
    intros ->. rewrite Hi in Hj. injection Hj as <-. congruence.
Qed.

Lemma finish_watch_inv p : watch_inv v p → watch_inv v' p.
Proof.
  intros [Hnd Hkeys]. split; [done|]. intros k' Hin.
  destruct (Hkeys _ Hin) as (i & Hi & Hst). exists i. split; [|done].
  unfold v'. rewrite lookup_insert_ne; [done|]. intros <-.
  rewrite Hk in Hi. injection Hi as <-. rewrite Hw in Hst. done.
Qed.
End finish.

(** ** The invariants hold in every reachable state *)

Lemma switch_status_DWake st : switch_status st = DWake → st ≠ statusNotFound.
Proof.
  unfold switch_status. intros H ->. by rewrite Z.eqb_refl in H.
Qed.

Lemma switch_status_handled st : 0 ≤ st ≤ 4 → switch_status st ≠ DUnexpected.
Proof.
  intros Hst. unfold switch_status, statusNotFound, statusRunning, statusWaking,
    statusPaused, statusUnknown.
  destruct (Z.eqb_spec st 4); [done|]. destruct (Z.eqb_spec st 1); [done|].
  destruct (Z.eqb_spec st 3); [done|]. destruct (Z.eqb_spec st 2); [done|].
  destruct (Z.eqb_spec st 0); [done|]. lia.
Qed.

Lemma reqs_evolves v ch v' ch' (rs : list request) :
  evolves v ch v' ch' →
  (∀ t r, rs !! t = Some r → req_ok v ch r) →
  ∀ t r, rs !! t = Some r → req_ok v' ch' r.
Proof. intros Hev H t r Ht. eapply req_ok_evolves; eauto. Qed.

Lemma reqs_goto v ch (rs : list request) t r pc :
  (∀ t r, rs !! t = Some r → req_ok v ch r) →
  req_ok v ch (mkReq (rkey r) (rtimeout r) pc) →
  ∀ t' r', <[t := mkReq (rkey r) (rtimeout r) pc]> rs !! t' = Some r' → req_ok v ch r'.
Proof.
  intros H Hnew t' r' [(-> & <- & _)|(_ & Ht')]%list_lookup_insert_Some; eauto.
Qed.

Lemma coherent_init timeout now : coherent (init timeout now).
Proof.
  split; simpl.
  - split; intros *; by rewrite lookup_empty.
  - split; intros *; by rewrite ?lookup_empty, ?lookup_nil.
  - split; [constructor | intros k Hk; by apply elem_of_nil in Hk].
  - intros t r. by rewrite lookup_nil.
Qed.

(** A step that only moves request [t]. *)
Lemma coherent_goto s t r pc :
  coherent s →
  req_ok (vms (mgr s)) (chans (mgr s)) (mkReq (rkey r) (rtimeout r) pc) →
  coherent (goto t r pc s).
Proof.
  intros [H1 H2 H3 H4] Hnew. split; simpl; try done.
  by apply reqs_goto.
Qed.

(** A step that only adds to the log of calls. *)
Lemma coherent_record_call s c :
  coherent s → coherent (with_mgr (record_call c (mgr s)) s).
Proof. intros [H1 H2 H3 H4]. split; done. Qed.

Lemma req_step_coherent s t r s' :
  coherent s → reqs s !! t = Some r → req_step t r s = Some s' → coherent s'.
Proof.
  intros Hcoh Ht. pose proof Hcoh as [H1 H2 H3 H4].
  pose proof (H4 _ _ Ht) as Hr. unfold req_step. unfold req_ok in Hr.
  destruct (rpc r) as [| |nodes| | | |[c|]|[addr|e]|] eqn:Hpc; try done.
  - (* AtLookup *)
    destruct (vms (mgr s) !! rkey r) eqn:Hk; intros [= <-];
      apply coherent_goto; try done. unfold req_ok; simpl. rewrite Hk. by eexists.
  - (* AtStore *)
    destruct (lookup_store (rkey r) nodes (clock s) (vms (mgr s))) as [v i] eqn:E.
    intros [= <-].
    assert (Hv : v = (lookup_store (rkey r) nodes (clock s) (vms (mgr s))).1)
      by (by rewrite E).
    pose proof (lookup_store_evolves (rkey r) nodes (clock s) (vms (mgr s))
                  (chans (mgr s))) as Hev.
    rewrite <- Hv in Hev. split; simpl.
    + rewrite Hv. by apply lookup_store_rec_inv.
    + rewrite Hv. by apply lookup_store_wake_inv.
    + rewrite Hv. by apply lookup_store_watch_inv.
    + apply reqs_goto; [by eapply reqs_evolves|].
      unfold req_ok; simpl. rewrite Hv, lookup_store_result. by eexists.
  - (* AtSwitch *)
    destruct Hr as [info Hk]. rewrite Hk. simpl. intros [= <-].
    apply coherent_goto; [done|]. unfold req_ok; simpl.
    pose proof (switch_status_handled _ (ri_status _ _ H1 _ _ Hk)) as Hhandled.
    destruct (switch_status (status info)) eqn:Hsw; try done.
    exists info. split; [done|]. by apply switch_status_DWake.
  - (* AtInitiate *)
    destruct Hr as (info & Hk & Hnf).
    rewrite (initiateWake_locked_spec _ _ _ _ Hk).
    destruct (Z.eqb_spec (status info) statusWaking) as [Hw|Hw]; simpl.
    { intros [= <-]. apply coherent_goto; [done|].
      unfold req_ok; simpl. rewrite Hk. by eexists. }
    destruct (Z.eqb_spec (status info) statusRunning) as [Hrun|Hrun]; simpl.
    { intros [= <-]. by apply coherent_goto. }
    intros [= <-].
    assert (Hev : evolves (vms (mgr s)) (chans (mgr s))
              (<[rkey r := set_wakeErr None (set_wakeCh (Some (List.length (chans (mgr s))))
                                               (set_status statusWaking info))]> (vms (mgr s)))
              (chans (mgr s) ++ [false]))
      by (by apply initiate_evolves).
    split; simpl.
    + by apply initiate_rec_inv.
    + by apply initiate_wake_inv.
    + by eapply initiate_watch_inv.
    + apply reqs_goto; [by eapply reqs_evolves|].
      unfold req_ok; simpl. rewrite lookup_insert_eq. by eexists.
  - (* AtSelect *)
    destruct Hr as [info Hk]. rewrite Hk. simpl. intros [= <-].
    apply coherent_goto; [done|]. unfold req_ok; simpl.
    exists info. split; [done|]. intros c' ->. by right.
  - (* Blocked *)
    destruct (is_closed (chans (mgr s)) c); [|done].
    destruct Hr as (info & Hk & _). rewrite Hk. simpl. intros [= <-].
    apply coherent_goto; [done|]. unfold req_ok, wake_result; simpl.
    by destruct (wakeErr info).
  - (* Returned Ok: touchLastSeen *)
    intros [= <-].
    pose proof (touch_evolves (rkey r) (clock s) (vms (mgr s)) (chans (mgr s))) as Hev.
    split; simpl.
    + by apply touch_rec_inv.
    + by apply touch_wake_inv.
    + by apply touch_watch_inv.
    + apply reqs_goto; [by eapply reqs_evolves | done].
  - (* Returned Err *)
    intros [= <-]. by apply coherent_goto.
Qed.

Lemma wake_inv_advance v (ws : list wake) i w pc :
  ws !! i = Some w → in_flight w → pc ≠ WakeDone →
  wake_inv v ws → wake_inv v (<[i := mkWake (wkey w) (whost w) pc]> ws).
Proof.
  intros Hi Hfl Hpc [H1 H2 H3]. split.
  - intros j w' [(-> & <- & _)|(? & Hj)]%list_lookup_insert_Some Hw'; simpl; eauto.
  - intros j1 j2 w1 w2 [(-> & <- & _)|(? & Hj1)]%list_lookup_insert_Some
      [(-> & <- & _)|(? & Hj2)]%list_lookup_insert_Some Hw1 Hw2; simpl; eauto.
  - intros k info Hk Hst. destruct (H3 _ _ Hk Hst) as (j & w' & Hj & Hw' & Hkey).
    destruct (decide (j = i)) as [->|Hne].
    + rewrite Hi in Hj. injection Hj as <-.
      exists i, (mkWake (wkey w) (whost w) pc). split; [|done].
      apply list_lookup_insert_eq. by eapply lookup_lt_Some.
    + exists j, w'. split; [|done]. by rewrite list_lookup_insert_ne.
Qed.

Lemma watch_inv_sub v p p' :
  watch_keys p' `sublist_of` watch_keys p → watch_inv v p → watch_inv v p'.
Proof.
  intros Hsub [Hnd Hkeys]. split.
  - eapply sublist_NoDup; eauto.
  - intros k Hk. apply Hkeys. eapply elem_of_sublist; eauto.
Qed.

(** Every step of the process keeps the invariants. *)
Lemma step_coherent a s s' : coherent s → step a s = Some s' → coherent s'.
Proof.
  intros Hcoh. pose proof Hcoh as [H1 H2 H3 H4].
  destruct a as [k to|t|t resp|t|t msg|w resp|w| | |resp| |dt]; simpl.
  - (* Arrive *)
    intros [= <-]. split; simpl; try done.
    intros t r [[_ Ht]|[_ <-]]%lookup_snoc_Some; [eauto | done].
  - (* ReqStep *)
    destruct (reqs s !! t) as [r|] eqn:Ht; simpl; [|done].
    by eapply req_step_coherent.
  - (* ReqDescribe *)
    destruct (reqs s !! t) as [r|] eqn:Ht; simpl; [|done].
    destruct (rpc r); try done.
    destruct resp; intros [= <-];
      by apply coherent_goto; [apply coherent_record_call|].
  - (* ReqTimeout *)
    destruct (reqs s !! t) as [r|] eqn:Ht; simpl; [|done].
    destruct (rpc r); try done. intros [= <-]. by apply coherent_goto.
  - (* ReqCancel *)
    destruct (reqs s !! t) as [r|] eqn:Ht; simpl; [|done].
    destruct (rpc r); try done. intros [= <-]. by apply coherent_goto.
  - (* WakeResume *)
    destruct (wakes s !! w) as [k|] eqn:Hw; simpl; [|done].
    destruct (wpc k) eqn:Hpc; try done. intros [= <-]. split; simpl; try done.
    apply wake_inv_advance; try done. unfold in_flight. by rewrite Hpc.
  - (* WakeFinish *)
    destruct (wakes s !! w) as [k|] eqn:Hw; simpl; [|done].
    destruct (wpc k) as [|err|] eqn:Hpc; try done.
    assert (Hfl : in_flight k) by (unfold in_flight; by rewrite Hpc).
    destruct (wi_waking _ _ H2 _ _ Hw Hfl) as (info & Hk & Hst).
    destruct (ri_waking _ _ H1 _ _ Hk Hst) as (c & Hc & Hopen).
    rewrite (finish_returns _ err _ _ _ _ H1 Hk Hst Hc). simpl. intros [= <-].
    split; simpl.
    + by eapply finish_rec_inv.
    + by eapply finish_wake_inv.
    + by eapply finish_watch_inv.
    + eapply reqs_evolves; [|done]. by eapply finish_evolves.
  - (* WatchTick *)
    destruct (watcher s); try done. intros [= <-]. split; simpl; try done.
    split; simpl; [apply NoDup_idleApps|].
    intros k (info & ? & ? & _)%elem_of_idleApps. eauto.
  - (* WatchStep *)
    destruct (watcher s) as [|[|a rest]|a h rest|a rest|] eqn:Hp; try done.
    + intros [= <-]. by split.
    + destruct (String.eqb _ _); intros [= <-]; split; simpl; try done.
      eapply watch_inv_sub; [|done]. simpl. by apply sublist_cons.
    + intros [= <-].
      destruct H3 as [Hnd Hkeys]. destruct (Hkeys a) as (info & Hk & Hrun);
        [simpl; set_solver|].
      split; simpl.
      * by eapply mark_rec_inv.
      * by eapply mark_wake_inv.
      * by eapply mark_watch_inv.
      * eapply reqs_evolves; [|done]. by eapply mark_evolves.
  - (* WatchPause *)
    destruct (watcher s) as [| |a h rest| |] eqn:Hp; try done.
    destruct resp; intros [= <-]; split; simpl; try done.
    + eapply watch_inv_sub; [|done]. simpl. by apply sublist_cons.
    + eapply watch_inv_sub; [|done]. simpl. apply sublist_nil_l.
  - (* WatchStop *)
    destruct (watcher s); try done. intros [= <-]. by split.
  - (* Advance *)
    destruct (0 <=? dt); [|done]. intros [= <-]. by split.
Qed.

Lemma run_coherent tr s s' : coherent s → run tr s = Some s' → coherent s'.
Proof.
  revert s. induction tr as [|a tr IH]; simpl; intros s Hcoh.
  - by intros [= <-].
  - destruct (step a s) as [s1|] eqn:Hstep; simpl; [|done].
    eauto using step_coherent.
Qed.

Lemma reachable_coherent s : reachable s → coherent s.
Proof. intros (to & now & tr & Hrun). eauto using run_coherent, coherent_init. Qed.

Lemma run_app tr1 tr2 s :
  run (tr1 ++ tr2) s = s1 ← run tr1 s; run tr2 s1.
Proof.
  revert s. induction tr1 as [|a tr1 IH]; simpl; intros s; [done|].
  destruct (step a s); simpl; eauto.
Qed.

Lemma reachable_run tr s s' : reachable s → run tr s = Some s' → reachable s'.
Proof.
  intros (to & now & tr0 & Hrun) Htr. exists to, now, (tr0 ++ tr).
  rewrite run_app, Hrun. done.
Qed.

(** ** Every step follows the state machine *)

Lemma record_step_same k s s' :
  vms (mgr s') = vms (mgr s) → wake_keys s' = wake_keys s → record_step k s s'.
Proof.
  intros Hv Hw info Hk. exists info, 0%nat. unfold record_of, resumes_started in *.
  rewrite Hv, Hw. split; [done|]. split; [done|]. split; [done|].
  split; [by constructor | split; [lia | done]].
Qed.

Lemma wake_keys_insert (ws : list wake) i w pc :
  ws !! i = Some w →
  wkey <$> <[i := mkWake (wkey w) (whost w) pc]> ws = wkey <$> ws.
Proof.
  intros Hi. rewrite list_fmap_insert. simpl. apply list_insert_id.
  by rewrite list_lookup_fmap, Hi.
Qed.

Lemma resumes_started_snoc k k0 (ks : list string) :
  List.length (filter (λ k', k' = k) (ks ++ [k0])) =
  (List.length (filter (λ k', k' = k) ks) + if decide (k0 = k) then 1 else 0)%nat.
Proof.
  rewrite filter_app, length_app. f_equal.
  rewrite filter_cons, filter_nil. by case_decide.
Qed.

Lemma record_step_touch k k0 now s s' :
  vms (mgr s') = touchLastSeen k0 now (vms (mgr s)) → wake_keys s' = wake_keys s →
  record_step k s s'.
Proof.
  intros Hv Hw info Hk. unfold record_of, resumes_started in *. rewrite Hv, Hw.
  rewrite touchLastSeen_lookup, Hk.
  case_decide; simpl; eexists _, 0%nat;
    (split; [done|]; split; [done|]; split; [done|]; split;
       [by constructor | split; [lia | done]]).
Qed.

Lemma record_step_store k k0 nodes now s s' :
  vms (mgr s') = (lookup_store k0 nodes now (vms (mgr s))).1 →
  wake_keys s' = wake_keys s → record_step k s s'.
Proof.
  intros Hv Hw info Hk. unfold record_of, resumes_started in *. rewrite Hv, Hw.
  exists info, 0%nat. split; [by apply lookup_store_old|].
  split; [done|]. split; [done|]. split; [by constructor | split; [lia | done]].
Qed.

Lemma record_step_mark k k0 info0 s s' :
  vms (mgr s) !! k0 = Some info0 → status info0 = statusRunning →
  vms (mgr s') = markPaused k0 (vms (mgr s)) → wake_keys s' = wake_keys s →
  record_step k s s'.
Proof.
  intros Hk0 Hrun Hv Hw info Hk. unfold record_of, resumes_started in *.
  rewrite Hv, Hw, markPaused_lookup, Hk. case_decide as Heq; simpl.
  - subst k0. rewrite Hk in Hk0. injection Hk0 as ->.
    eexists _, 0%nat. split; [done|]. split; [done|]. split; [done|].
    split; [by apply Pauses | split; [lia | done]].
  - exists info, 0%nat. split; [done|]. split; [done|]. split; [done|].
    split; [by constructor | split; [lia | done]].
Qed.

Lemma record_step_start k k0 info0 host s s' :
  vms (mgr s) !! k0 = Some info0 →
  0 ≤ status info0 ≤ 4 → status info0 ≠ statusWaking →
  status info0 ≠ statusRunning → status info0 ≠ statusNotFound →
  vms (mgr s') = <[k0 := set_wakeErr None (set_wakeCh (Some (List.length (chans (mgr s))))
                           (set_status statusWaking info0))]> (vms (mgr s)) →
  wakes s' = wakes s ++ [mkWake k0 host WakeCall] →
  record_step k s s'.
Proof.
  intros Hk0 Hrange Hnw Hnr Hnf Hv Hw info Hk.
  unfold record_of, resumes_started, wake_keys in *.
  rewrite Hv, Hw, fmap_app.
  change (wkey <$> [mkWake k0 host WakeCall]) with [k0].
  rewrite resumes_started_snoc.
  destruct (decide (k0 = k)) as [->|Hne].
  - rewrite lookup_insert_eq. rewrite Hk in Hk0. injection Hk0 as ->.
    eexists _, 1%nat. split; [done|]. split; [done|]. split; [done|].
    split; [|done]. apply WakeStarts; try done.
    unfold statusPaused, statusUnknown, statusWaking, statusRunning,
      statusNotFound in *. lia.
  - rewrite lookup_insert_ne by done. exists info, 0%nat.
    split; [done|]. split; [done|]. split; [done|]. split; [by constructor | done].
Qed.

Lemma record_step_finish k k0 info0 err s s' :
  vms (mgr s) !! k0 = Some info0 → status info0 = statusWaking →
  vms (mgr s') = <[k0 := set_status (match err with None => statusRunning
                                                  | Some _ => statusPaused end)
                           (set_wakeErr err info0)]> (vms (mgr s)) →
  wake_keys s' = wake_keys s →
  record_step k s s'.
Proof.
  intros Hk0 Hw0 Hv Hw info Hk. unfold record_of, resumes_started in *.
  rewrite Hv, Hw. destruct (decide (k0 = k)) as [->|Hne].
  - rewrite lookup_insert_eq. rewrite Hk in Hk0. injection Hk0 as ->.
    eexists _, 0%nat. split; [done|]. split; [by destruct err|].
    split; [by destruct err|]. split; [|split; [lia | done]].
    destruct err as [e|]; [by apply (WakeFails e) | by apply WakeSucceeds].
  - rewrite lookup_insert_ne by done. exists info, 0%nat.
    split; [done|]. split; [done|]. split; [done|].
    split; [by constructor | split; [lia | done]].
Qed.

Lemma req_step_records s t r s' k :
  coherent s → reqs s !! t = Some r → req_step t r s = Some s' → record_step k s s'.
Proof.
  intros Hcoh Ht. pose proof Hcoh as [H1 H2 H3 H4].
  pose proof (H4 _ _ Ht) as Hr. unfold req_step. unfold req_ok in Hr.
  destruct (rpc r) as [| |nodes| | | |[c|]|[addr|e]|] eqn:Hpc; try done.
  - destruct (vms (mgr s) !! rkey r); intros [= <-]; by apply record_step_same.
  - destruct (lookup_store (rkey r) nodes (clock s) (vms (mgr s))) as [v i] eqn:E.
    intros [= <-]. eapply record_step_store; [|done]. simpl. by rewrite E.
  - destruct (vms (mgr s) !! rkey r); [|done]. intros [= <-].
    by apply record_step_same.
  - destruct Hr as (info & Hk & Hnf).
    rewrite (initiateWake_locked_spec _ _ _ _ Hk).
    destruct (Z.eqb_spec (status info) statusWaking) as [Hw|Hw]; simpl.
    { intros [= <-]. by apply record_step_same. }
    destruct (Z.eqb_spec (status info) statusRunning) as [Hrun|Hrun]; simpl.
    { intros [= <-]. by apply record_step_same. }
    intros [= <-]. eapply record_step_start; eauto. eapply ri_status; eauto.
  - destruct (vms (mgr s) !! rkey r); [|done]. intros [= <-].
    by apply record_step_same.
  - destruct (is_closed (chans (mgr s)) c); [|done].
    destruct (vms (mgr s) !! rkey r); [|done]. intros [= <-].
    by apply record_step_same.
  - intros [= <-]. by eapply record_step_touch.
  - intros [= <-]. by apply record_step_same.
Qed.

(** One step takes every record along one transition of the state
    machine, and starts at most one resume for it. *)
Lemma step_records a s s' k :
  coherent s → step a s = Some s' → record_step k s s'.
Proof.
  intros Hcoh. pose proof Hcoh as [H1 H2 H3 H4].
  destruct a as [k0 to|t|t resp|t|t msg|w resp|w| | |resp| |dt]; simpl.
  - intros [= <-]. by apply record_step_same.
  - destruct (reqs s !! t) as [r|] eqn:Ht; simpl; [|done].
    by eapply req_step_records.
  - destruct (reqs s !! t) as [r|] eqn:Ht; simpl; [|done].
    destruct (rpc r); try done.
    destruct resp; intros [= <-]; by apply record_step_same.
  - destruct (reqs s !! t) as [r|] eqn:Ht; simpl; [|done].
    destruct (rpc r); try done. intros [= <-]. by apply record_step_same.
  - destruct (reqs s !! t) as [r|] eqn:Ht; simpl; [|done].
    destruct (rpc r); try done. intros [= <-]. by apply record_step_same.
  - destruct (wakes s !! w) as [wk|] eqn:Hw; simpl; [|done].
    destruct (wpc wk) eqn:Hpc; try done. intros [= <-].
    apply record_step_same; [done|]. by apply wake_keys_insert.
  - destruct (wakes s !! w) as [wk|] eqn:Hw; simpl; [|done].
    destruct (wpc wk) as [|err|] eqn:Hpc; try done.
    assert (Hfl : in_flight wk) by (unfold in_flight; by rewrite Hpc).
    destruct (wi_waking _ _ H2 _ _ Hw Hfl) as (info & Hk & Hst).
    destruct (ri_waking _ _ H1 _ _ Hk Hst) as (c & Hc & Hopen).
    rewrite (finish_returns _ err _ _ _ _ H1 Hk Hst Hc). simpl. intros [= <-].
    eapply record_step_finish; eauto. by apply wake_keys_insert.
  - destruct (watcher s); try done. intros [= <-]. by apply record_step_same.
  - destruct (watcher s) as [|[|a rest]|a h rest|a rest|] eqn:Hp; try done.
    + intros [= <-]. by apply record_step_same.
    + destruct (String.eqb _ _); intros [= <-]; by apply record_step_same.
    + intros [= <-]. destruct H3 as [Hnd Hkeys].
      destruct (Hkeys a) as (info & Hk & Hrun); [simpl; set_solver|].
      by eapply record_step_mark.
  - destruct (watcher s) as [| |a h rest| |] eqn:Hp; try done.
    destruct resp; intros [= <-]; by apply record_step_same.
  - destruct (watcher s); try done. intros [= <-]. by apply record_step_same.
  - destruct (0 <=? dt); [|done]. intros [= <-]. by apply record_step_same.
Qed.

(** ** The example schedules run *)

Lemma waking_state_reachable : reachable waking_state.
Proof. exists 30000000000, 0, (take 7 wake_schedule). vm_compute. reflexivity. Defined.

Lemma woken_state_reachable : reachable woken_state.
Proof. exists 30000000000, 0, wake_schedule. vm_compute. reflexivity. Defined.

Lemma ghost_state_reachable : reachable ghost_state.
Proof. exists 30000000000, 0, ghost_schedule. vm_compute. reflexivity. Defined.

(** ** The claims *)

Lemma status_five st :
  0 ≤ st ≤ 4 →
  st = statusUnknown ∨ st = statusRunning ∨ st = statusPaused
  ∨ st = statusWaking ∨ st = statusNotFound.
Proof.
  unfold statusUnknown, statusRunning, statusPaused, statusWaking, statusNotFound. lia.
Qed.

Lemma lookup_result_range describe now k m :
  (∀ k' info, vms m !! k' = Some info → 0 ≤ status info ≤ 4) →
  ∀ m1 info, lookup describe now k m = (m1, Ok info) →
    vms m1 !! k = Some info ∧ 0 ≤ status info ≤ 4.
Proof.
  intros Hrange m1 info. unfold lookup.
  destruct (vms m !! k) as [i|] eqn:Hk.
  - intros [= <- <-]. eauto.
  - destruct (describe k) as [nodes|e]; [|done]. simpl.
    unfold lookup_store. rewrite Hk. intros [= <- <-]. simpl.
    rewrite lookup_insert_eq. split; [done|].
    pose proof (newInfo_status nodes now) as H.
    rewrite !elem_of_cons, elem_of_nil in H.
    unfold statusUnknown, statusRunning, statusPaused, statusNotFound in H. lia.
Qed.

(** C10.  In every reachable state every stored record has one of the
    five statuses, the switch of ensureRunning handles it, no request has
    returned the "unexpected status" error, and ensureRunning run on the
    manager does not return it. *)
Theorem C10_unexpected_status_unreachable (s : sys) :
  reachable s →
  (∀ k info, record_of k s = Some info →
     (status info = statusUnknown ∨ status info = statusRunning
      ∨ status info = statusPaused ∨ status info = statusWaking
      ∨ status info = statusNotFound)
     ∧ switch_status (status info) ≠ DUnexpected)
  ∧ (∀ t r app, reqs s !! t = Some r → rpc r ≠ Returned (Err (ErrUnexpected app)))
  ∧ (∀ describe now k app,
       (ensureRunning describe now k (mgr s)).2 ≠ Returns (Err (ErrUnexpected app))).
Proof.
  intros Hcoh%reachable_coherent. destruct Hcoh as [H1 H2 H3 H4].
  split; [|split].
  - intros k info Hk. pose proof (ri_status _ _ H1 _ _ Hk) as Hr.
    split; [by apply status_five | by apply switch_status_handled].
  - intros t r app Ht Hpc. pose proof (H4 _ _ Ht) as Hr. unfold req_ok in Hr.
    rewrite Hpc in Hr. by destruct (Hr app).
  - intros describe now k app. unfold ensureRunning, ensureRunning_switch.
    destruct (lookup describe now k (mgr s)) as [m1 [info|e]] eqn:Hl; simpl.
    + destruct (lookup_result_range _ _ _ _ (ri_status _ _ H1) _ _ Hl) as [Hk Hr].
      pose proof (switch_status_handled _ Hr) as Hh.
      destruct (switch_status (status info)); try done.
      rewrite (initiateWake_locked_spec _ _ _ _ Hk).
      destruct (status info =? statusWaking); [done|].
      destruct (status info =? statusRunning); done.
    + unfold lookup in Hl. destruct (vms (mgr s) !! k); [done|].
      destruct (describe k); [|by injection Hl as <- <-].
      by destruct (lookup_store _ _ _ _).
Qed.

Lemma C10_witness :
  reachable woken_state ∧
  (∀ t r app, reqs woken_state !! t = Some r →
     rpc r ≠ Returned (Err (ErrUnexpected app))).
Proof.
  split; [apply woken_state_reachable|].
  apply (C10_unexpected_status_unreachable woken_state woken_state_reachable).
Defined.

Lemma transition_notfound n info info' :
  transition n info info' → status info = statusNotFound →
  status info' = statusNotFound.
Proof.
  unfold statusNotFound.
  destruct 1 as [?? -> | ?? [->| ->] | ?? -> | ??? -> | ?? ->]; done.
Qed.

(** markPaused has no test of the status: applied to the key of a NotFound
    record it would make the record Paused.  The process never applies it
    to such a key, as the next theorem shows. *)
Example markPaused_unguarded :
  status <$> (markPaused "ghost" (vms (mgr ghost_state)) !! "ghost")
  = Some statusPaused.
Proof. vm_compute. reflexivity. Qed.

(** C6.  A record that is NotFound in a reachable state is NotFound after
    any further steps of the process, whatever the requests, wakes and
    watcher ticks that are scheduled. *)
Theorem C6_notfound_terminal (s s' : sys) (tr : list action) (k : string)
    (info : vmInfo) :
  reachable s → record_of k s = Some info → status info = statusNotFound →
  run tr s = Some s' →
  ∃ info', record_of k s' = Some info' ∧ status info' = statusNotFound.
Proof.
  intros Hcoh%reachable_coherent. revert s info Hcoh.
  induction tr as [|a tr IH]; simpl; intros s info Hcoh Hk Hst.
  - intros [= <-]. eauto.
  - destruct (step a s) as [s1|] eqn:Hstep; simpl; [|done].
    destruct (step_records _ _ _ k Hcoh Hstep _ Hk)
      as (info1 & n & Hk1 & _ & _ & Htr & _).
    eapply IH; eauto using step_coherent, transition_notfound.
Qed.

Lemma C6_witness :
  ∃ info', record_of "ghost" ghost_later_state = Some info'
           ∧ status info' = statusNotFound.
Proof.
  apply (C6_notfound_terminal ghost_state ghost_later_state ghost_later "ghost"
           (set_status statusNotFound zeroInfo) ghost_state_reachable);
    vm_compute; reflexivity.
Defined.

Lemma transition_leaves_waking n info info' :
  transition n info info' → status info = statusWaking →
  status info' ≠ statusWaking → wakeCh info' = wakeCh info.
Proof.
  destruct 1 as [?? H1 H2 | ?? [H|H] | | | ?? H ->]; try done;
    unfold statusWaking, statusPaused, statusUnknown, statusRunning in *;
    intros; congruence.
Qed.

Lemma transition_enters_waking n info info' :
  transition n info info' → status info ≠ statusWaking →
  status info' = statusWaking → n = 1%nat.
Proof.
  destruct 1 as [?? H1 H2 | | ?? ? H | ??? ? H | ?? H ->]; try done;
    unfold statusWaking, statusPaused, statusUnknown, statusRunning in *;
    simpl; intros; congruence.
Qed.

(** C3, as the code has it.  A record is in Waking exactly when its
    wakeCh points to an open channel; the channel of a record that is not
    in Waking is nil (never woken) or closed.  The channel is made by the
    step that takes the record into Waking; the step that takes the
    record out of Waking closes it and leaves the field pointing to it. *)
Theorem C3_open_channel_iff_waking (s : sys) (k : string) (info : vmInfo) :
  reachable s → record_of k s = Some info →
  (status info = statusWaking ↔
     ∃ c, wakeCh info = Some c ∧ chans (mgr s) !! c = Some false)
  ∧ (status info ≠ statusWaking →
       wakeCh info = None ∨ ∃ c, wakeCh info = Some c ∧ chans (mgr s) !! c = Some true)
  ∧ (∀ a s' info', step a s = Some s' → record_of k s' = Some info' →
       (status info ≠ statusWaking → status info' = statusWaking →
          ∃ c, wakeCh info' = Some c ∧ chans (mgr s) !! c = None
               ∧ chans (mgr s') !! c = Some false)
       ∧ (status info = statusWaking → status info' ≠ statusWaking →
          ∃ c, wakeCh info = Some c ∧ wakeCh info' = Some c
               ∧ chans (mgr s') !! c = Some true)).
Proof.
  intros Hcoh%reachable_coherent Hk. pose proof Hcoh as [H1 H2 H3 H4].
  unfold record_of in *.
  assert (Hsettled : status info ≠ statusWaking →
            wakeCh info = None ∨ ∃ c, wakeCh info = Some c ∧ chans (mgr s) !! c = Some true).
  { intros Hw. destruct (wakeCh info) as [c|] eqn:Hc; [right | by left].
    exists c. split; [done|]. eapply ri_settled; eauto. }
  split; [|split; [done|]].
  - split; [by eapply ri_waking|]. intros (c & Hc & Hopen).
    destruct (decide (status info = statusWaking)) as [|Hw]; [done|].
    destruct (Hsettled Hw) as [?|(c' & ? & ?)]; congruence.
  - intros a s' info' Hstep Hk'.
    pose proof (step_coherent _ _ _ Hcoh Hstep) as [H1' _ _ _].
    destruct (step_records _ _ _ k Hcoh Hstep _ Hk)
      as (info1 & n & Hk1 & _ & _ & Htr & _ & Hfresh).
    unfold record_of in Hk1. rewrite Hk' in Hk1. injection Hk1 as <-. split.
    + intros Hw Hw'. rewrite (transition_enters_waking _ _ _ Htr Hw Hw') in Hfresh.
      exists (List.length (chans (mgr s))). split; [by apply Hfresh|].
      split; [by apply lookup_ge_None|].
      destruct (ri_waking _ _ H1' _ _ Hk' Hw') as (c & Hc & Hopen).
      rewrite Hfresh in Hc by done. by injection Hc as <-.
    + intros Hw Hw'. destruct (ri_waking _ _ H1 _ _ Hk Hw) as (c & Hc & _).
      pose proof (transition_leaves_waking _ _ _ Htr Hw Hw') as Heq.
      exists c. split; [done|]. split; [congruence|].
      eapply ri_settled; eauto. congruence.
Qed.

Lemma C3_witness :
  status (default zeroInfo (record_of "alpha" waking_state)) = statusWaking ↔
  ∃ c, wakeCh (default zeroInfo (record_of "alpha" waking_state)) = Some c
       ∧ chans (mgr waking_state) !! c = Some false.
Proof.
  apply (C3_open_channel_iff_waking waking_state "alpha" _ waking_state_reachable).
  vm_compute. reflexivity.
Defined.

(** C3 as stated fails: after a completed wake the record is Running and
    its wakeCh still points to the (closed) channel. *)
Lemma C3_counterexample :
  ¬ (∀ s k info, reachable s → record_of k s = Some info →
       (is_Some (wakeCh info) ↔ status info = statusWaking)).
Proof.
  intros H.
  destruct (record_of "alpha" woken_state) as [info|] eqn:Hk; [|by vm_compute in Hk].
  pose proof (H woken_state "alpha" info woken_state_reachable Hk) as [Hiff _].
  vm_compute in Hk. injection Hk as <-. simpl in Hiff.
  assert (Hs : is_Some (Some 0%nat)) by eauto. apply Hiff in Hs. done.
Qed.

(** C2.  For a record in Waking in a reachable state, finishWake returns;
    with a nil error the record becomes Running, with an error it becomes
    Paused and the error is stored; lastSeen is not changed.  After a
    failure the critical section of initiateWake starts the next wake
    and clears wakeErr, as does every start of a wake. *)
Theorem C2_wake_completion (s : sys) (k : string) (info : vmInfo) :
  reachable s → record_of k s = Some info → status info = statusWaking →
  (∀ err, ∃ v' ch' info',
      finishWake k err (vms (mgr s)) (chans (mgr s)) = Some (v', ch')
      ∧ v' !! k = Some info'
      ∧ lastSeen info' = lastSeen info
      ∧ wakeErr info' = err
      ∧ match err with
        | None => status info' = statusRunning
        | Some _ =>
            status info' = statusPaused
            ∧ ∃ v'' ch'' info'',
                initiateWake_locked k v' ch' = Some (v'', ch'', StartWake (hostname info))
                ∧ v'' !! k = Some info''
                ∧ status info'' = statusWaking ∧ wakeErr info'' = None
        end)
  ∧ (∀ v ch v' ch' host, initiateWake_locked k v ch = Some (v', ch', StartWake host) →
       ∃ info', v' !! k = Some info' ∧ status info' = statusWaking
                ∧ wakeErr info' = None).
Proof.
  intros Hcoh%reachable_coherent Hk Hw. destruct Hcoh as [H1 _ _ _].
  unfold record_of in Hk. split.
  - intros err. destruct (ri_waking _ _ H1 _ _ Hk Hw) as (c & Hc & Hopen).
    rewrite (finishWake_open _ err _ _ _ _ Hk Hc Hopen).
    eexists _, _, _. split; [done|]. rewrite lookup_insert_eq.
    split; [done|]. split; [done|]. split; [done|].
    destruct err as [e|]; [|done]. split; [done|].
    erewrite initiateWake_locked_spec by apply lookup_insert_eq. simpl.
    eexists _, _, _. split; [done|]. rewrite lookup_insert_eq. done.
  - intros v ch v' ch' host. unfold initiateWake_locked.
    destruct (v !! k) as [i|]; [|done].
    destruct (status i =? statusWaking); [done|].
    destruct (status i =? statusRunning); [done|]. simpl.
    intros [= <- <- <-]. rewrite lookup_insert_eq. eauto.
Qed.

Lemma C2_witness :
  ∃ v' ch' info',
    finishWake "alpha" (Some (ErrRemote "resume failed"))
      (vms (mgr waking_state)) (chans (mgr waking_state)) = Some (v', ch')
    ∧ v' !! "alpha" = Some info'
    ∧ lastSeen info' = 0
    ∧ wakeErr info' = Some (ErrRemote "resume failed")
    ∧ status info' = statusPaused
    ∧ ∃ v'' ch'' info'',
        initiateWake_locked "alpha" v' ch' = Some (v'', ch'', StartWake "vm-alpha")
        ∧ v'' !! "alpha" = Some info''
        ∧ status info'' = statusWaking ∧ wakeErr info'' = None.
Proof.
  assert (Hk : record_of "alpha" waking_state
               = Some {| hostname := "vm-alpha"; ip := "10.0.0.5";
                         status := statusWaking; lastSeen := 0;
                         wakeCh := Some 0%nat; wakeErr := None |})
    by (vm_compute; reflexivity).
  destruct (C2_wake_completion waking_state "alpha" _ waking_state_reachable Hk eq_refl)
    as [Hfinish _].
  exact (Hfinish (Some (ErrRemote "resume failed"))).
Defined.

(** C4.  For a key whose record is cached, lookup returns that record and
    leaves the manager and the log of control-plane calls as they were;
    ensureRunning makes no call either, returns the cached address at once
    when the record is Running and the "not found" error at once when it
    is NotFound.  A request goroutine that finds the record in the first
    critical section of lookup goes on to the switch without a call. *)
Theorem C4_cached_key_no_describe (describe : string → result (list sdkNode))
    (now : Time) (k : string) (m : vmStateManager) (info : vmInfo) :
  vms m !! k = Some info →
  lookup describe now k m = (m, Ok info)
  ∧ calls (ensureRunning describe now k m).1 = calls m
  ∧ (status info = statusRunning →
       ensureRunning describe now k m = (m, Returns (Ok (ip info))))
  ∧ (status info = statusNotFound →
       ensureRunning describe now k m = (m, Returns (Err (ErrNotFound k))))
  ∧ (∀ s t r, mgr s = m → reqs s !! t = Some r → rkey r = k → rpc r = AtLookup →
       step (ReqStep t) s = Some (goto t r AtSwitch s)).
Proof.
  intros Hk.
  assert (Hl : lookup describe now k m = (m, Ok info)) by (unfold lookup; by rewrite Hk).
  split; [done|]. split; [|split; [|split]].
  - unfold ensureRunning, ensureRunning_switch. rewrite Hl.
    destruct (switch_status (status info)); try done.
    rewrite (initiateWake_locked_spec _ _ _ _ Hk).
    destruct (status info =? statusWaking); [done|].
    destruct (status info =? statusRunning); done.
  - intros Hst. unfold ensureRunning, ensureRunning_switch. rewrite Hl, Hst. done.
  - intros Hst. unfold ensureRunning, ensureRunning_switch. rewrite Hl, Hst. done.
  - intros s t r <- Ht <- Hpc. simpl. rewrite Ht. simpl.
    unfold req_step. by rewrite Hpc, Hk.
Qed.

Lemma C4_witness :
  lookup (λ _, Err (ErrRemote "unreachable")) 7 "alpha" (mgr woken_state)
  = (mgr woken_state, Ok {| hostname := "vm-alpha"; ip := "10.0.0.5";
                             status := statusRunning; lastSeen := 0;
                             wakeCh := Some 0%nat; wakeErr := None |}).
Proof.
  apply (C4_cached_key_no_describe (λ _, Err (ErrRemote "unreachable")) 7 "alpha"
           (mgr woken_state)).
  vm_compute. reflexivity.
Defined.

(** C5.  idleApps returns, without repetition, exactly the keys whose
    record is Running and whose lastSeen is more than the timeout before
    now (Go's [now.Sub(lastSeen)]; it is the plain difference unless that
    overflows a Duration, so for a timeout below the largest Duration the
    test is [timeout < now - lastSeen]).  A tick of the watcher computes
    the list and changes nothing in the manager.  After touchLastSeen at
    [now], the key is not idle at any time [now'] with
    [now' - now <= timeout]. *)
Theorem C5_idle_keys (timeout : Duration) (now : Time) (v : gmap string vmInfo) :
  (∀ k, k ∈ idleApps timeout now v ↔
        ∃ info, v !! k = Some info ∧ status info = statusRunning
                ∧ timeout < time_Sub now (lastSeen info))
  ∧ NoDup (idleApps timeout now v)
  ∧ (minDuration ≤ timeout < maxDuration →
     ∀ k, k ∈ idleApps timeout now v ↔
          ∃ info, v !! k = Some info ∧ status info = statusRunning
                  ∧ now - lastSeen info > timeout)
  ∧ (∀ s s', step WatchTick s = Some s' →
       mgr s' = mgr s ∧ reqs s' = reqs s ∧ wakes s' = wakes s ∧ clock s' = clock s
       ∧ watcher s' = AtHostname (idleApps (idleTimeout s) (clock s) (vms (mgr s))))
  ∧ (0 ≤ timeout →
     ∀ k now', now' - now ≤ timeout →
       k ∉ idleApps timeout now' (touchLastSeen k now v)).
Proof.
  split; [apply elem_of_idleApps|]. split; [apply NoDup_idleApps|].
  split; [|split].
  - intros [Hlo Hhi] k. rewrite elem_of_idleApps.
    split; intros (info & Hk & Hst & Hlt); exists info; (split; [done|]; split; [done|]).
    + apply time_Sub_gt in Hlt; [lia | done | done].
    + apply time_Sub_gt; [done | done | lia].
  - intros s s'. simpl. destruct (watcher s); try done. by intros [= <-].
  - intros Hpos k now' Hle (info & Hk & Hst & Hlt)%elem_of_idleApps.
    rewrite touchLastSeen_lookup, decide_True in Hk by done.
    destruct (v !! k) as [i|]; [|done]. simpl in Hk. injection Hk as <-.
    simpl in Hlt. unfold time_Sub in Hlt.
    destruct (Z.ltb_spec maxDuration (now' - now)); [lia|].
    destruct (Z.ltb_spec (now' - now) minDuration); [|lia].
    unfold minDuration in *. lia.
Qed.

Lemma C5_witness :
  "alpha" ∉ idleApps 1000000000 2000000000
              (touchLastSeen "alpha" 2000000000 (vms (mgr woken_state))).
Proof.
  apply (C5_idle_keys 1000000000 2000000000 (vms (mgr woken_state))); lia.
Defined.

(** The scenario of the specification: two seconds after the last touch
    alpha is idle for a timeout of one second; after a touch it is not. *)
Example idle_scenario :
  idleApps 1000000000 2000000000 (vms (mgr woken_state)) = ["alpha"]
  ∧ idleApps 1000000000 2000000000
      (touchLastSeen "alpha" 2000000000 (vms (mgr woken_state))) = [].
Proof. split; vm_compute; reflexivity. Qed.

(** C8.  lookup fails exactly when the key is not cached and the describe
    call fails.  The error returned wraps the error of the call; the map
    and the channels are unchanged, the key is still not cached, and a
    later lookup of the key calls describe again. *)
Theorem C8_lookup_failure (describe : string → result (list sdkNode)) (now : Time)
    (k : string) (m : vmStateManager) :
  (is_Err (lookup describe now k m).2 ↔ vms m !! k = None ∧ is_Err (describe k))
  ∧ (∀ e, (lookup describe now k m).2 = Err e →
       (∃ cause, describe k = Err cause ∧ e = ErrFetch k cause)
       ∧ calls (lookup describe now k m).1 = calls m ++ [GetHostGroupNodes k]
       ∧ vms (lookup describe now k m).1 = vms m
       ∧ chans (lookup describe now k m).1 = chans m
       ∧ vms (lookup describe now k m).1 !! k = None
       ∧ ∀ describe' now',
           calls (lookup describe' now' k (lookup describe now k m).1).1
           = calls m ++ [GetHostGroupNodes k; GetHostGroupNodes k]).
Proof.
  unfold lookup. destruct (vms m !! k) as [i|] eqn:Hk; simpl.
  { split; [naive_solver | done]. }
  destruct (describe k) as [nodes|cause] eqn:Hd; simpl.
  - destruct (lookup_store k nodes now (vms m)) as [v i] eqn:E. simpl.
    split; [naive_solver | done].
  - split; [naive_solver|]. intros e [= <-]. split; [eauto|].
    split; [done|]. split; [done|]. split; [done|]. split; [done|].
    intros describe' now'. rewrite Hk.
    destruct (describe' k) as [nodes'|]; simpl.
    + destruct (lookup_store _ _ _ _). simpl. by rewrite <- app_assoc.
    + by rewrite <- app_assoc.
Qed.

Lemma C8_witness :
  calls (lookup (λ _, Err (ErrRemote "connection refused")) 5 "alpha"
           newVMStateManager).1
  = [GetHostGroupNodes "alpha"].
Proof.
  apply (C8_lookup_failure (λ _, Err (ErrRemote "connection refused")) 5 "alpha"
           newVMStateManager) with (e := ErrFetch "alpha" (ErrRemote "connection refused")).
  vm_compute. reflexivity.
Defined.

Lemma paused_state_reachable : reachable paused_state.
Proof. exists 30000000000, 0, late_touch_schedule. vm_compute. reflexivity. Defined.

(** C9 as stated fails: touchLastSeen writes lastSeen of a record that
    the watcher has just paused, and lookup creates a Paused record with
    lastSeen set to now. *)
Lemma C9_counterexample :
  ¬ (∀ s a s' k info info', reachable s → step a s = Some s' →
       record_of k s = Some info → record_of k s' = Some info' →
       status info ≠ statusRunning → lastSeen info' = lastSeen info)
  ∧ ¬ (∀ nodes now, status (newInfo nodes now) ≠ statusRunning →
         lastSeen (newInfo nodes now) = zeroTime).
Proof.
  split.
  - intros H.
    destruct (step (ReqStep 0) paused_state) as [s'|] eqn:Hstep;
      [|by vm_compute in Hstep].
    destruct (record_of "alpha" paused_state) as [info|] eqn:Hk;
      [|by vm_compute in Hk].
    destruct (record_of "alpha" s') as [info'|] eqn:Hk';
      [|vm_compute in Hstep; injection Hstep as <-; by vm_compute in Hk'].
    pose proof (H _ _ _ _ _ _ paused_state_reachable Hstep Hk Hk') as Heq.
    vm_compute in Hstep. injection Hstep as <-.
    vm_compute in Hk, Hk'. injection Hk as <-. injection Hk' as <-.
    simpl in Heq. by specialize (Heq ltac:(done)).
  - intros H. by specialize (H alpha_paused 5 ltac:(done)).
Qed.

(** C9, as the code has it.  lastSeen is written by touchLastSeen, for the
    record of its key if there is one, whatever the status of the record,
    and by the creation of a record in lookup, unless the record is
    created NotFound.  It is not changed by markPaused, by finishWake or
    by the critical section of initiateWake. *)
Theorem C9_lastSeen_writes (v : gmap string vmInfo) (k' : string) (info : vmInfo) :
  v !! k' = Some info →
  (∀ k now, ∃ info', touchLastSeen k now v !! k' = Some info'
      ∧ status info' = status info
      ∧ lastSeen info' = if decide (k = k') then now else lastSeen info)
  ∧ (∀ nodes now,
       (nodes = [] → status (newInfo nodes now) = statusNotFound
                     ∧ lastSeen (newInfo nodes now) = zeroTime)
       ∧ (nodes ≠ [] → status (newInfo nodes now) ≠ statusNotFound
                       ∧ lastSeen (newInfo nodes now) = now))
  ∧ (∀ k nodes now, (lookup_store k nodes now v).1 !! k' = Some info)
  ∧ (∀ k, ∃ info', markPaused k v !! k' = Some info'
                   ∧ lastSeen info' = lastSeen info)
  ∧ (∀ k err ch v' ch', finishWake k err v ch = Some (v', ch') →
       ∃ info', v' !! k' = Some info' ∧ lastSeen info' = lastSeen info)
  ∧ (∀ k ch v' ch' d, initiateWake_locked k v ch = Some (v', ch', d) →
       ∃ info', v' !! k' = Some info' ∧ lastSeen info' = lastSeen info).
Proof.
  intros Hk. split; [|split; [|split; [|split; [|split]]]].
  - intros k now. rewrite touchLastSeen_lookup, Hk.
    case_decide; simpl; eauto.
  - intros nodes now. split; [by intros ->|]. intros Hne.
    destruct nodes as [|node ?]; [done|]. simpl.
    destruct (String.eqb _ _); [done|]. by destruct (String.eqb _ _).
  - intros k nodes now. by apply lookup_store_old.
  - intros k. rewrite markPaused_lookup, Hk. case_decide; simpl; eauto.
  - intros k err ch v' ch'. unfold finishWake.
    destruct (v !! k) as [i|] eqn:Hi; [|intros [= <- <-]; eauto].
    assert (Hins : ∀ st, ∃ info',
              <[k := set_status st (set_wakeErr err i)]> v !! k' = Some info'
              ∧ lastSeen info' = lastSeen info).
    { intros st. destruct (decide (k = k')) as [->|Hne].
      - rewrite lookup_insert_eq. rewrite Hk in Hi. injection Hi as <-. eauto.
      - rewrite lookup_insert_ne by done. eauto. }
    destruct err as [e|]; simpl;
      (destruct (wakeCh i) as [c|]; simpl;
       [destruct (close_chan c ch); simpl; [|done] |]; intros [= <- <-]; apply Hins).
  - intros k ch v' ch' d. unfold initiateWake_locked.
    destruct (v !! k) as [i|] eqn:Hi; [|done].
    destruct (status i =? statusWaking); [intros [= <- <- <-]; eauto|].
    destruct (status i =? statusRunning); [intros [= <- <- <-]; eauto|].
    simpl. intros [= <- <- <-]. destruct (decide (k = k')) as [->|Hne].
    + rewrite lookup_insert_eq. rewrite Hk in Hi. injection Hi as <-. eauto.
    + rewrite lookup_insert_ne by done. eauto.
Qed.

Lemma C9_witness :
  ∃ info', touchLastSeen "alpha" 77 (vms (mgr paused_state)) !! "alpha" = Some info'
    ∧ status info' = statusPaused
    ∧ lastSeen info' = 77.
Proof.
  assert (Hk : vms (mgr paused_state) !! "alpha" =
               Some {| hostname := "vm-alpha"; ip := "10.0.0.5"; status := statusPaused;
                       lastSeen := 0; wakeCh := Some 0%nat; wakeErr := None |})
    by (vm_compute; reflexivity).
  destruct (C9_lastSeen_writes _ _ _ Hk) as [Htouch _].
  exact (Htouch "alpha" 77).
Defined.

(** ** The idle watcher *)







(** ** Coalescing *)











Lemma race_observed_reachable : reachable race_observed.
Proof. exists 30000000000, 0, race_observe. vm_compute. reflexivity. Defined.


(** *** The resume calls in the log *)






(** C1 fails on the code, against the docstring of ensureRunning
    ("Concurrent callers are coalesced - only one ResumeVM call is
    made").  Two requests for alpha, whose VM is paused, are in
    ensureRunning at the same time and both read Paused at the switch.
    The first starts a wake, whose ResumeVM fails, and returns the wake
    error; the second takes the lock of initiateWake only then, finds the
    record Paused again and starts a second wake, which succeeds: two
    ResumeVM calls are made and the two callers return different
    results. *)
Lemma C1_second_resume :
  reachable race_observed
  ∧ status <$> record_of "alpha" race_observed = Some statusPaused
  ∧ rpc <$> reqs race_observed = [AtInitiate; AtInitiate]
  ∧ run race_rest race_observed = Some race_end
  ∧ calls (mgr race_end)
    = [GetHostGroupNodes "alpha"; ResumeVM "vm-alpha"; ResumeVM "vm-alpha"]
  ∧ resumes_started "alpha" race_end = 2%nat
  ∧ rpc <$> reqs race_end
    = [Returned (Err (ErrWakeFailed "alpha" (ErrRemote "resume failed")));
       Returned (Ok "10.0.0.5")].
Proof.
  split; [apply race_observed_reachable|].
  do 5 (split; [vm_compute; reflexivity|]). vm_compute. reflexivity.
Qed.



(** Why the last part of the theorem stops at the next resume: wakeErr is
    read without the lock after the channel is closed.  A waiter of a
    failed wake that takes its step after the next wake has begun reads
    the cleared field and returns the address. *)
Example late_waiter_misses_error :
  ∃ s, run race_late_read race_observed = Some s
    ∧ status <$> record_of "alpha" s = Some statusWaking
    ∧ rpc <$> reqs s = [Returned (Ok "10.0.0.5"); AtSelect].
Proof. eexists. split; [vm_compute; reflexivity|]. split; vm_compute; reflexivity. Qed.

(** The scenario of the specification: three concurrent calls for the
    paused key alpha, one resume call, and the three calls return
    10.0.0.5. *)
Example three_callers_one_resume :
  ∃ s, run (three_waiting_schedule ++ [WakeFinish 0; ReqStep 2; ReqStep 0; ReqStep 1])
           (init 30000000000 0) = Some s
    ∧ calls (mgr s) = [GetHostGroupNodes "alpha"; ResumeVM "vm-alpha"]
    ∧ rpc <$> reqs s = [Returned (Ok "10.0.0.5"); Returned (Ok "10.0.0.5");
                        Returned (Ok "10.0.0.5")].
Proof. eexists. split; [vm_compute; reflexivity|]. split; vm_compute; reflexivity. Qed.

(** ** ensureRunning, sequential and scheduled

    A request goroutine scheduled alone does what the sequential program
    [ensureRunning] does. *)

Lemma goto_at t r pc s :
  reqs s !! t = Some r →
  reqs (goto t r pc s) !! t = Some (mkReq (rkey r) (rtimeout r) pc).
Proof. intros Ht. simpl. apply list_lookup_insert_eq. by eapply lookup_lt_Some. Qed.

Lemma run_alone_stops describe fuel t s r :
  reqs s !! t = Some r →
  (∃ res, rpc r = Returned res) ∨ (∃ c, rpc r = Blocked c) →
  run_alone describe fuel t s = Some s.
Proof.
  intros Ht Hpc. destruct fuel as [|fuel]; simpl; [done|]. rewrite Ht. simpl.
  by destruct Hpc as [[res ->]|[c ->]].
Qed.

Lemma run_alone_step describe fuel t s r s1 :
  reqs s !! t = Some r →
  match rpc r with
  | Returned _ | Blocked _ | Finished | AtDescribe => False
  | _ => True
  end →
  req_step t r s = Some s1 →
  run_alone describe (S fuel) t s = run_alone describe fuel t s1.
Proof.
  intros Ht Hpc Hstep. simpl. rewrite Ht. simpl.
  destruct (rpc r); try done; by rewrite Hstep.
Qed.

Lemma run_alone_describe describe fuel t s r :
  reqs s !! t = Some r → rpc r = AtDescribe →
  run_alone describe (S fuel) t s
  = run_alone describe fuel t
      (goto t r match describe (rkey r) with
                | Ok nodes => AtStore nodes
                | Err err => Returned (Err (ErrFetch (rkey r) err))
                end
         (with_mgr (record_call (GetHostGroupNodes (rkey r)) (mgr s)) s)).
Proof.
  intros Ht Hpc. simpl. rewrite Ht. simpl. rewrite Hpc.
  by destruct (describe (rkey r)).
Qed.

Lemma goto_goto_at t r r' pc pc' s :
  reqs s !! t = Some r →
  reqs (goto t r' pc' (goto t r pc s)) !! t = Some (mkReq (rkey r') (rtimeout r') pc').
Proof.
  intros Ht. simpl. rewrite list_insert_insert_eq.
  apply list_lookup_insert_eq. by eapply lookup_lt_Some.
Qed.

(** The select: the goroutine reads info.wakeCh and blocks. *)
Lemma alone_from_select describe fuel t s k to info :
  reqs s !! t = Some (mkReq k to AtSelect) → vms (mgr s) !! k = Some info →
  ∃ s', run_alone describe (S fuel) t s = Some s'
        ∧ mgr s' = mgr s ∧ reqs s' !! t = Some (mkReq k to (Blocked (wakeCh info)))
        ∧ wakes s' = wakes s ∧ clock s' = clock s ∧ watcher s' = watcher s.
Proof.
  intros Ht Hk. eexists. split.
  - erewrite run_alone_step; [| exact Ht | done |].
    2:{ unfold req_step. simpl. rewrite Hk. simpl. reflexivity. }
    eapply run_alone_stops; [by apply goto_at | eauto].
  - repeat split. by apply goto_at.
Qed.

Lemma alone_from_switch describe fuel t s k to info :
  reqs s !! t = Some (mkReq k to AtSwitch) → vms (mgr s) !! k = Some info →
  ∃ s', run_alone describe (3 + fuel) t s = Some s'
        ∧ matches k to t s s' (ensureRunning_switch k info (mgr s)).
Proof.
  intros Ht Hk. set (r := mkReq k to AtSwitch) in *.
  change (3 + fuel)%nat with (S (S (S fuel))).
  erewrite run_alone_step; [| exact Ht | done |].
  2:{ unfold req_step. simpl. rewrite Hk. simpl. reflexivity. }
  unfold ensureRunning_switch, matches.
  destruct (switch_status (status info)) eqn:Hsw.
  - eexists. split; [eapply run_alone_stops; [by apply goto_at | eauto]|].
    split; [done|]. split; [exact (goto_at t r _ s Ht)|].
    split; [simpl; by rewrite app_nil_r | done].
  - eexists. split; [eapply run_alone_stops; [by apply goto_at | eauto]|].
    split; [done|]. split; [exact (goto_at t r _ s Ht)|].
    split; [simpl; by rewrite app_nil_r | done].
  - (* Waking: on to the select *)
    destruct (alone_from_select describe (S fuel) t (goto t r AtSelect s) k to info)
      as (s' & Hrun & Hm & Hr & Hw & Hc & Hp); [by apply goto_at | done |].
    exists s'. split; [done|]. unfold wait_channel. rewrite Hk. simpl.
    by rewrite app_nil_r.
  - (* Paused or Unknown: initiateWake *)
    rewrite (initiateWake_locked_spec _ _ _ _ Hk).
    destruct (status info =? statusWaking) eqn:Hw;
      [|destruct (status info =? statusRunning) eqn:Hrun];
      (erewrite run_alone_step; [| exact (goto_at t r _ s Ht) | done |]);
      try (unfold req_step; simpl;
           rewrite (initiateWake_locked_spec _ _ _ _ Hk), Hw, ?Hrun; reflexivity).
    + (* the wake was started meanwhile: join it *)
      destruct (alone_from_select describe fuel t
                  (goto t (mkReq k to AtInitiate) AtSelect (goto t r AtInitiate s))
                  k to info)
        as (s' & Hrun & Hm & Hr & Hw' & Hc & Hp);
        [exact (goto_goto_at t r _ _ _ s Ht) | done |].
      exists s'. split; [done|]. unfold wait_channel. rewrite Hk. simpl.
      by rewrite app_nil_r.
    + eexists. split;
        [eapply run_alone_stops; [exact (goto_goto_at t r _ _ _ s Ht) | eauto]|].
      split; [done|]. split; [exact (goto_goto_at t r _ _ _ s Ht)|].
      split; [simpl; by rewrite app_nil_r | done].
    + (* start the wake, then the select *)
      match goal with |- context [run_alone _ _ _ ?s2] => set (s1 := s2) end.
      destruct (alone_from_select describe fuel t s1 k to
                  (set_wakeErr None (set_wakeCh (Some (List.length (chans (mgr s))))
                                       (set_status statusWaking info))))
        as (s' & Hrun' & Hm & Hr & Hw' & Hc & Hp).
      { subst s1. exact (goto_goto_at t r _ _ _ _ Ht). }
      { subst s1. simpl. by rewrite lookup_insert_eq. }
      exists s'. split; [done|]. unfold wait_channel. simpl.
      rewrite lookup_insert_eq. simpl. done.
  - eexists. split; [eapply run_alone_stops; [by apply goto_at | eauto]|].
    split; [done|]. split; [exact (goto_at t r _ s Ht)|].
    split; [simpl; by rewrite app_nil_r | done].
Qed.

(** X7.  A request goroutine that runs alone from the call of ensureRunning
    reaches, in at most six steps, the manager and the return value (or
    the select) that the sequential program computes; the describe call
    of the goroutine is answered by [describe] and time is read at the
    clock of the state. *)
Theorem ensureRunning_alone describe t s k to :
  reqs s !! t = Some (mkReq k to AtLookup) →
  ∃ s', run_alone describe 6 t s = Some s'
        ∧ matches k to t s s' (ensureRunning describe (clock s) k (mgr s)).
Proof.
  intros Ht. set (r := mkReq k to AtLookup) in *.
  unfold ensureRunning, lookup.
  destruct (vms (mgr s) !! k) as [info|] eqn:Hk.
  - (* cached *)
    erewrite run_alone_step; [| exact Ht | done |].
    2:{ unfold req_step. simpl. rewrite Hk. reflexivity. }
    destruct (alone_from_switch describe 2 t (goto t r AtSwitch s) k to info)
      as (s' & Hrun & Hm); [exact (goto_at t r _ s Ht) | done |].
    exists s'. split; [done|]. exact Hm.
  - (* first sight of the key *)
    erewrite run_alone_step; [| exact Ht | done |].
    2:{ unfold req_step. simpl. rewrite Hk. reflexivity. }
    erewrite run_alone_describe; [| exact (goto_at t r _ s Ht) | done].
    simpl rkey. destruct (describe k) as [nodes|err] eqn:Hd.
    + unfold lookup_store. simpl vms. rewrite Hk.
      erewrite run_alone_step; [| exact (goto_goto_at t r _ _ _ _ Ht) | done |].
      2:{ unfold req_step, lookup_store. simpl. rewrite Hk. reflexivity. }
      match goal with |- context [run_alone _ _ _ ?s2] => set (s1 := s2) end.
      destruct (alone_from_switch describe 0 t s1 k to (newInfo nodes (clock s)))
        as (s' & Hrun & Hm).
      { subst s1. simpl. rewrite !list_insert_insert_eq.
        apply list_lookup_insert_eq. by eapply lookup_lt_Some. }
      { subst s1. simpl. by rewrite lookup_insert_eq. }
      exists s'. split; [done|]. exact Hm.
    + eexists. split;
        [eapply run_alone_stops; [exact (goto_goto_at t r _ _ _ _ Ht) | eauto]|].
      split; [done|]. split; [exact (goto_goto_at t r _ _ _ _ Ht)|].
      split; [simpl; by rewrite app_nil_r | done].
Qed.

(** ** pauseIdleVMs, sequential and scheduled *)

Lemma watch_alone_more pauseVM fuel fuel' s s' :
  watch_alone pauseVM fuel s = Some s' →
  watcher s' = Ticking ∨ watcher s' = Stopped →
  (fuel ≤ fuel')%nat → watch_alone pauseVM fuel' s = Some s'.
Proof.
  revert fuel' s. induction fuel as [|fuel IH]; intros fuel' s; cbn [watch_alone].
  - intros [= <-] Hend _. destruct fuel'; cbn [watch_alone]; [done|].
    by destruct Hend as [-> | ->].
  - intros Hrun Hend Hle. destruct fuel' as [|fuel']; [lia|]. cbn [watch_alone].
    destruct (watcher s) eqn:Hp; try done.
    + destruct (step WatchStep s) as [s1|]; [|done].
      cbn [mbind option_bind] in *. apply IH; [done | done | lia].
    + destruct (step (WatchPause _) s) as [s1|]; [|done].
      cbn [mbind option_bind] in *. apply IH; [done | done | lia].
    + destruct (step WatchStep s) as [s1|]; [|done].
      cbn [mbind option_bind] in *. apply IH; [done | done | lia].
Qed.

Lemma watch_alone_step pauseVM fuel s s1 :
  match watcher s with AtHostname _ | AtMark _ _ => True | _ => False end →
  step WatchStep s = Some s1 →
  watch_alone pauseVM (S fuel) s = watch_alone pauseVM fuel s1.
Proof.
  intros Hp Hstep. cbn [watch_alone]. rewrite Hstep. by destruct (watcher s).
Qed.

Lemma watch_alone_pause pauseVM fuel s a host rest s1 :
  watcher s = AtPause a host rest →
  step (WatchPause (pauseVM host)) s = Some s1 →
  watch_alone pauseVM (S fuel) s = watch_alone pauseVM fuel s1.
Proof. intros Hp Hstep. cbn [watch_alone]. by rewrite Hp, Hstep. Qed.

(** The loop of pauseIdleVMs: the watcher scheduled alone over the keys
    [idle] ends with the manager that [pauseLoop] computes, back in the
    select or stopped by a panic. *)
Lemma pauseLoop_alone pauseVM idle s log :
  watcher s = AtHostname idle →
  ∃ s', watch_alone pauseVM (S (3 * List.length idle)) s = Some s'
        ∧ mgr s' = (pauseLoop pauseVM idle (mgr s) log).1.1
        ∧ watcher s' = tick_pc (pauseLoop pauseVM idle (mgr s) log).2
        ∧ reqs s' = reqs s ∧ wakes s' = wakes s ∧ clock s' = clock s.
Proof.
  revert s log. induction idle as [|a idle IH]; intros s log Hp.
  - exists (with_watcher Ticking s). split; [|done].
    erewrite watch_alone_step; [done | by rewrite Hp | simpl; by rewrite Hp].
  - cbn [pauseLoop List.length].
    replace (S (3 * S (List.length idle)))%nat
      with (S (S (S (S (3 * List.length idle))))) by lia.
    destruct (String.eqb (getHostname a (vms (mgr s))) "") eqn:Hhost.
    + (* no hostname: continue *)
      erewrite watch_alone_step; [| by rewrite Hp | simpl; by rewrite Hp, Hhost].
      destruct (IH (with_watcher (AtHostname idle) s) log eq_refl)
        as (s' & Hrun & Hm & Hw & Hr & Hk & Hc).
      exists s'. split; [|done].
      eapply watch_alone_more; [exact Hrun | | lia].
      rewrite Hw. destruct (pauseLoop _ _ _ _).2; simpl; auto.
    + erewrite watch_alone_step; [| by rewrite Hp | simpl; by rewrite Hp, Hhost].
      destruct (pauseVM (getHostname a (vms (mgr s)))) as [|e|v] eqn:Hresp;
        (erewrite watch_alone_pause; [| done | simpl; rewrite Hresp; reflexivity]).
      * (* PauseVM returned nil: markPaused *)
        erewrite watch_alone_step; [| done | simpl; reflexivity].
        match goal with |- context [watch_alone _ _ ?s2] => set (s1 := s2) end.
        destruct (IH s1 ((log ++ [LogInfo "pausing idle VM"])
                           ++ [LogInfo "VM paused successfully"]) eq_refl)
          as (s' & Hrun & Hm & Hw & Hr & Hk & Hc).
        exists s'. split; [|done].
        eapply watch_alone_more; [exact Hrun | | lia].
        rewrite Hw. destruct (pauseLoop _ _ _ _).2; simpl; auto.
      * (* PauseVM failed: continue *)
        match goal with |- context [watch_alone _ _ ?s2] => set (s1 := s2) end.
        destruct (IH s1 ((log ++ [LogInfo "pausing idle VM"])
                           ++ [LogError "failed to pause VM"]) eq_refl)
          as (s' & Hrun & Hm & Hw & Hr & Hk & Hc).
        exists s'. split; [|done].
        eapply watch_alone_more; [exact Hrun | | lia].
        rewrite Hw. destruct (pauseLoop _ _ _ _).2; simpl; auto.
      * (* PauseVM panicked *)
        eexists. split; [reflexivity|]. done.
Qed.

(** X13.  One tick of the watcher scheduled alone is pauseIdleVMs. *)
Theorem pauseIdleVMs_alone pauseVM s log :
  watcher s = Ticking →
  ∃ s1 s', step WatchTick s = Some s1
    ∧ watch_alone pauseVM (S (3 * List.length (watch_keys (watcher s1)))) s1 = Some s'
    ∧ mgr s' = (pauseIdleVMs pauseVM (idleTimeout s) (clock s) (mgr s) log).1.1
    ∧ watcher s' = tick_pc (pauseIdleVMs pauseVM (idleTimeout s) (clock s) (mgr s) log).2.
Proof.
  intros Hp. simpl. rewrite Hp. eexists. 
  destruct (pauseLoop_alone pauseVM (idleApps (idleTimeout s) (clock s) (vms (mgr s)))
              (with_watcher (AtHostname (idleApps (idleTimeout s) (clock s) (vms (mgr s)))) s)
              log eq_refl) as (s' & Hrun & Hm & Hw & _).
  exists s'. split; [done|]. split; [exact Hrun|]. done.
Qed.

(** * Further properties of the manager and the watcher *)

Lemma transition_notfound_iff n info info' :
  transition n info info' →
  (status info = statusNotFound ↔ status info' = statusNotFound).
Proof.
  unfold statusNotFound.
  destruct 1 as [?? H1 | ?? [H1|H1] H2 | ?? H1 H2 | ??? H1 H2 | ?? H1 ->];
    simpl; unfold statusPaused, statusUnknown, statusWaking, statusRunning in *;
    split; intros; congruence.
Qed.

(** X1.  Records are never deleted, and the hostname and the ip of a record are
    those of the first describe result stored for its key: no step of the
    process changes them, nor whether the record is NotFound. *)
Theorem records_persist (s s' : sys) (tr : list action) (k : string) (info : vmInfo) :
  reachable s → run tr s = Some s' → record_of k s = Some info →
  ∃ info', record_of k s' = Some info'
    ∧ hostname info' = hostname info ∧ ip info' = ip info
    ∧ (status info = statusNotFound ↔ status info' = statusNotFound).
Proof.
  intros Hcoh%reachable_coherent. revert s info Hcoh.
  induction tr as [|a tr IH]; simpl; intros s info Hcoh.
  - intros [= <-] Hk. exists info. done.
  - destruct (step a s) as [s1|] eqn:Hstep; simpl; [|done]. intros Hrun Hk.
    destruct (step_records _ _ _ k Hcoh Hstep _ Hk)
      as (info1 & n & Hk1 & Hh & Hi & Htr & _).
    destruct (IH _ _ (step_coherent _ _ _ Hcoh Hstep) Hrun Hk1)
      as (info' & Hk' & Hh' & Hi' & Hnf').
    exists info'. split; [done|]. split; [congruence|]. split; [congruence|].
    rewrite (transition_notfound_iff _ _ _ Htr). done.
Qed.

Lemma records_persist_witness :
  ∃ info', record_of "alpha" woken_state = Some info'
    ∧ hostname info' = "vm-alpha" ∧ ip info' = "10.0.0.5"
    ∧ (statusWaking = statusNotFound ↔ status info' = statusNotFound).
Proof.
  apply (records_persist waking_state woken_state (drop 7 wake_schedule) "alpha"
           {| hostname := "vm-alpha"; ip := "10.0.0.5"; status := statusWaking;
              lastSeen := 0; wakeCh := Some 0%nat; wakeErr := None |}
           waking_state_reachable); vm_compute; reflexivity.
Defined.

(** X2.  The second critical section of lookup: the first writer wins.  A
    store for a key that already has a record, whatever the describe
    result and the time, returns that record and leaves the map as it
    is. *)
Theorem lookup_store_first_wins (k : string) (nodes1 nodes2 : list sdkNode)
    (now1 now2 : Time) (v : gmap string vmInfo) :
  lookup_store k nodes2 now2 (lookup_store k nodes1 now1 v).1
  = lookup_store k nodes1 now1 v.
Proof.
  pose proof (lookup_store_result k nodes1 now1 v) as Hk.
  destruct (lookup_store k nodes1 now1 v) as [v1 i1]. simpl in *.
  unfold lookup_store. by rewrite Hk.
Qed.

(** X3.  Only lookup creates records, and only for its key: the other critical
    sections leave the set of keys as it is, whether or not their key has
    a record. *)
Theorem only_lookup_adds_keys (k : string) (v : gmap string vmInfo) (ch : list bool) :
  (∀ nodes now, dom (lookup_store k nodes now v).1 = {[k]} ∪ dom v)
  ∧ (∀ now, dom (touchLastSeen k now v) = dom v)
  ∧ dom (markPaused k v) = dom v
  ∧ (∀ err v' ch', finishWake k err v ch = Some (v', ch') → dom v' = dom v)
  ∧ (∀ v' ch' d, initiateWake_locked k v ch = Some (v', ch', d) → dom v' = dom v).
Proof.
  assert (Hin : ∀ i (info : vmInfo), v !! k = Some i → dom (<[k := info]> v) = dom v).
  { intros i info Hk. rewrite dom_insert_L.
    assert (k ∈ dom v) by (apply elem_of_dom; eauto). set_solver. }
  split; [|split; [|split; [|split]]].
  - intros nodes now. unfold lookup_store. destruct (v !! k) as [i|] eqn:Hk; simpl.
    + assert (k ∈ dom v) by (apply elem_of_dom; eauto). set_solver.
    + apply dom_insert_L.
  - intros now. unfold touchLastSeen. destruct (v !! k) eqn:Hk; eauto.
  - unfold markPaused. destruct (v !! k) eqn:Hk; eauto.
  - intros err v' ch'. unfold finishWake. destruct (v !! k) as [i|] eqn:Hk;
      [|by intros [= <- <-]].
    destruct err; simpl; (destruct (wakeCh i); simpl;
      [destruct (close_chan _ _); simpl; [|done]|]); intros [= <- <-]; eauto.
  - intros v' ch' d. unfold initiateWake_locked. destruct (v !! k) as [i|] eqn:Hk; [|done].
    destruct (status i =? statusWaking); [by intros [= <- <- <-]|].
    destruct (status i =? statusRunning); [by intros [= <- <- <-]|].
    simpl. intros [= <- <- <-]. eauto.
Qed.

Lemma only_lookup_adds_keys_witness :
  dom (markPaused "nobody" (vms (mgr woken_state))) = dom (vms (mgr woken_state)).
Proof. apply (only_lookup_adds_keys "nobody" (vms (mgr woken_state)) []). Defined.

(** X4.  ensureRunning on a key seen for the first time.  Only the first node
    of the describe result is used.  If its status is exactly "Running",
    ensureRunning returns its IP and no wake is started; for every other
    status ("Paused", but also any other spelling) the record goes to
    Waking and a wake is started for the hostname of that node. *)
Theorem first_node_decides (describe : string → result (list sdkNode)) (now : Time)
    (k : string) (m : vmStateManager) (node : sdkNode) (rest : list sdkNode) :
  vms m !! k = None → describe k = Ok (node :: rest) →
  calls (ensureRunning describe now k m).1 = calls m ++ [GetHostGroupNodes k]
  ∧ (Status node = "Running" →
       (ensureRunning describe now k m).2 = Returns (Ok (IP node))
       ∧ status <$> vms (ensureRunning describe now k m).1 !! k = Some statusRunning)
  ∧ (Status node ≠ "Running" →
       (ensureRunning describe now k m).2
         = Waits (Some (List.length (chans m))) (Some (k, Hostname node))
       ∧ status <$> vms (ensureRunning describe now k m).1 !! k = Some statusWaking)
  ∧ ensureRunning describe now k m = ensureRunning (λ _, Ok [node]) now k m.
Proof.
  intros Hk Hd.
  assert (Hnew : ∀ d, d k = Ok (node :: rest) ∨ d k = Ok [node] →
            ensureRunning d now k m
            = ensureRunning_switch k (newInfo [node] now)
                (with_vms (<[k := newInfo [node] now]> (vms m))
                   (record_call (GetHostGroupNodes k) m))).
  { intros d Hcase. unfold ensureRunning, lookup. rewrite Hk.
    destruct Hcase as [-> | ->]; simpl; unfold lookup_store; simpl; by rewrite Hk. }
  rewrite (Hnew describe) by auto. rewrite (Hnew (λ _, Ok [node])) by auto.
  unfold ensureRunning_switch. simpl.
  destruct (String.eqb_spec (Status node) "Running") as [Hrun|Hrun].
  - simpl. rewrite lookup_insert_eq. done.
  - destruct (String.eqb (Status node) "Paused"); simpl;
      unfold initiateWake_locked, wait_channel; simpl;
      rewrite ?lookup_insert_eq; simpl; rewrite ?lookup_insert_eq; done.
Qed.

Lemma first_node_decides_witness :
  (ensureRunning (λ _, Ok [mkNode "vm-b" "10.0.0.6" "running"; mkNode "vm-c" "10.0.0.7" "Running"])
     3 "beta" (mgr woken_state)).2
  = Waits (Some 1%nat) (Some ("beta", "vm-b")).
Proof.
  apply (first_node_decides
           (λ _, Ok [mkNode "vm-b" "10.0.0.6" "running"; mkNode "vm-c" "10.0.0.7" "Running"])
           3 "beta" (mgr woken_state) (mkNode "vm-b" "10.0.0.6" "running")
           [mkNode "vm-c" "10.0.0.7" "Running"]);
    [vm_compute; reflexivity | reflexivity | done].
Defined.

(** X5.  A key for which the control plane reports no node is cached as
    NotFound: ensureRunning fails with "not found", and every later
    ensureRunning for the key fails in the same way without a call,
    whatever the control plane would answer by then. *)
Theorem notfound_is_cached (describe : string → result (list sdkNode)) (now : Time)
    (k : string) (m : vmStateManager) :
  vms m !! k = None → describe k = Ok [] →
  (ensureRunning describe now k m).2 = Returns (Err (ErrNotFound k))
  ∧ calls (ensureRunning describe now k m).1 = calls m ++ [GetHostGroupNodes k]
  ∧ ∀ describe' now',
      ensureRunning describe' now' k (ensureRunning describe now k m).1
      = ((ensureRunning describe now k m).1, Returns (Err (ErrNotFound k))).
Proof.
  intros Hk Hd.
  assert (Hfirst : ensureRunning describe now k m
                   = (with_vms (<[k := newInfo [] now]> (vms m))
                        (record_call (GetHostGroupNodes k) m),
                      Returns (Err (ErrNotFound k)))).
  { unfold ensureRunning, lookup. rewrite Hk, Hd. simpl. unfold lookup_store.
    simpl. by rewrite Hk. }
  rewrite Hfirst. simpl. split; [done|]. split; [done|].
  intros describe' now'. unfold ensureRunning, lookup. simpl.
  by rewrite lookup_insert_eq.
Qed.

Lemma notfound_is_cached_witness :
  (ensureRunning (λ _, Ok []) 3 "ghost" newVMStateManager).2
  = Returns (Err (ErrNotFound "ghost")).
Proof.
  apply (notfound_is_cached (λ _, Ok []) 3 "ghost" newVMStateManager);
    [vm_compute; reflexivity | reflexivity].
Defined.

(** X6.  finishWake closes the wake channel and keeps the field: run a second
    time for the same record, with no wake started in between, it closes
    the closed channel, which panics.  In the process this does not
    happen: a [doWake] goroutine that has its answer can always run
    finishWake. *)
Theorem finishWake_twice_panics (k : string) (err err' : option error)
    (v : gmap string vmInfo) (ch : list bool) (info : vmInfo) (c : chanId) :
  v !! k = Some info → wakeCh info = Some c →
  (∀ v' ch', finishWake k err v ch = Some (v', ch') →
             finishWake k err' v' ch' = None)
  ∧ (∀ s i w e, reachable s → wakes s !! i = Some w → wpc w = WakeReturned e →
       is_Some (step (WakeFinish i) s)).
Proof.
  intros Hk Hc. split.
  - intros v' ch'. unfold finishWake at 1. rewrite Hk.
    assert (Hc1 : ∀ st, wakeCh (set_status st (set_wakeErr err info)) = Some c) by done.
    destruct err as [e|]; simpl; rewrite Hc; simpl;
      (unfold close_chan; destruct (ch !! c) as [[|]|] eqn:Hch; simpl; [done| |done];
       intros [= <- <-]; unfold finishWake; rewrite lookup_insert_eq;
       destruct err'; simpl; rewrite Hc; simpl;
       unfold close_chan;
       rewrite list_lookup_insert_eq by (by eapply lookup_lt_Some); done).
  - intros s i w e Hcoh%reachable_coherent Hi Hpc. destruct Hcoh as [H1 H2 _ _].
    assert (Hfl : in_flight w) by (unfold in_flight; by rewrite Hpc).
    destruct (wi_waking _ _ H2 _ _ Hi Hfl) as (i0 & Hk0 & Hst).
    destruct (ri_waking _ _ H1 _ _ Hk0 Hst) as (c0 & Hc0 & Hopen).
    simpl. rewrite Hi. simpl. rewrite Hpc.
    rewrite (finish_returns _ e _ _ _ _ H1 Hk0 Hst Hc0). simpl. eauto.
Qed.

Lemma finishWake_twice_panics_witness :
  ∃ v' ch',
    finishWake "alpha" None (vms (mgr waking_state)) (chans (mgr waking_state))
    = Some (v', ch')
    ∧ finishWake "alpha" (Some (ErrRemote "late")) v' ch' = None.
Proof.
  destruct (finishWake "alpha" None (vms (mgr waking_state)) (chans (mgr waking_state)))
    as [[v' ch']|] eqn:E; [|by vm_compute in E].
  exists v', ch'. split; [done|].
  eapply (finishWake_twice_panics "alpha" None (Some (ErrRemote "late"))
            (vms (mgr waking_state)) (chans (mgr waking_state))
            {| hostname := "vm-alpha"; ip := "10.0.0.5"; status := statusWaking;
               lastSeen := 0; wakeCh := Some 0%nat; wakeErr := None |} 0%nat);
    [vm_compute; reflexivity | reflexivity | exact E].
Defined.

(** ** A tick of the watcher, key by key *)

Lemma getHostname_markPaused a k (v : gmap string vmInfo) :
  getHostname a (markPaused k v) = getHostname a v.
Proof.
  unfold getHostname. rewrite markPaused_lookup.
  case_decide; [|done]. subst. by destruct (v !! a).
Qed.

Lemma pauseLoop_records pauseVM idle m log k :
  NoDup idle →
  (pauseLoop pauseVM idle m log).2 = TickCompleted →
  vms (pauseLoop pauseVM idle m log).1.1 !! k
  = (λ info, if bool_decide (k ∈ idle) && tick_pauses pauseVM info
             then set_status statusPaused info else info) <$> vms m !! k.
Proof.
  revert m log. induction idle as [|a idle IH]; intros m log Hnd.
  - simpl. by destruct (vms m !! k).
  - apply NoDup_cons in Hnd as [Hnotin Hnd]. cbn [pauseLoop].
    destruct (decide (k = a)) as [->|Hne].
    + (* the key at the head of the list *)
      rewrite (bool_decide_eq_true_2 (a ∈ a :: idle)) by set_solver.
      assert (Hout : bool_decide (a ∈ idle) = false) by (by apply bool_decide_eq_false_2).
      unfold getHostname. destruct (vms m !! a) as [info|] eqn:Ha; simpl.
      * unfold tick_pauses.
        destruct (String.eqb (hostname info) "") eqn:Hh; simpl.
        { intros Hend. rewrite IH, Ha, Hout by done. done. }
        destruct (pauseVM (hostname info)) as [|e|v0] eqn:Hresp.
        { intros Hend. rewrite IH by done. simpl.
          rewrite markPaused_lookup, Ha, decide_True by done.
          simpl. by rewrite Hout. }
        { intros Hend. rewrite IH by done. simpl. by rewrite Ha, Hout. }
        { done. }
      * intros Hend. rewrite IH, Ha by done. done.
    + rewrite (bool_decide_ext (k ∈ a :: idle) (k ∈ idle)) by set_solver.
      destruct (String.eqb (getHostname a (vms m)) ""); [by apply IH|].
      destruct (pauseVM (getHostname a (vms m))) as [|e|v0] eqn:Hresp.
      * intros Hend. rewrite IH by done. simpl. by rewrite markPaused_lookup, decide_False.
      * intros Hend. by rewrite IH.
      * done.
Qed.

Lemma pauseLoop_calls pauseVM idle m log :
  (pauseLoop pauseVM idle m log).2 = TickCompleted →
  calls (pauseLoop pauseVM idle m log).1.1
  = calls m ++ (PauseVM <$> pause_targets idle (vms m)).
Proof.
  unfold pause_targets. revert m log.
  induction idle as [|a idle IH]; intros m log; cbn [pauseLoop].
  - simpl. by rewrite app_nil_r.
  - rewrite fmap_cons, filter_cons.
    destruct (String.eqb_spec (getHostname a (vms m)) "") as [Hh|Hh].
    + rewrite decide_False by (by intros ?). apply IH.
    + rewrite decide_True by done.
      assert (Hsame : ∀ v, (λ a0, getHostname a0 (markPaused a v)) <$> idle
                           = (λ a0, getHostname a0 v) <$> idle).
      { intros v. apply list_fmap_ext. intros ? a0 _. apply getHostname_markPaused. }
      destruct (pauseVM (getHostname a (vms m))) as [|e|v0] eqn:Hresp.
      * intros Hend. rewrite IH by done. simpl. rewrite Hsame, <- app_assoc. done.
      * intros Hend. rewrite IH by done. simpl. by rewrite <- app_assoc.
      * done.
Qed.

(** X11.  Fault isolation in one tick.  A tick that completes (PauseVM did not
    panic) leaves every record as it was, except those of the idle keys
    with a hostname for which PauseVM returned nil, which become Paused
    with their other fields unchanged: an error of PauseVM for one key
    changes nothing for the other keys, and records are neither added nor
    removed. *)
Theorem pauseIdleVMs_records (pauseVM : string → pauseResp) (it : Duration)
    (now : Time) (m : vmStateManager) (log : list logLine) (k : string) :
  (pauseIdleVMs pauseVM it now m log).2 = TickCompleted →
  vms (pauseIdleVMs pauseVM it now m log).1.1 !! k
  = (λ info, if is_idle now it info && tick_pauses pauseVM info
             then set_status statusPaused info else info) <$> vms m !! k.
Proof.
  unfold pauseIdleVMs. intros Hend.
  rewrite pauseLoop_records by (apply NoDup_idleApps || done).
  destruct (vms m !! k) as [info|] eqn:Hk; simpl; [|done].
  assert (Hiff : bool_decide (k ∈ idleApps it now (vms m)) = is_idle now it info).
  { destruct (is_idle now it info) eqn:Hidle.
    - apply bool_decide_eq_true_2, elem_of_idleApps.
      apply is_idle_spec in Hidle. naive_solver.
    - apply bool_decide_eq_false_2. intros (i & Hi & Hst & Hlt)%elem_of_idleApps.
      rewrite Hk in Hi. injection Hi as <-.
      assert (is_idle now it info = true) by (by apply is_idle_spec). congruence. }
  by rewrite Hiff.
Qed.

Lemma pauseIdleVMs_records_witness :
  vms (pauseIdleVMs (λ h, if String.eqb h "vm-alpha" then PauseFails (ErrRemote "busy")
                          else PauseOk)
         60 1000 (mgr woken_state) []).1.1 !! "alpha"
  = Some {| hostname := "vm-alpha"; ip := "10.0.0.5"; status := statusRunning;
            lastSeen := 0; wakeCh := Some 0%nat; wakeErr := None |}.
Proof.
  rewrite (pauseIdleVMs_records
             (λ h, if String.eqb h "vm-alpha" then PauseFails (ErrRemote "busy") else PauseOk)
             60 1000 (mgr woken_state) [] "alpha"); vm_compute; reflexivity.
Defined.

(** X12.  The calls of one tick.  A tick that completes makes one PauseVM call
    for each idle key whose record has a hostname, with that hostname, and
    no other call: every VM it asks to pause is that of a Running record
    whose last activity is more than the idle timeout ago. *)
Theorem pauseIdleVMs_calls (pauseVM : string → pauseResp) (it : Duration)
    (now : Time) (m : vmStateManager) (log : list logLine) :
  (pauseIdleVMs pauseVM it now m log).2 = TickCompleted →
  calls (pauseIdleVMs pauseVM it now m log).1.1
  = calls m ++ (PauseVM <$> pause_targets (idleApps it now (vms m)) (vms m))
  ∧ (∀ host, host ∈ pause_targets (idleApps it now (vms m)) (vms m) →
       host ≠ "" ∧ ∃ k info, vms m !! k = Some info ∧ hostname info = host
                             ∧ status info = statusRunning
                             ∧ it < time_Sub now (lastSeen info)).
Proof.
  intros Hend. split; [by apply pauseLoop_calls|].
  intros host Hin.
  unfold pause_targets in Hin. apply list_elem_of_filter in Hin as [Hne Hin].
  split; [done|]. apply list_elem_of_fmap in Hin as (a & -> & Ha).
  apply elem_of_idleApps in Ha as (info & Hk & Hst & Hlt).
  exists a, info. unfold getHostname. rewrite Hk. done.
Qed.

Lemma pauseIdleVMs_calls_witness :
  calls (pauseIdleVMs pause_works 60 1000 (mgr woken_state) []).1.1
  = calls (mgr woken_state) ++ [PauseVM "vm-alpha"].
Proof.
  refine (eq_trans (proj1 (pauseIdleVMs_calls pause_works 60 1000 (mgr woken_state) [] _)) _);
    vm_compute; reflexivity.
Defined.

(** ** The watcher as a whole *)

Lemma paused_only_refl m : paused_only m m.
Proof.
  split; [done|]. split.
  - exists []. simpl. rewrite app_nil_r. set_solver.
  - intros k. destruct (vms m !! k); auto.
Qed.

Lemma paused_only_trans m1 m2 m3 :
  paused_only m1 m2 → paused_only m2 m3 → paused_only m1 m3.
Proof.
  intros (Hc1 & (h1 & Hl1 & Hn1) & Hr1) (Hc2 & (h2 & Hl2 & Hn2) & Hr2).
  split; [congruence|]. split.
  - exists (h1 ++ h2). rewrite Hl2, Hl1, fmap_app, app_assoc. split; [done|].
    set_solver.
  - intros k. specialize (Hr1 k). specialize (Hr2 k).
    destruct (vms m1 !! k) as [i1|].
    + destruct Hr1 as [Hr1 | [Hst Hr1]]; rewrite Hr1 in Hr2.
      * destruct Hr2 as [Hr2 | [Hst2 Hr2]]; auto.
      * destruct Hr2 as [Hr2 | [Hst2 Hr2]]; [auto | done].
    + by rewrite Hr1 in Hr2.
Qed.

Lemma pauseLoop_paused_only pauseVM idle m0 m log :
  (∀ a info, a ∈ idle → vms m0 !! a = Some info → status info = statusRunning) →
  paused_only m0 m → paused_only m0 (pauseLoop pauseVM idle m log).1.1.
Proof.
  revert m log. induction idle as [|a idle IH]; intros m log Hrun Hrel; [done|].
  assert (Hrun' : ∀ a0 info, a0 ∈ idle → vms m0 !! a0 = Some info →
                    status info = statusRunning).
  { intros a0 info Hin. apply Hrun. set_solver. }
  cbn [pauseLoop].
  destruct (String.eqb_spec (getHostname a (vms m)) "") as [Hh|Hh]; [by apply IH|].
  assert (Hcall : paused_only m0 (record_call (PauseVM (getHostname a (vms m))) m)).
  { destruct Hrel as (Hc & (hs & Hl & Hn) & Hr). split; [done|]. split; [|done].
    exists (hs ++ [getHostname a (vms m)]). simpl.
    rewrite Hl, fmap_app, app_assoc. split; [done|].
    intros [?|Hin%list_elem_of_singleton]%elem_of_app; [done | by apply Hh]. }
  destruct (pauseVM (getHostname a (vms m))) as [|e|v0].
  - apply IH; [done|].
    destruct Hcall as (Hc & Hcalls & Hr). split; [done|]. split; [done|].
    intros k. specialize (Hr k). simpl in *. rewrite markPaused_lookup.
    destruct (decide (a = k)) as [->|Hne]; [|done].
    destruct (vms m0 !! k) as [i0|] eqn:Hk0.
    + right. split; [apply (Hrun k i0); [set_solver | done]|].
      destruct Hr as [-> | [_ ->]]; done.
    + by rewrite Hr.
  - by apply IH.
  - done.
Qed.

Lemma watchLoop_paused_only it events m log n :
  paused_only m (run_mgr (watchLoop it events m log n)).
Proof.
  revert m log n. induction events as [|[|now pauseVM] events IH]; intros m log n; simpl;
    try apply paused_only_refl.
  assert (Htick : paused_only m (pauseIdleVMs pauseVM it now m log).1.1).
  { apply pauseLoop_paused_only; [|apply paused_only_refl].
    intros a info (i & Hi & Hst & _)%elem_of_idleApps Ha. congruence. }
  destruct (pauseIdleVMs pauseVM it now m log) as [[m' log'] [|v]]; simpl in *; [|done].
  eapply paused_only_trans; [exact Htick | apply IH].
Qed.

(** X14.  What the watcher never does.  Whatever the ticks, the answers of
    PauseVM and the time at which it stops (cancellation or panic), the
    idle watcher only calls PauseVM, never with an empty hostname, leaves
    the wake channels alone, adds and removes no record, and changes a
    record only by taking its status from Running to Paused. *)
Theorem watcher_only_pauses (it : Duration) (events : list event)
    (m : vmStateManager) (log : list logLine) :
  paused_only m (run_mgr (runIdleWatcher it events m log))
  ∧ ∀ k info', vms (run_mgr (runIdleWatcher it events m log)) !! k = Some info' →
      ∃ info, vms m !! k = Some info
        ∧ hostname info' = hostname info ∧ ip info' = ip info
        ∧ lastSeen info' = lastSeen info ∧ wakeCh info' = wakeCh info
        ∧ wakeErr info' = wakeErr info
        ∧ (status info' = status info
           ∨ (status info = statusRunning ∧ status info' = statusPaused)).
Proof.
  assert (H : paused_only m (run_mgr (runIdleWatcher it events m log))).
  { unfold runIdleWatcher.
    pose proof (watchLoop_paused_only it events m
                  (log ++ [LogInfo "idle watcher started"]) 0) as Hw.
    by destruct (run_end _). }
  split; [exact H|]. intros k info' Hk'.
  destruct H as (_ & _ & Hr). specialize (Hr k).
  destruct (vms m !! k) as [info|]; [|congruence].
  exists info. split; [done|].
  destruct Hr as [Hr | [Hst Hr]]; rewrite Hr in Hk'; injection Hk' as <-; simpl; auto 10.
Qed.






(** ** The configuration *)

(** X17.  Provision then Validate.  Caddy provisions a module before it
    validates it, so the defaults are in place when Validate runs: a
    configuration is accepted exactly when the URL and the token are set,
    the idle timeout is unset or at least 30 s and the port is unset or in
    1..65535.  The wake timeout and the watch interval are not checked:
    any non-zero value, negative ones included, is kept and accepted. *)
Theorem Validate_after_Provision (rs : SlicerVM) :
  (Validate (Provision_defaults rs) = None ↔
     SlicerURL rs ≠ "" ∧ SlicerToken rs ≠ ""
     ∧ (IdleTimeout rs = 0 ∨ 30 * second ≤ IdleTimeout rs)
     ∧ (AppPort rs = 0 ∨ 1 ≤ AppPort rs ≤ 65535))
  ∧ Provision_defaults (Provision_defaults rs) = Provision_defaults rs
  ∧ (WakeTimeout (Provision_defaults rs) ≠ 0 ∧ WatchInterval (Provision_defaults rs) ≠ 0
     ∧ (WakeTimeout rs ≠ 0 → WakeTimeout (Provision_defaults rs) = WakeTimeout rs)
     ∧ (WatchInterval rs ≠ 0 → WatchInterval (Provision_defaults rs) = WatchInterval rs)).
Proof.
  destruct rs as [url tok it wt port wi]. unfold Validate, Provision_defaults, minute, second.
  simpl. split; [|split].
  - destruct (String.eqb_spec url ""); [naive_solver|].
    destruct (String.eqb_spec tok ""); [naive_solver|].
    destruct (Z.eqb_spec it 0), (Z.eqb_spec port 0); subst; simpl;
      repeat match goal with
             | |- context [?a <? ?b] => destruct (Z.ltb_spec a b); simpl
             end;
      (split; [intros ?; try done; repeat split; try done; lia
              | intros (_ & _ & ? & ?); try done; lia]).
  - f_equal.
    + destruct (Z.eqb_spec it 0); simpl; [done|]. by destruct (Z.eqb_spec it 0).
    + destruct (Z.eqb_spec wt 0); simpl; [done|]. by destruct (Z.eqb_spec wt 0).
    + destruct (Z.eqb_spec port 0); simpl; [done|]. by destruct (Z.eqb_spec port 0).
    + destruct (Z.eqb_spec wi 0); simpl; [done|]. by destruct (Z.eqb_spec wi 0).
  - destruct (Z.eqb_spec wt 0), (Z.eqb_spec wi 0); repeat split; try done; lia.
Qed.

(** X16.  A negative watch interval.  Validate gives the configuration the
    verdict it gives with the interval left unset, and Provision keeps
    the interval; [time.NewTicker] then panics in the watcher goroutine,
    the deferred function recovers, and the watcher returns before its
    first tick: no VM of this instance is ever paused. *)
Theorem negative_interval_no_watcher (rs : SlicerVM) (events : list event)
    (m : vmStateManager) (log : list logLine) :
  WatchInterval rs < 0 →
  Validate (Provision_defaults rs)
  = Validate (Provision_defaults
                (mkSlicerVM (SlicerURL rs) (SlicerToken rs) (IdleTimeout rs)
                   (WakeTimeout rs) (AppPort rs) 0))
  ∧ WatchInterval (Provision_defaults rs) = WatchInterval rs
  ∧ let r := runIdleWatcher_ticker (WatchInterval (Provision_defaults rs))
               (IdleTimeout (Provision_defaults rs)) events m log in
    run_mgr r = m ∧ run_ticks r = 0%nat
    ∧ run_end r = ReturnedOnPanic "non-positive interval for NewTicker"
    ∧ run_log r = log ++ [LogError "idle watcher panic recovered"].
Proof.
  intros Hneg. split; [done|].
  unfold runIdleWatcher_ticker, Provision_defaults. simpl.
  destruct (Z.eqb_spec (WatchInterval rs) 0); [lia|]. split; [done|].
  destruct (Z.leb_spec (WatchInterval rs) 0); [done | lia].
Qed.

Lemma negative_interval_no_watcher_witness :
  Validate (Provision_defaults (mkSlicerVM "http://127.0.0.1:8080" "secret" 0 0 0 (-1)))
  = None
  ∧ run_ticks (runIdleWatcher_ticker
                 (WatchInterval (Provision_defaults
                    (mkSlicerVM "http://127.0.0.1:8080" "secret" 0 0 0 (-1))))
                 (IdleTimeout (Provision_defaults
                    (mkSlicerVM "http://127.0.0.1:8080" "secret" 0 0 0 (-1))))
                 [TickerFires (400 * second) pause_works] (mgr woken_state) []) = 0%nat.
Proof.
  split; [vm_compute; reflexivity|].
  apply (negative_interval_no_watcher
           (mkSlicerVM "http://127.0.0.1:8080" "secret" 0 0 0 (-1))
           [TickerFires (400 * second) pause_works] (mgr woken_state) []).
  reflexivity.
Defined.

(** ** The registry of watchers *)

Lemma lifecycle_run_snoc ops op g :
  lifecycle_run (ops ++ [op]) g = lifecycle_step op (lifecycle_run ops g).
Proof. unfold lifecycle_run. by rewrite foldl_app. Qed.

(** The registry points to contexts that exist and are live, and no two
    instances share a context. *)
Record registry_inv (g : registry) : Prop := mkRegistryInv {
  gi_live : ∀ rs c, watcherCancels g !! rs = Some c → ctx_live g c;
  gi_inj : ∀ rs1 rs2 c, watcherCancels g !! rs1 = Some c →
             watcherCancels g !! rs2 = Some c → rs1 = rs2;
}.

Lemma registry_inv_step op g : registry_inv g → registry_inv (lifecycle_step op g).
Proof.
  intros [Hlive Hinj]. destruct op as [rs|rs]; simpl.
  - assert (Hlt : ∀ rs' c, watcherCancels g !! rs' = Some c → (c < List.length (ctxs g))%nat).
    { intros rs' c Hc. apply Hlive in Hc. by eapply lookup_lt_Some. }
    split; unfold ctx_live; simpl.
    + intros rs' c. destruct (decide (rs = rs')) as [->|Hne].
      * rewrite lookup_insert_eq. intros [= <-].
        rewrite lookup_app_r by lia. by rewrite Nat.sub_diag.
      * rewrite lookup_insert_ne by done. intros Hc.
        rewrite lookup_app_l by eauto. by apply Hlive in Hc.
    + intros rs1 rs2 c.
      destruct (decide (rs1 = rs)) as [->|Hne1], (decide (rs2 = rs)) as [->|Hne2];
        rewrite ?lookup_insert_eq, ?lookup_insert_ne by done; try done.
      * intros [= <-] Hc%Hlt. lia.
      * intros Hc%Hlt [= <-]. lia.
      * apply Hinj.
  - unfold stopIdleWatcher. destruct (watcherCancels g !! rs) as [c|] eqn:Hrs; [|done].
    split; unfold ctx_live; simpl.
    + intros rs' c' [Hne Hc']%lookup_delete_Some.
      rewrite list_lookup_insert_ne; [by apply Hlive in Hc'|].
      intros <-. destruct Hne. by eapply Hinj.
    + intros rs1 rs2 c' [_ H1]%lookup_delete_Some [_ H2]%lookup_delete_Some. eauto.
Qed.

Lemma registry_inv_run ops g : registry_inv g → registry_inv (lifecycle_run ops g).
Proof.
  induction ops as [|op ops IH] using rev_ind; [done|].
  intros Hg. rewrite lifecycle_run_snoc. by apply registry_inv_step, IH.
Qed.

Lemma registry_inv_init : registry_inv no_watchers.
Proof. split; simpl; intros *; by rewrite lookup_empty. Qed.

(** X18.  Provision then Cleanup.  Whatever has been provisioned and cleaned up
    before, Cleanup of an instance cancels the context its last Provision
    created, cancels no other context, and forgets the instance; a second
    Cleanup does nothing. *)
Theorem stop_cancels_own_watcher (ops : list lifecycle) (rs : nat) :
  let g := lifecycle_run ops no_watchers in
  let g1 := (startIdleWatcher rs g).1 in
  let ctx := (startIdleWatcher rs g).2 in
  ctx_live g1 ctx
  ∧ ctxs (stopIdleWatcher rs g1) !! ctx = Some true
  ∧ (∀ c, c ≠ ctx → ctxs (stopIdleWatcher rs g1) !! c = ctxs g !! c)
  ∧ watcherCancels (stopIdleWatcher rs g1) = delete rs (watcherCancels g)
  ∧ stopIdleWatcher rs (stopIdleWatcher rs g1) = stopIdleWatcher rs g1.
Proof.
  intros g g1 ctx. subst g1 ctx. unfold stopIdleWatcher, ctx_live. simpl.
  rewrite lookup_insert_eq. simpl.
  rewrite lookup_delete_eq.
  assert (Hlen : (List.length (ctxs g) < List.length (ctxs g ++ [false]))%nat)
    by (rewrite length_app; simpl; lia).
  split; [|split; [|split; [|split]]].
  - rewrite lookup_app_r by lia. by rewrite Nat.sub_diag.
  - by rewrite list_lookup_insert_eq.
  - intros c Hc. rewrite list_lookup_insert_ne by done.
    destruct (decide (c < List.length (ctxs g))%nat).
    + by rewrite lookup_app_l.
    + rewrite !lookup_ge_None_2; [done | lia | rewrite length_app; simpl; lia].
  - by rewrite delete_insert_eq.
  - done.
Qed.

Lemma orphan_step op g c :
  ctx_live g c → (∀ rs, watcherCancels g !! rs ≠ Some c) →
  ctx_live (lifecycle_step op g) c
  ∧ ∀ rs, watcherCancels (lifecycle_step op g) !! rs ≠ Some c.
Proof.
  intros Hl Hf. destruct op as [rs0|rs0]; simpl; unfold ctx_live in *.
  - simpl. split.
    + rewrite lookup_app_l; [done | by eapply lookup_lt_Some].
    + intros rs'. destruct (decide (rs0 = rs')) as [->|Hne].
      * rewrite lookup_insert_eq. intros [= <-].
        apply lookup_lt_Some in Hl. lia.
      * rewrite lookup_insert_ne by done. apply Hf.
  - unfold stopIdleWatcher.
    destruct (watcherCancels g !! rs0) as [c0|] eqn:Hrs0; [|done]. simpl. split.
    + rewrite list_lookup_insert_ne; [done|]. intros ->. by apply (Hf rs0).
    + intros rs' [_ Hc]%lookup_delete_Some. by apply (Hf rs').
Qed.

Lemma orphan_run ops g c :
  ctx_live g c → (∀ rs, watcherCancels g !! rs ≠ Some c) →
  ctx_live (lifecycle_run ops g) c
  ∧ ∀ rs, watcherCancels (lifecycle_run ops g) !! rs ≠ Some c.
Proof.
  induction ops as [|op ops IH] using rev_ind; intros Hl Hf; [done|].
  rewrite lifecycle_run_snoc. destruct (IH Hl Hf). by apply orphan_step.
Qed.

(** X19.  A second Provision of the same instance without a Cleanup in between
    replaces the cancel function: nothing that is provisioned or cleaned
    up afterwards cancels the context of the first watcher, which keeps
    running. *)
Theorem second_start_orphans_first (before after : list lifecycle) (rs : nat) :
  let g := lifecycle_run before no_watchers in
  let ctx := (startIdleWatcher rs g).2 in
  ctx_live (lifecycle_run (DoProvision rs :: DoProvision rs :: after) g) ctx.
Proof.
  intros g ctx. subst ctx. simpl.
  set (g2 := (startIdleWatcher rs (startIdleWatcher rs g).1).1).
  change (lifecycle_run (DoProvision rs :: DoProvision rs :: after) g)
    with (lifecycle_run after g2).
  apply orphan_run; subst g2; unfold ctx_live; simpl.
  - rewrite lookup_app_l by (rewrite length_app; simpl; lia).
    rewrite lookup_app_r by lia. by rewrite Nat.sub_diag.
  - intros rs'. rewrite insert_insert_eq.
    destruct (decide (rs = rs')) as [->|Hne].
    + rewrite lookup_insert_eq, length_app. simpl. intros [= ?]. lia.
    + rewrite lookup_insert_ne by done. intros Hc.
      pose proof (registry_inv_run before _ registry_inv_init) as [Hlive _].
      apply Hlive in Hc. apply lookup_lt_Some in Hc. fold g in Hc. lia.
Qed.

(** ** What the calls and the results refer to *)

Lemma step_keeps a s s' :
  coherent s → step a s = Some s' → keeps (vms (mgr s)) (vms (mgr s')).
Proof.
  intros Hcoh Hstep k info Hk.
  destruct (step_records _ _ _ k Hcoh Hstep _ Hk) as (info' & n & Hk' & Hh & Hi & Htr & _).
  exists info'. split; [done|]. split; [done|]. split; [done|].
  by apply (transition_notfound_iff n).
Qed.

Lemma keeps_refl v : keeps v v.
Proof. intros k info Hk. by exists info. Qed.

Lemma names_record_keeps v v' k host :
  keeps v v' → names_record v k host → names_record v' k host.
Proof.
  intros Hkeep (info & Hk & Hh & Hnf).
  destruct (Hkeep _ _ Hk) as (info' & Hk' & Hh' & _ & Hiff).
  exists info'. split; [done|]. split; [congruence|]. by rewrite <- Hiff.
Qed.

Lemma found_keeps v v' k : keeps v v' → found v k → found v' k.
Proof.
  intros Hkeep (info & Hk & Hnf).
  destruct (Hkeep _ _ Hk) as (info' & Hk' & _ & _ & Hiff).
  exists info'. split; [done|]. by rewrite <- Hiff.
Qed.

Lemma call_ok_keeps v v' c : keeps v v' → call_ok v c → call_ok v' c.
Proof.
  intros Hkeep. destruct c as [app|host|host]; simpl; [done| |].
  - intros [k Hk]. exists k. by eapply names_record_keeps.
  - intros [Hne [k Hk]]. split; [done|]. exists k. by eapply names_record_keeps.
Qed.

Lemma watch_ok_keeps v v' p : keeps v v' → watch_ok v p → watch_ok v' p.
Proof.
  intros Hkeep. destruct p; simpl; try done.
  intros [Hne Hk]. split; [done|]. by eapply names_record_keeps.
Qed.

Lemma result_ok_keeps v v' r : keeps v v' → result_ok v r → result_ok v' r.
Proof.
  intros Hkeep. unfold result_ok.
  destruct (rpc r) as [| | | | | |c|[addr|e]|]; try done;
    try (by apply found_keeps).
  - intros (info & Hk & Hi & Hnf).
    destruct (Hkeep _ _ Hk) as (info' & Hk' & _ & Hi' & Hiff).
    exists info'. split; [done|]. split; [congruence|]. by rewrite <- Hiff.
  - destruct e; simpl; try done.
    + intros [-> (info & Hk & Hnf)]. split; [done|].
      destruct (Hkeep _ _ Hk) as (info' & Hk' & _ & _ & Hiff).
      exists info'. split; [done|]. by apply Hiff.
    + intros [-> Hf]. split; [done|]. by eapply found_keeps.
    + intros (-> & -> & Hf). split; [done|]. split; [done|]. by eapply found_keeps.
    + by apply found_keeps.
Qed.

(** How a step is shown to preserve [traced]: what is new in the state
    after the step is justified in that state; the rest was in the state
    before. *)
Lemma traced_intro s s' :
  keeps (vms (mgr s)) (vms (mgr s')) → traced s →
  (∀ c, c ∈ calls (mgr s') → c ∈ calls (mgr s) ∨ call_ok (vms (mgr s')) c) →
  (∀ i w, wakes s' !! i = Some w →
     (∃ j w0, wakes s !! j = Some w0 ∧ wkey w0 = wkey w ∧ whost w0 = whost w)
     ∨ names_record (vms (mgr s')) (wkey w) (whost w)) →
  (watcher s' = watcher s ∨ watch_ok (vms (mgr s')) (watcher s')) →
  (∀ t r, reqs s' !! t = Some r →
     reqs s !! t = Some r ∨ result_ok (vms (mgr s')) r) →
  traced s'.
Proof.
  intros Hkeep [Hc Hw Hp Hr] Hc' Hw' Hp' Hr'. split.
  - intros c [Hin|Hok]%Hc'; [|done]. eapply call_ok_keeps; eauto.
  - intros i w [(j & w0 & Hj & <- & <-)|Hok]%Hw'; [|done].
    eapply names_record_keeps; eauto.
  - destruct Hp' as [-> | Hok]; [|done]. eapply watch_ok_keeps; eauto.
  - intros t r [Hin|Hok]%Hr'; [|done]. eapply result_ok_keeps; eauto.
Qed.

Lemma goto_reqs_cases (rs : list request) t r pc t' r' :
  <[t := mkReq (rkey r) (rtimeout r) pc]> rs !! t' = Some r' →
  rs !! t' = Some r' ∨ r' = mkReq (rkey r) (rtimeout r) pc.
Proof.
  intros [(-> & <- & _) | [_ H]]%list_lookup_insert_Some; auto.
Qed.

Lemma wake_insert_cases (ws : list wake) i w pc j w' :
  ws !! i = Some w →
  <[i := mkWake (wkey w) (whost w) pc]> ws !! j = Some w' →
  ∃ j0 w0, ws !! j0 = Some w0 ∧ wkey w0 = wkey w' ∧ whost w0 = whost w'.
Proof.
  intros Hi [(-> & <- & _) | [_ H]]%list_lookup_insert_Some; eauto.
Qed.

Lemma switch_status_DNotFound st : switch_status st = DNotFound → st = statusNotFound.
Proof.
  unfold switch_status. destruct (Z.eqb_spec st statusNotFound); [done|].
  destruct (st =? statusRunning); [done|]. destruct (st =? statusWaking); [done|].
  by destruct ((st =? statusPaused) || (st =? statusUnknown)).
Qed.

Lemma switch_status_other st :
  switch_status st = DRunning ∨ switch_status st = DWaking ∨ switch_status st = DWake →
  st ≠ statusNotFound.
Proof.
  unfold switch_status. destruct (Z.eqb_spec st statusNotFound); [|done].
  intros [?|[?|?]]; done.
Qed.

(** A step of a request that leaves the manager and the other goroutines
    alone. *)
Lemma traced_goto s t r pc :
  traced s → result_ok (vms (mgr s)) (mkReq (rkey r) (rtimeout r) pc) →
  traced (goto t r pc s).
Proof.
  intros Htr Hnew. apply (traced_intro s); simpl; auto using keeps_refl.
  - intros i w Hi. left. eauto.
  - intros t' r' [?| ->]%goto_reqs_cases; auto.
Qed.

(** Applies [traced_intro] and closes the obligations of the parts of the
    state the step has not changed. *)
Ltac traced_step s :=
  apply (traced_intro s); simpl;
  [ done | done
  | try (intros ? ?; by left)
  | try (intros ? ? ?; left; by eauto)
  | try (by left)
  | try (intros ? ? ?; by left) ].

Lemma req_step_traced s t r s' :
  coherent s → traced s → reqs s !! t = Some r → req_step t r s = Some s' → traced s'.
Proof.
  intros Hcoh Htr Ht Hstep.
  assert (Hkeep : keeps (vms (mgr s)) (vms (mgr s'))).
  { apply (step_keeps (ReqStep t)); [done|]. simpl. by rewrite Ht. }
  pose proof Hcoh as [H1 H2 H3 H4].
  pose proof (H4 _ _ Ht) as Hr. pose proof (tr_reqs _ Htr _ _ Ht) as Hres.
  revert Hstep Hkeep. unfold req_step. unfold req_ok in Hr. unfold result_ok in Hres.
  destruct (rpc r) as [| |nodes| | | |[c|]|[addr|e]|] eqn:Hpc; try done.
  - (* AtLookup *)
    destruct (vms (mgr s) !! rkey r) eqn:Hk; intros [= <-] _; by apply traced_goto.
  - (* AtStore *)
    destruct (lookup_store (rkey r) nodes (clock s) (vms (mgr s))) as [v i] eqn:E.
    intros [= <-] Hkeep. traced_step s.
    intros t' r' [?| ->]%goto_reqs_cases; [by left | by right].
  - (* AtSwitch *)
    destruct Hr as [info Hk]. rewrite Hk. simpl. intros [= <-] _.
    apply traced_goto; [done|]. unfold result_ok; simpl.
    pose proof (switch_status_handled _ (ri_status _ _ H1 _ _ Hk)) as Hhandled.
    destruct (switch_status (status info)) eqn:Hsw; simpl; try done.
    + split; [done|]. exists info. split; [done|]. by apply switch_status_DNotFound.
    + exists info. split; [done|]. split; [done|]. apply switch_status_other. auto.
    + exists info. split; [done|]. apply switch_status_other. auto.
  - (* AtInitiate *)
    destruct Hr as (info & Hk & Hnf).
    rewrite (initiateWake_locked_spec _ _ _ _ Hk).
    destruct (Z.eqb_spec (status info) statusWaking) as [Hw|Hw]; simpl.
    { intros [= <-] _. apply traced_goto; [done|]. by exists info. }
    destruct (Z.eqb_spec (status info) statusRunning) as [Hrun|Hrun]; simpl.
    { intros [= <-] _. apply traced_goto; [done|]. by exists info. }
    intros [= <-] Hkeep. traced_step s.
    + intros i w [[_ Hold] | [_ <-]]%lookup_snoc_Some; [left; eauto|]. right.
      unfold names_record. simpl. rewrite lookup_insert_eq. by eexists.
    + intros t' r' [?| ->]%goto_reqs_cases; auto. right.
      unfold result_ok, found. simpl. rewrite lookup_insert_eq. by eexists.
  - (* AtSelect *)
    destruct Hr as [info Hk]. rewrite Hk. simpl. intros [= <-] _.
    by apply traced_goto.
  - (* Blocked *)
    destruct (is_closed (chans (mgr s)) c); [|done].
    destruct Hr as (info & Hk & _). rewrite Hk. simpl. intros [= <-] _.
    apply traced_goto; [done|]. unfold result_ok, wake_result; simpl.
    destruct Hres as (info0 & Hk0 & Hnf). assert (info0 = info) as -> by congruence.
    destruct (wakeErr info); simpl; [split; [done|]|]; by exists info.
  - (* Returned Ok: touchLastSeen *)
    intros [= <-] Hkeep. traced_step s.
    intros t' r' [?| ->]%goto_reqs_cases; [by left | by right].
  - (* Returned Err *)
    intros [= <-] _. by apply traced_goto.
Qed.

Lemma step_traced a s s' : coherent s → traced s → step a s = Some s' → traced s'.
Proof.
  intros Hcoh Htr Hstep.
  pose proof (step_keeps _ _ _ Hcoh Hstep) as Hkeep.
  pose proof Hcoh as [H1 H2 H3 H4].
  revert Hstep Hkeep.
  destruct a as [k0 to|t|t resp|t|t msg|w resp|w| | |resp| |dt]; simpl.
  - (* Arrive *)
    intros [= <-] Hkeep. traced_step s.
    intros t r [[_ Hold] | [_ <-]]%lookup_snoc_Some; [by left | by right].
  - (* ReqStep *)
    destruct (reqs s !! t) as [r|] eqn:Ht; simpl; [|done].
    intros Hstep _. by eapply req_step_traced.
  - (* ReqDescribe *)
    destruct (reqs s !! t) as [r|] eqn:Ht; simpl; [|done].
    destruct (rpc r); try done.
    destruct resp; intros [= <-] Hkeep; (traced_step s;
      [ intros c [?|Hc%list_elem_of_singleton]%elem_of_app; [by left | subst c; by right]
      | intros t' r' [?| ->]%goto_reqs_cases; [by left | by right] ]).
  - (* ReqTimeout *)
    destruct (reqs s !! t) as [r|] eqn:Ht; simpl; [|done].
    pose proof (tr_reqs _ Htr _ _ Ht) as Hres. unfold result_ok in Hres.
    destruct (rpc r); try done. intros [= <-] _. by apply traced_goto.
  - (* ReqCancel *)
    destruct (reqs s !! t) as [r|] eqn:Ht; simpl; [|done].
    pose proof (tr_reqs _ Htr _ _ Ht) as Hres. unfold result_ok in Hres.
    destruct (rpc r); try done. intros [= <-] _. by apply traced_goto.
  - (* WakeResume *)
    destruct (wakes s !! w) as [wk|] eqn:Hw; simpl; [|done].
    destruct (wpc wk) eqn:Hpc; try done. intros [= <-] Hkeep.
    traced_step s.
    + intros c [?|Hc%list_elem_of_singleton]%elem_of_app; [by left|]. subst c. right.
      simpl. exists (wkey wk). by apply (tr_wakes _ Htr w).
    + intros i w'. left. by eapply wake_insert_cases.
  - (* WakeFinish *)
    destruct (wakes s !! w) as [wk|] eqn:Hw; simpl; [|done].
    destruct (wpc wk) as [|err|] eqn:Hpc; try done.
    destruct (finishWake _ _ _ _) as [[v c]|]; simpl; [|done].
    intros [= <-] Hkeep. traced_step s.
    intros i w'. left. by eapply wake_insert_cases.
  - (* WatchTick *)
    destruct (watcher s); try done. intros [= <-] Hkeep.
    traced_step s. by right.
  - (* WatchStep *)
    destruct (watcher s) as [|[|a rest]|a h rest|a rest|] eqn:Hp; try done.
    + intros [= <-] Hkeep. traced_step s. by right.
    + destruct (String.eqb_spec (getHostname a (vms (mgr s))) "") as [Hh|Hh];
        intros [= <-] Hkeep; traced_step s; right; simpl; [done|].
      split; [done|]. destruct H3 as [Hnd Hkeys].
      destruct (Hkeys a) as (info & Hk & Hrun); [simpl; set_solver|].
      exists info. unfold getHostname. rewrite Hk. split; [done|]. split; [done|].
      by rewrite Hrun.
    + intros [= <-] Hkeep. traced_step s. by right.
  - (* WatchPause *)
    destruct (watcher s) as [| |a h rest| |] eqn:Hp; try done.
    pose proof (tr_watch _ Htr) as Hwatch. rewrite Hp in Hwatch. simpl in Hwatch.
    destruct resp; intros [= <-] Hkeep; (traced_step s;
      [ intros c [?|Hc%list_elem_of_singleton]%elem_of_app; [by left|]; subst c; right;
        simpl; split; [tauto|]; exists a; tauto
      | by right ]).
  - (* WatchStop *)
    destruct (watcher s); try done. intros [= <-] Hkeep.
    traced_step s. by right.
  - (* Advance *)
    destruct (0 <=? dt); [|done]. intros [= <-] Hkeep. traced_step s.
Qed.

Lemma traced_init timeout now : traced (init timeout now).
Proof. split; simpl; try done; intros *; by rewrite ?lookup_nil; set_solver. Qed.

Lemma reachable_traced s : reachable s → traced s.
Proof.
  intros (timeout & now & tr & Hrun).
  assert (H : ∀ tr s0 s1, coherent s0 → traced s0 → run tr s0 = Some s1 → traced s1).
  { clear. induction tr as [|a tr IH]; simpl; intros s0 s1 Hcoh Htr.
    - by intros [= <-].
    - destruct (step a s0) as [s2|] eqn:Hstep; simpl; [|done].
      apply IH; [by eapply step_coherent | by eapply step_traced]. }
  eapply H; [apply coherent_init | apply traced_init | exact Hrun].
Qed.

(** X8.  The VMs the control plane is asked to resume and to pause.  In every
    reachable state, each ResumeVM call made so far named the hostname of
    a cached record that is not NotFound, and so did each PauseVM call,
    whose hostname moreover is not empty.  (ResumeVM has no such test: a
    record without a hostname is woken with the empty hostname.) *)
Theorem calls_name_records (s : sys) :
  reachable s →
  (∀ host, ResumeVM host ∈ calls (mgr s) →
     ∃ k info, record_of k s = Some info ∧ hostname info = host
               ∧ status info ≠ statusNotFound)
  ∧ (∀ host, PauseVM host ∈ calls (mgr s) →
       host ≠ "" ∧ ∃ k info, record_of k s = Some info ∧ hostname info = host
                             ∧ status info ≠ statusNotFound).
Proof.
  intros Htr%reachable_traced. split; intros host Hin.
  - destruct (tr_calls _ Htr _ Hin) as (k & info & H). by exists k, info.
  - destruct (tr_calls _ Htr _ Hin) as (Hne & k & info & H). split; [done|].
    by exists k, info.
Qed.

Lemma calls_name_records_witness :
  ∃ k info, record_of k woken_state = Some info ∧ hostname info = "vm-alpha"
            ∧ status info ≠ statusNotFound.
Proof.
  apply (proj1 (calls_name_records woken_state woken_state_reachable)).
  apply (list_elem_of_lookup_2 _ 1%nat). vm_compute. reflexivity.
Defined.

(** X9.  What ensureRunning returns.  In every reachable state, a request
    whose ensureRunning has returned an address has a record that is not
    NotFound, and the address is the ip of that record; one that has
    returned "not found" has a record that is NotFound; the other errors
    are those of its own key, and neither a bare client error nor
    "unexpected status" is ever returned. *)
Theorem ensureRunning_results (s : sys) (t : nat) (r : request) (res : result string) :
  reachable s → reqs s !! t = Some r → rpc r = Returned res →
  match res with
  | Ok addr =>
      ∃ info, record_of (rkey r) s = Some info ∧ ip info = addr
              ∧ status info ≠ statusNotFound
  | Err (ErrNotFound app) =>
      app = rkey r
      ∧ ∃ info, record_of (rkey r) s = Some info ∧ status info = statusNotFound
  | Err (ErrFetch app _) => app = rkey r
  | Err (ErrWakeFailed app _) =>
      app = rkey r
      ∧ ∃ info, record_of (rkey r) s = Some info ∧ status info ≠ statusNotFound
  | Err (ErrWakeTimeout app timeout) =>
      app = rkey r ∧ timeout = rtimeout r
      ∧ ∃ info, record_of (rkey r) s = Some info ∧ status info ≠ statusNotFound
  | Err (ErrCtx _) =>
      ∃ info, record_of (rkey r) s = Some info ∧ status info ≠ statusNotFound
  | Err (ErrRemote _) | Err (ErrUnexpected _) => False
  end.
Proof.
  intros Htr%reachable_traced Ht Hpc.
  pose proof (tr_reqs _ Htr _ _ Ht) as Hres. unfold result_ok in Hres.
  rewrite Hpc in Hres. destruct res as [addr|e]; [done|]. by destruct e.
Qed.

Lemma ensureRunning_results_witness :
  ∃ info, record_of "alpha" race_end = Some info ∧ ip info = "10.0.0.5"
          ∧ status info ≠ statusNotFound.
Proof.
  assert (Hreach : reachable race_end).
  { apply (reachable_run race_rest race_observed race_end race_observed_reachable).
    vm_compute. reflexivity. }
  apply (ensureRunning_results race_end 1 (mkReq "alpha" 5000000000 (Returned (Ok "10.0.0.5")))
           (Ok "10.0.0.5") Hreach); vm_compute; reflexivity.
Defined.

(** ** Strings *)

Lemma append_nil_l s : "" +:+ s = s.
Proof. reflexivity. Qed.

Lemma append_cons a s1 s2 : String a s1 +:+ s2 = String a (s1 +:+ s2).
Proof. reflexivity. Qed.

Lemma HasPrefix_char c s :
  HasPrefix s (String c "") = match s with
                              | EmptyString => false
                              | String a _ => Ascii.eqb a c
                              end.
Proof.
  unfold HasPrefix. destruct s as [|a s]; simpl; [done|].
  destruct (Ascii.ascii_dec c a) as [->|Hne].
  - rewrite Ascii.eqb_refl. by destruct s.
  - symmetry. apply Ascii.eqb_neq. congruence.
Qed.

Lemma Contains_char_cons c a s :
  Contains (String a s) (String c "") = Ascii.eqb a c || Contains s (String c "").
Proof. cbn [Contains]. by rewrite HasPrefix_char. Qed.

Lemma Contains_char_nil c : Contains "" (String c "") = false.
Proof. done. Qed.

Lemma Contains_char_app c s1 s2 :
  Contains (s1 +:+ s2) (String c "")
  = Contains s1 (String c "") || Contains s2 (String c "").
Proof.
  induction s1 as [|a s1 IH]; [done|].
  change (String a s1 +:+ s2) with (String a (s1 +:+ s2)).
  rewrite !Contains_char_cons, IH. by rewrite orb_assoc.
Qed.

Lemma LastIndex_range s c : -1 ≤ LastIndex s c < Z.of_nat (String.length s).
Proof.
  induction s as [|a s IH]; simpl; [lia|].
  destruct (Z.leb_spec 0 (LastIndex s c)); [lia|]. destruct (Ascii.eqb a c); lia.
Qed.

Lemma LastIndex_Contains s c :
  Contains s (String c "") = negb (LastIndex s c =? -1).
Proof.
  induction s as [|a s IH]; [done|]. rewrite Contains_char_cons, IH. simpl.
  pose proof (LastIndex_range s c).
  destruct (Z.leb_spec 0 (LastIndex s c)).
  - destruct (Z.eqb_spec (LastIndex s c) (-1)); [lia|].
    destruct (Z.eqb_spec (LastIndex s c + 1) (-1)); [lia|]. by rewrite orb_true_r.
  - destruct (Z.eqb_spec (LastIndex s c) (-1)); [|lia]. simpl.
    by destruct (Ascii.eqb a c).
Qed.

Lemma LastIndex_app s1 s2 c :
  LastIndex (s1 +:+ s2) c
  = if Contains s2 (String c "") then Z.of_nat (String.length s1) + LastIndex s2 c
    else LastIndex s1 c.
Proof.
  induction s1 as [|a s1 IH].
  - rewrite append_nil_l, LastIndex_Contains.
    destruct (Z.eqb_spec (LastIndex s2 c) (-1)); simpl; [done | lia].
  - change (String a s1 +:+ s2) with (String a (s1 +:+ s2)).
    cbn [LastIndex String.length]. rewrite IH.
    rewrite LastIndex_Contains. pose proof (LastIndex_range s2 c).
    destruct (Z.eqb_spec (LastIndex s2 c) (-1)); simpl; [done|].
    destruct (Z.leb_spec 0 (Z.of_nat (String.length s1) + LastIndex s2 c)); lia.
Qed.

Lemma slice_to_app s1 s2 : slice_to (s1 +:+ s2) (Z.of_nat (String.length s1)) = s1.
Proof.
  unfold slice_to. rewrite Nat2Z.id.
  induction s1 as [|a s1 IH]; rewrite ?append_nil_l, ?append_cons; simpl;
    [by destruct s2 | by rewrite IH].
Qed.

Lemma Split_not_nil s c : Split s c ≠ [].
Proof.
  induction s as [|a s IH]; simpl; [done|].
  destruct (Ascii.eqb a c); [done|]. by destruct (Split s c).
Qed.

Lemma Split_length s c : List.length (Split s c) = S (Count s c).
Proof.
  induction s as [|a s IH]; simpl; [done|].
  destruct (Ascii.eqb a c); simpl; [by rewrite IH|].
  pose proof (Split_not_nil s c). destruct (Split s c); [done|]. simpl in *. done.
Qed.

Lemma Split_app label rest c :
  Contains label (String c "") = false →
  Split (label +:+ String c rest) c = label :: Split rest c.
Proof.
  induction label as [|a label IH]; rewrite ?append_nil_l, ?append_cons.
  - intros _. simpl. by rewrite Ascii.eqb_refl.
  - rewrite Contains_char_cons. intros [Ha Hl]%orb_false_iff.
    cbn [Split]. rewrite Ha, IH by done. done.
Qed.

Lemma Split_hd s c : Contains (hd "" (Split s c)) (String c "") = false.
Proof.
  induction s as [|a s IH]; [done|]. cbn [Split].
  destruct (Ascii.eqb a c) eqn:Ha; [done|].
  pose proof (Split_not_nil s c). destruct (Split s c) as [|p ps]; [done|].
  cbn [hd] in *. by rewrite Contains_char_cons, Ha, IH.
Qed.

Lemma Split_hd_nil s c :
  hd "" (Split s c) = "" ↔ s = "" ∨ HasPrefix s (String c "") = true.
Proof.
  rewrite HasPrefix_char. destruct s as [|a s]; simpl; [naive_solver|].
  destruct (Ascii.eqb a c); simpl; [naive_solver|].
  pose proof (Split_not_nil s c). destruct (Split s c); naive_solver.
Qed.

Lemma Count_Contains s c : Contains s (String c "") = negb (Count s c =? 0)%nat.
Proof.
  induction s as [|a s IH]; [done|]. rewrite Contains_char_cons, IH. simpl.
  by destruct (Ascii.eqb a c).
Qed.

Lemma Contains_app_r s1 s2 substr :
  Contains s2 substr = true → Contains (s1 +:+ s2) substr = true.
Proof.
  intros H. induction s1 as [|a s1 IH]; [done|].
  change (String a s1 +:+ s2) with (String a (s1 +:+ s2)).
  cbn [Contains]. rewrite IH. apply orb_true_r.
Qed.

Lemma HasPrefix_app s1 s2 : HasPrefix (s1 +:+ s2) s1 = true.
Proof.
  unfold HasPrefix. induction s1 as [|a s1 IH]; rewrite ?append_nil_l, ?append_cons;
    simpl; [by destruct s2|].
  by destruct (Ascii.ascii_dec a a).
Qed.

Lemma Contains_prefix s p : HasPrefix s p = true → Contains s p = true.
Proof. intros H. destruct s; cbn [Contains]; by rewrite H. Qed.

Lemma Contains_middle s1 s2 s3 : Contains (s1 +:+ s2 +:+ s3) s2 = true.
Proof. apply Contains_app_r, Contains_prefix, HasPrefix_app. Qed.

(** ** extractHostname and extractAppName *)

Lemma strip_port_none host :
  Contains host ":" = false → strip_port host = host.
Proof.
  unfold strip_port. rewrite LastIndex_Contains. by intros ->%negb_false_iff.
Qed.

Lemma strip_port_app h port :
  Contains port ":" = false →
  strip_port (h +:+ ":" +:+ port)
  = if Contains port "]" then h +:+ ":" +:+ port else h.
Proof.
  intros Hport. unfold strip_port.
  assert (Hidx : LastIndex (h +:+ ":" +:+ port) ":" = Z.of_nat (String.length h)).
  { rewrite LastIndex_app. change (":" +:+ port) with (String ":" port).
    rewrite Contains_char_cons. simpl. rewrite LastIndex_Contains in Hport.
    apply negb_false_iff, Z.eqb_eq in Hport. rewrite Hport. simpl. lia. }
  rewrite Hidx. pose proof (LastIndex_range h "]").
  destruct (Z.eqb_spec (Z.of_nat (String.length h)) (-1)); [lia|]. simpl.
  rewrite Contains_char_app, LastIndex_app.
  change (":" +:+ port) with (String ":" port).
  rewrite (Contains_char_cons "]" ":" port). simpl.
  destruct (Contains port "]") eqn:Hb.
  - rewrite orb_true_r. simpl. rewrite LastIndex_Contains in Hb.
    apply negb_true_iff, Z.eqb_neq in Hb. pose proof (LastIndex_range port "]").
    destruct (Z.leb_spec 0 (LastIndex port "]")); [|lia].
    destruct (Z.ltb_spec (Z.of_nat (String.length h) + (LastIndex port "]" + 1))
                (Z.of_nat (String.length h))); [lia | done].
  - rewrite orb_false_r.
    destruct (Z.ltb_spec (LastIndex h "]") (Z.of_nat (String.length h))); [|lia].
    rewrite orb_true_r. apply slice_to_app.
Qed.

(** X20.  extractHostname.  A host without a colon is returned as it is.  A
    host with a colon is cut at its last colon when no "]" follows that
    colon (a port, whatever its characters, also after an IPv6 literal),
    and returned as it is when a "]" follows (a bare IPv6 literal). *)
Theorem extractHostname_spec (h port : string) :
  (Contains h ":" = false → extractHostname h = h)
  ∧ (Contains port ":" = false →
     extractHostname (h +:+ ":" +:+ port)
     = if Contains port "]" then h +:+ ":" +:+ port else h)
  ∧ (extractHostname h = h ∨ ∃ p, h = extractHostname h +:+ ":" +:+ p
                                   ∧ Contains p ":" = false ∧ Contains p "]" = false).
Proof.
  split; [apply strip_port_none|]. split; [apply strip_port_app|].
  unfold extractHostname.
  (* every host with a colon splits at its last colon *)
  assert (Hsplit : ∀ s, Contains s ":" = true →
            ∃ s1 s2, s = s1 +:+ ":" +:+ s2 ∧ Contains s2 ":" = false).
  { induction s as [|a s IH]; [done|]. rewrite Contains_char_cons.
    destruct (Contains s ":") eqn:Hs.
    - intros _. destruct (IH eq_refl) as (s1 & s2 & -> & H2).
      by exists (String a s1), s2.
    - rewrite orb_false_r. intros ->%Ascii.eqb_eq. by exists "", s. }
  destruct (Contains h ":") eqn:Hc; [|left; by apply strip_port_none].
  destruct (Hsplit h Hc) as (s1 & s2 & -> & H2). rewrite strip_port_app by done.
  destruct (Contains s2 "]") eqn:Hb; [by left|]. right. by exists s2.
Qed.

Lemma extractHostname_spec_witness :
  extractHostname ("[::1]" +:+ ":" +:+ "8443") = "[::1]"
  ∧ extractHostname ("[:" +:+ ":" +:+ "1]") = "[::1]".
Proof.
  split.
  - exact (proj1 (proj2 (extractHostname_spec "[::1]" "8443")) eq_refl).
  - exact (proj1 (proj2 (extractHostname_spec "[:" "1]")) eq_refl).
Defined.

(** X21.  extractAppName.  The app name never contains a dot.  For a host
    whose first label is followed by at least two more labels it is the
    first label; a port is ignored; and it is empty exactly when the host
    (port removed) has fewer than three labels or an empty first label. *)
Theorem extractAppName_spec (host : string) :
  Contains (extractAppName host) "." = false
  ∧ (∀ label rest,
       host = label +:+ "." +:+ rest → Contains host ":" = false →
       Contains label "." = false → Contains rest "." = true →
       extractAppName host = label)
  ∧ (∀ port, Contains host ":" = false → Contains port ":" = false →
       Contains port "]" = false →
       extractAppName (host +:+ ":" +:+ port) = extractAppName host)
  ∧ (Contains host ":" = false →
     (extractAppName host = "" ↔
        (Count host "." < 2)%nat ∨ HasPrefix host "." = true)).
Proof.
  unfold extractAppName. split; [|split; [|split]].
  - destruct (_ <? 3)%nat; [done | apply Split_hd].
  - intros label rest -> Hc Hl Hr. rewrite strip_port_none by done.
    change ("." +:+ rest) with (String "." rest). rewrite Split_app by done.
    cbn [List.length hd]. rewrite Split_length.
    rewrite Count_Contains in Hr. apply negb_true_iff, Nat.eqb_neq in Hr.
    destruct (Nat.ltb_spec (S (S (Count rest "."))) 3); [lia | done].
  - intros port Hh Hp Hb. by rewrite strip_port_app, Hb, strip_port_none.
  - intros Hc. rewrite strip_port_none by done. rewrite Split_length.
    destruct (Nat.ltb_spec (S (Count host ".")) 3) as [Hlt|Hge].
    + split; [left; lia | done].
    + rewrite Split_hd_nil. split.
      * intros [-> | Hp]; [simpl in Hge; lia | by right].
      * intros [Hlt | Hp]; [lia | by right].
Qed.

Lemma extractAppName_spec_witness :
  extractAppName "myapp.apps.example.com" = "myapp".
Proof.
  exact (proj1 (proj2 (extractAppName_spec "myapp.apps.example.com"))
           "myapp" "apps.example.com" eq_refl eq_refl eq_refl eq_refl).
Defined.

(** A request to an IPv4 address gets the first number as app name;
    two labels are not enough; a port is dropped. *)
Example extractAppName_examples :
  extractAppName "10.0.0.5" = "10"
  ∧ extractAppName "example.com" = ""
  ∧ extractAppName ".apps.example.com" = ""
  ∧ extractAppName "myapp.apps.example.com:8443" = "myapp".
Proof. vm_compute. done. Qed.

(** ** ServeHTTP *)

Lemma ServeHTTP_reply_notfound quote dur appName port k :
  ServeHTTP_reply quote dur appName port (Err (ErrNotFound k))
  = Replied 404 ("app " +:+ quote appName +:+ " not found" +:+ nl) None.
Proof.
  unfold ServeHTTP_reply. cbn [Error].
  assert (H : Contains ("app " +:+ quote k +:+ ": not found") "not found" = true).
  { apply Contains_app_r, Contains_app_r.
    apply (Contains_middle ": " "not found" ""). }
  by rewrite H.
Qed.

(** X22.  The replies of ServeHTTP.  An error of ensureRunning is answered 404
    exactly when its text contains "not found", and 503 with Retry-After
    5 exactly when it does not.  So the manager's own not-found error
    gives 404, and so does any failure of GetHostGroupNodes or ResumeVM
    whose message contains "not found", whatever the state of the app; a
    cancelled or expired context gives 503.  On success the upstream is
    the address and the port. *)
Theorem ServeHTTP_replies (quote : string → string) (dur : Duration → string)
    (appName : string) (port : Z) :
  (∀ e, Contains (Error quote dur e) "not found" = true ↔
        ServeHTTP_reply quote dur appName port (Err e)
        = Replied 404 ("app " +:+ quote appName +:+ " not found" +:+ nl) None)
  ∧ (∀ e, Contains (Error quote dur e) "not found" = false ↔
          ServeHTTP_reply quote dur appName port (Err e)
          = Replied 503 ("app " +:+ quote appName +:+ " is starting up, please retry" +:+ nl)
                    (Some "5"))
  ∧ (∀ k, ServeHTTP_reply quote dur appName port (Err (ErrNotFound k))
          = Replied 404 ("app " +:+ quote appName +:+ " not found" +:+ nl) None)
  ∧ (∀ k cause, Contains (Error quote dur cause) "not found" = true →
       ServeHTTP_reply quote dur appName port (Err (ErrFetch k cause))
       = Replied 404 ("app " +:+ quote appName +:+ " not found" +:+ nl) None
       ∧ ServeHTTP_reply quote dur appName port (Err (ErrWakeFailed k cause))
         = Replied 404 ("app " +:+ quote appName +:+ " not found" +:+ nl) None)
  ∧ (∀ msg, msg = "context canceled" ∨ msg = "context deadline exceeded" →
       ServeHTTP_reply quote dur appName port (Err (ErrCtx msg))
       = Replied 503 ("app " +:+ quote appName +:+ " is starting up, please retry" +:+ nl)
                 (Some "5"))
  ∧ (∀ addr, ServeHTTP_reply quote dur appName port (Ok addr)
             = Forwarded (addr +:+ ":" +:+ itoa port)).
Proof.
  split; [|split; [|split; [|split; [|split]]]].
  - intros e. unfold ServeHTTP_reply. by destruct (Contains _ _).
  - intros e. unfold ServeHTTP_reply. by destruct (Contains _ _).
  - intros k. apply ServeHTTP_reply_notfound.
  - intros k cause Hc. unfold ServeHTTP_reply. cbn [Error].
    rewrite !Contains_app_r; [done | | ]; repeat apply Contains_app_r; done.
  - by intros msg [-> | ->].
  - done.
Qed.

Lemma ServeHTTP_replies_witness :
  ServeHTTP_reply (λ s, s) (λ _, "30s") "alpha" 8080
    (Err (ErrWakeFailed "alpha" (ErrRemote "vm vm-alpha not found on host")))
  = Replied 404 ("app " +:+ "alpha" +:+ " not found" +:+ nl) None.
Proof.
  exact (proj2 (proj1 (proj2 (proj2 (proj2 (ServeHTTP_replies (λ s, s) (λ _, "30s")
                                              "alpha" 8080))))
                  "alpha" (ErrRemote "vm vm-alpha not found on host") eq_refl)).
Defined.

(** X23.  ServeHTTP for an app the control plane does not know.  A host with
    fewer than three labels is answered 400 without a look at the
    manager.  For an app name without a record for which the control
    plane reports no node, the answer is 404 after one describe call, and
    every later request for the app is answered 404 without any call and
    without a change of the manager. *)
Theorem ServeHTTP_unknown_app (quote : string → string) (dur : Duration → string)
    (describe : string → result (list sdkNode)) (now now' : Time) (port : Z)
    (host : string) (m : vmStateManager) :
  (extractAppName host = "" →
     ∃ body, ServeHTTP quote dur describe now now' port host m
             = (m, Some (Replied 400 body None)))
  ∧ (extractAppName host ≠ "" → vms m !! extractAppName host = None →
     describe (extractAppName host) = Ok [] →
     let m1 := (ServeHTTP quote dur describe now now' port host m).1 in
     ∃ body,
       (ServeHTTP quote dur describe now now' port host m).2
       = Some (Replied 404 body None)
       ∧ calls m1 = calls m ++ [GetHostGroupNodes (extractAppName host)]
       ∧ ∀ describe2 t t' port2,
           ServeHTTP quote dur describe2 t t' port2 host m1
           = (m1, Some (Replied 404 body None))).
Proof.
  unfold ServeHTTP. split.
  - intros ->. simpl. eauto.
  - intros Hne%String.eqb_neq Hk Hd. rewrite Hne.
    assert (Hfirst : ensureRunning describe now (extractAppName host) m
                     = (with_vms (<[extractAppName host := newInfo [] now]> (vms m))
                          (record_call (GetHostGroupNodes (extractAppName host)) m),
                        Returns (Err (ErrNotFound (extractAppName host))))).
    { unfold ensureRunning, lookup. rewrite Hk, Hd. simpl. unfold lookup_store.
      simpl. by rewrite Hk. }
    assert (Hsecond : ∀ describe2 t,
              ensureRunning describe2 t (extractAppName host)
                (with_vms (<[extractAppName host := newInfo [] now]> (vms m))
                   (record_call (GetHostGroupNodes (extractAppName host)) m))
              = (with_vms (<[extractAppName host := newInfo [] now]> (vms m))
                   (record_call (GetHostGroupNodes (extractAppName host)) m),
                 Returns (Err (ErrNotFound (extractAppName host))))).
    { intros describe2 t. unfold ensureRunning, lookup. simpl.
      by rewrite lookup_insert_eq. }
    rewrite Hfirst. cbn [fst snd]. rewrite ServeHTTP_reply_notfound.
    eexists. split; [reflexivity|]. split; [reflexivity|].
    intros describe2 t t' port2. rewrite Hsecond.
    rewrite ServeHTTP_reply_notfound. reflexivity.
Qed.

Lemma ServeHTTP_unknown_app_witness :
  ∃ body,
    (ServeHTTP (λ s, s) (λ _, "30s") (λ _, Ok []) 5 6 8080 "ghost.apps.example.com"
       newVMStateManager).2 = Some (Replied 404 body None)
    ∧ calls (ServeHTTP (λ s, s) (λ _, "30s") (λ _, Ok []) 5 6 8080 "ghost.apps.example.com"
               newVMStateManager).1
      = calls newVMStateManager ++ [GetHostGroupNodes (extractAppName "ghost.apps.example.com")]
    ∧ ∀ describe2 t t' port2,
        ServeHTTP (λ s, s) (λ _, "30s") describe2 t t' port2 "ghost.apps.example.com"
          (ServeHTTP (λ s, s) (λ _, "30s") (λ _, Ok []) 5 6 8080 "ghost.apps.example.com"
             newVMStateManager).1
        = ((ServeHTTP (λ s, s) (λ _, "30s") (λ _, Ok []) 5 6 8080 "ghost.apps.example.com"
              newVMStateManager).1, Some (Replied 404 body None)).
Proof.
  apply (proj2 (ServeHTTP_unknown_app (λ s, s) (λ _, "30s") (λ _, Ok []) 5 6 8080
                  "ghost.apps.example.com" newVMStateManager));
    [vm_compute; discriminate | vm_compute; reflexivity | reflexivity].
Defined.

(** ** The ask server *)

Lemma handleAsk_cached describe now domain m info :
  domain ≠ "" → vms m !! domain = Some info →
  handleAsk describe now domain m
  = (m, if status info =? statusNotFound
        then Replied 404 ("404 page not found" +:+ nl) None
        else Replied 200 ("ok" +:+ nl) None).
Proof.
  intros Hne%String.eqb_neq Hk. unfold handleAsk, lookup. rewrite Hne, Hk.
  by destruct (status info =? statusNotFound).
Qed.

Lemma handleAsk_fresh describe now domain m nodes :
  domain ≠ "" → vms m !! domain = None → describe domain = Ok nodes →
  handleAsk describe now domain m
  = (with_vms (<[domain := newInfo nodes now]> (vms m))
       (record_call (GetHostGroupNodes domain) m),
     if status (newInfo nodes now) =? statusNotFound
     then Replied 404 ("404 page not found" +:+ nl) None
     else Replied 200 ("ok" +:+ nl) None).
Proof.
  intros Hne%String.eqb_neq Hk Hd. unfold handleAsk, lookup. rewrite Hne, Hk, Hd.
  unfold lookup_store. cbn [vms record_call]. rewrite Hk.
  by destruct (status (newInfo nodes now) =? statusNotFound).
Qed.

Lemma handleAsk_failed describe now domain m err :
  domain ≠ "" → vms m !! domain = None → describe domain = Err err →
  handleAsk describe now domain m
  = (record_call (GetHostGroupNodes domain) m, Replied 500 ("lookup failed" +:+ nl) None).
Proof.
  intros Hne%String.eqb_neq Hk Hd. unfold handleAsk, lookup. by rewrite Hne, Hk, Hd.
Qed.

Ltac ask_solve :=
  first [ done | by left | by right | by intros [?|?]
        | split; [done | by intros [? _]]
        | split; [done | intros (_ & ? & ? & ?); congruence]
        | set_solver ].

(** X25.  handleAsk.  The ask server never resumes or pauses a VM and never
    changes a record that exists: it makes at most one describe call, for
    its domain.  A domain is approved (200) exactly when it is not empty
    and, after the call, has a record that is not NotFound, whatever the
    status of that record.  The answers 200 and 404 are cached: asked
    again, the server gives the same answer without a call.  A failed
    lookup (500) leaves the records as they were. *)
Theorem handleAsk_spec (describe : string → result (list sdkNode)) (now : Time)
    (domain : string) (m : vmStateManager) :
  let r := handleAsk describe now domain m in
  chans r.1 = chans m
  ∧ (calls r.1 = calls m ∨ calls r.1 = calls m ++ [GetHostGroupNodes domain])
  ∧ (∀ k info, vms m !! k = Some info → vms r.1 !! k = Some info)
  ∧ (reply_code r.2 = 200 ↔
       domain ≠ "" ∧ ∃ info, vms r.1 !! domain = Some info
                             ∧ status info ≠ statusNotFound)
  ∧ (reply_code r.2 = 200 ∨ reply_code r.2 = 404 →
       ∀ describe' now', handleAsk describe' now' domain r.1 = r)
  ∧ (reply_code r.2 = 500 → vms r.1 = vms m ∧ is_Err (describe domain))
  ∧ reply_code r.2 ∈ [200; 400; 404; 500].
Proof.
  cbv zeta. destruct (decide (domain = "")) as [->|Hne].
  { change (handleAsk describe now "" m)
      with (m, Replied 400 ("missing domain parameter" +:+ nl) None).
    cbn [fst snd reply_code]. split_and!; ask_solve. }
  destruct (vms m !! domain) as [info|] eqn:Hk.
  - (* a cached record *)
    rewrite (handleAsk_cached _ _ _ _ _ Hne Hk).
    assert (Hagain : ∀ describe' now',
              handleAsk describe' now' domain m
              = (m, if status info =? statusNotFound
                    then Replied 404 ("404 page not found" +:+ nl) None
                    else Replied 200 ("ok" +:+ nl) None)).
    { intros describe' now'. by apply handleAsk_cached. }
    destruct (Z.eqb_spec (status info) statusNotFound) as [Hnf|Hnf];
      cbn [fst snd reply_code]; split_and!;
      first [ ask_solve
            | intros _ ? ?; by rewrite Hagain
            | split; [|done]; intros _; split; [done|]; by exists info ].
  - destruct (describe domain) as [nodes|err] eqn:Hd.
    + (* a record is created *)
      rewrite (handleAsk_fresh _ _ _ _ _ Hne Hk Hd).
      assert (Hold : ∀ k i, vms m !! k = Some i →
                <[domain := newInfo nodes now]> (vms m) !! k = Some i).
      { intros k i Hi. rewrite lookup_insert_ne; [done|]. intros <-. congruence. }
      assert (Hnew : <[domain := newInfo nodes now]> (vms m) !! domain
                     = Some (newInfo nodes now)) by apply lookup_insert_eq.
      assert (Hagain : ∀ describe' now',
                handleAsk describe' now' domain
                  (with_vms (<[domain := newInfo nodes now]> (vms m))
                     (record_call (GetHostGroupNodes domain) m))
                = (with_vms (<[domain := newInfo nodes now]> (vms m))
                     (record_call (GetHostGroupNodes domain) m),
                   if status (newInfo nodes now) =? statusNotFound
                   then Replied 404 ("404 page not found" +:+ nl) None
                   else Replied 200 ("ok" +:+ nl) None)).
      { intros describe' now'. by apply handleAsk_cached. }
      destruct (Z.eqb_spec (status (newInfo nodes now)) statusNotFound) as [Hnf|Hnf];
        cbn [fst snd reply_code vms chans calls with_vms record_call];
        split_and!;
        first [ ask_solve
              | intros _ ? ?; by rewrite Hagain
              | split; [|done]; intros _; split; [done|]; by exists (newInfo nodes now) ].
    + (* the lookup fails *)
      rewrite (handleAsk_failed _ _ _ _ _ Hne Hk Hd).
      cbn [fst snd reply_code vms chans calls record_call]. split_and!; ask_solve.
Qed.

(** A paused VM is approved without being woken. *)
Example handleAsk_paused :
  handleAsk (λ _, Ok alpha_paused) 7 "alpha" newVMStateManager
  = (with_vms {["alpha" := mkInfo "vm-alpha" "10.0.0.5" statusPaused 7 None None]}
       (record_call (GetHostGroupNodes "alpha") newVMStateManager),
     Replied 200 ("ok" +:+ nl) None).
Proof. vm_compute. reflexivity. Qed.

(** ** The client of the control plane *)

(** X26.  buildHTTPClient.  The base URL handed to the SDK always starts with
    http:// or https://; the client is nil exactly for such a raw URL,
    which is then the base URL; in every other case the raw URL is
    dialled as a Unix socket under the base URL http://localhost, with a
    leading "~" replaced by the home directory (by nothing if the home
    directory is not known). *)
Theorem buildHTTPClient_spec (home rawURL : string) :
  let r := buildHTTPClient home rawURL in
  (HasPrefix r.2 "http://" = true ∨ HasPrefix r.2 "https://" = true)
  ∧ (r.1 = None ↔ HasPrefix rawURL "http://" = true ∨ HasPrefix rawURL "https://" = true)
  ∧ (r.1 = None → r.2 = rawURL)
  ∧ (is_Some r.1 → r.2 = "http://localhost")
  ∧ (∀ rest, rawURL = "~/" +:+ rest → r.1 = Some (home +:+ "/" +:+ rest))
  ∧ (HasPrefix rawURL "~/" = false → is_Some r.1 → r.1 = Some rawURL)
  ∧ buildHTTPClient home r.2 = (None, r.2).
Proof.
  unfold buildHTTPClient.
  destruct (HasPrefix rawURL "http://") eqn:H1; simpl.
  { rewrite H1. simpl. repeat split; auto; try done.
    intros rest ->. by vm_compute in H1. }
  destruct (HasPrefix rawURL "https://") eqn:H2; simpl.
  { rewrite H1, H2. simpl. repeat split; auto; try done.
    intros rest ->. by vm_compute in H2. }
  repeat split; auto; try done.
  - intros [?|?]; done.
  - intros rest ->. rewrite HasPrefix_app. f_equal. f_equal.
    rewrite !append_cons, append_nil_l.
    cbn [String.length String.substring Nat.sub].
    f_equal. clear. induction rest as [|a rest IH]; simpl; [done | by rewrite IH].
  - intros ->. done.
Qed.

(** ** A forwarded request and the next ticks *)

Lemma seen_same k s s' :
  vms (mgr s') = vms (mgr s) → clock s' = clock s → idleTimeout s' = idleTimeout s →
  seen_step k s s'.
Proof.
  intros Hv Hc Hi. split; [lia|]. split; [done|]. intros info Hk.
  exists info. unfold record_of in *. rewrite Hv. auto.
Qed.

Lemma seen_insert k k0 s s' info0 info1 :
  vms (mgr s) !! k0 = Some info0 → vms (mgr s') = <[k0 := info1]> (vms (mgr s)) →
  lastSeen info1 = lastSeen info0 ∨ lastSeen info1 = clock s →
  clock s' = clock s → idleTimeout s' = idleTimeout s →
  seen_step k s s'.
Proof.
  intros Hk0 Hv Hls Hc Hi. split; [lia|]. split; [done|]. intros info Hk.
  unfold record_of in *. rewrite Hv. destruct (decide (k0 = k)) as [->|Hne].
  - rewrite lookup_insert_eq. exists info1. split; [done|]. congruence.
  - rewrite lookup_insert_ne by done. eauto.
Qed.

Lemma req_step_seen s t r s' k :
  coherent s → reqs s !! t = Some r → req_step t r s = Some s' → seen_step k s s'.
Proof.
  intros Hcoh Ht. pose proof Hcoh as [H1 H2 H3 H4].
  pose proof (H4 _ _ Ht) as Hr. unfold req_step. unfold req_ok in Hr.
  destruct (rpc r) as [| |nodes| | | |[c|]|[addr|e]|] eqn:Hpc; try done.
  - destruct (vms (mgr s) !! rkey r); intros [= <-]; by apply seen_same.
  - destruct (lookup_store (rkey r) nodes (clock s) (vms (mgr s))) as [v i] eqn:E.
    intros [= <-]. split; [simpl; lia|]. split; [done|]. intros info Hk.
    exists info. split; [|by left]. unfold record_of in *. simpl.
    replace v with (lookup_store (rkey r) nodes (clock s) (vms (mgr s))).1 by (by rewrite E).
    rewrite lookup_store_lookup, Hk. by case_decide.
  - destruct (vms (mgr s) !! rkey r); [|done]. intros [= <-]. by apply seen_same.
  - destruct Hr as (info & Hk & Hnf).
    rewrite (initiateWake_locked_spec _ _ _ _ Hk).
    destruct (status info =? statusWaking); simpl.
    { intros [= <-]. by apply seen_same. }
    destruct (status info =? statusRunning); simpl.
    { intros [= <-]. by apply seen_same. }
    intros [= <-]. eapply seen_insert; [exact Hk | done | by left | done | done].
  - destruct (vms (mgr s) !! rkey r); [|done]. intros [= <-]. by apply seen_same.
  - destruct (is_closed (chans (mgr s)) c); [|done].
    destruct (vms (mgr s) !! rkey r); [|done]. intros [= <-]. by apply seen_same.
  - intros [= <-]. split; [simpl; lia|]. split; [done|]. intros info Hk.
    unfold record_of in *. simpl. rewrite touchLastSeen_lookup, Hk.
    case_decide; simpl; eauto.
  - intros [= <-]. by apply seen_same.
Qed.

Lemma step_seen a s s' k : coherent s → step a s = Some s' → seen_step k s s'.
Proof.
  intros Hcoh. pose proof Hcoh as [H1 H2 H3 H4].
  destruct a as [k0 to|t|t resp|t|t msg|w resp|w| | |resp| |dt]; simpl.
  - intros [= <-]. by apply seen_same.
  - destruct (reqs s !! t) as [r|] eqn:Ht; simpl; [|done]. by eapply req_step_seen.
  - destruct (reqs s !! t) as [r|] eqn:Ht; simpl; [|done].
    destruct (rpc r); try done. destruct resp; intros [= <-]; by apply seen_same.
  - destruct (reqs s !! t) as [r|] eqn:Ht; simpl; [|done].
    destruct (rpc r); try done. intros [= <-]. by apply seen_same.
  - destruct (reqs s !! t) as [r|] eqn:Ht; simpl; [|done].
    destruct (rpc r); try done. intros [= <-]. by apply seen_same.
  - destruct (wakes s !! w) as [wk|] eqn:Hw; simpl; [|done].
    destruct (wpc wk); try done. intros [= <-]. by apply seen_same.
  - destruct (wakes s !! w) as [wk|] eqn:Hw; simpl; [|done].
    destruct (wpc wk) as [|err|] eqn:Hpc; try done.
    assert (Hfl : in_flight wk) by (unfold in_flight; by rewrite Hpc).
    destruct (wi_waking _ _ H2 _ _ Hw Hfl) as (info & Hk & Hst).
    destruct (ri_waking _ _ H1 _ _ Hk Hst) as (c & Hc & Hopen).
    rewrite (finish_returns _ err _ _ _ _ H1 Hk Hst Hc). simpl. intros [= <-].
    eapply seen_insert; [exact Hk | done | by left | done | done].
  - destruct (watcher s); try done. intros [= <-]. by apply seen_same.
  - destruct (watcher s) as [|[|a rest]|a h rest|a rest|] eqn:Hp; try done.
    + intros [= <-]. by apply seen_same.
    + destruct (String.eqb _ _); intros [= <-]; by apply seen_same.
    + intros [= <-]. split; [simpl; lia|]. split; [done|]. intros info Hk.
      unfold record_of in *. simpl. rewrite markPaused_lookup, Hk.
      case_decide; simpl; eauto.
  - destruct (watcher s) as [| |a h rest| |] eqn:Hp; try done.
    destruct resp; intros [= <-]; by apply seen_same.
  - destruct (watcher s); try done. intros [= <-]. by apply seen_same.
  - destruct (Z.leb_spec 0 dt); [|done]. intros [= <-].
    split; [simpl; lia|]. split; [done|]. intros info Hk. exists info. auto.
Qed.

Lemma run_seen tr s s' k info T :
  coherent s → run tr s = Some s' → record_of k s = Some info →
  T ≤ lastSeen info → T ≤ clock s →
  ∃ info', record_of k s' = Some info' ∧ T ≤ lastSeen info'
    ∧ clock s ≤ clock s' ∧ idleTimeout s' = idleTimeout s.
Proof.
  revert s info. induction tr as [|a tr IH]; simpl; intros s info Hcoh.
  - intros [= <-] Hk Hls Hc. exists info. split; [done|]. split; [done|]. split; [lia|done].
  - destruct (step a s) as [s1|] eqn:Hstep; simpl; [|done]. intros Hrun Hk Hls Hc.
    destruct (step_seen _ _ _ k Hcoh Hstep) as (Hc1 & Hi1 & Hrec).
    destruct (Hrec _ Hk) as (info1 & Hk1 & Hls1).
    destruct (IH s1 info1 (step_coherent _ _ _ Hcoh Hstep) Hrun Hk1)
      as (info' & Hk' & Hls' & Hc' & Hi'); [destruct Hls1; lia | lia |].
    exists info'. split; [done|]. split; [done|]. split; [lia | congruence].
Qed.

(** X24.  From a forwarded request to the next ticks.  When the handler of a
    request whose ensureRunning has returned an address takes its next
    step (touchLastSeen, then the upstream), the upstream is the ip of
    the record of the app and the port, and lastSeen becomes the time of
    the step.  In every state the process reaches from there while the
    clock is within the idle timeout of that time, the app is not among
    idleApps: a tick that begins in such a state does not list it.  (A
    tick that listed the app before the touch still pauses it, see
    below.) *)
Theorem ServeHTTP_keeps_awake (quote : string → string) (dur : Duration → string)
    (port : Z) (s s1 s2 : sys) (t : nat) (r : request) (addr : string)
    (tr : list action) :
  reachable s → reqs s !! t = Some r → rpc r = Returned (Ok addr) →
  step (ReqStep t) s = Some s1 → run tr s1 = Some s2 →
  0 ≤ idleTimeout s → clock s2 - clock s ≤ idleTimeout s →
  (∃ info, record_of (rkey r) s1 = Some info ∧ lastSeen info = clock s
     ∧ ServeHTTP_reply quote dur (rkey r) port (Ok addr)
       = Forwarded (ip info +:+ ":" +:+ itoa port))
  ∧ reqs s1 !! t = Some (mkReq (rkey r) (rtimeout r) Finished)
  ∧ rkey r ∉ idleApps (idleTimeout s2) (clock s2) (vms (mgr s2))
  ∧ (∀ s3, step WatchTick s2 = Some s3 → rkey r ∉ watch_keys (watcher s3)).
Proof.
  intros Hreach Ht Hpc Hstep Hrun Hto Hclock.
  pose proof (reachable_coherent _ Hreach) as Hcoh.
  pose proof (tr_reqs _ (reachable_traced _ Hreach) _ _ Ht) as Hres.
  unfold result_ok in Hres. rewrite Hpc in Hres. destruct Hres as (info & Hk & Hip & _).
  assert (Hs1 : s1 = goto t r Finished
                  (with_mgr (with_vms (touchLastSeen (rkey r) (clock s) (vms (mgr s)))
                               (mgr s)) s)).
  { simpl in Hstep. rewrite Ht in Hstep. simpl in Hstep. unfold req_step in Hstep.
    rewrite Hpc in Hstep. by injection Hstep as <-. }
  assert (Hk1 : record_of (rkey r) s1 = Some (set_lastSeen (clock s) info)).
  { rewrite Hs1. unfold record_of. simpl. rewrite touchLastSeen_lookup, Hk.
    by rewrite decide_True. }
  assert (Hnot : rkey r ∉ idleApps (idleTimeout s2) (clock s2) (vms (mgr s2))).
  { destruct (run_seen tr s1 s2 (rkey r) _ (clock s) (step_coherent _ _ _ Hcoh Hstep)
                Hrun Hk1) as (info2 & Hk2 & Hls2 & Hc2 & Hi2).
    { simpl. lia. }
    { rewrite Hs1. simpl. lia. }
    assert (Hi1 : idleTimeout s1 = idleTimeout s) by (by rewrite Hs1).
    intros (i & Hi & _ & Hlt)%elem_of_idleApps. unfold record_of in Hk2.
    rewrite Hk2 in Hi. injection Hi as <-. rewrite Hi2, Hi1 in Hlt. revert Hlt.
    unfold time_Sub, maxDuration, minDuration.
    destruct (Z.ltb_spec (2 ^ 63 - 1) (clock s2 - lastSeen info2)); [lia|].
    destruct (Z.ltb_spec (clock s2 - lastSeen info2) (- 2 ^ 63)); lia. }
  split; [|split; [|split]].
  - exists (set_lastSeen (clock s) info). split; [done|]. split; [done|].
    simpl. by rewrite Hip.
  - rewrite Hs1. exact (goto_at t r Finished _ Ht).
  - exact Hnot.
  - intros s3. simpl. destruct (watcher s2); try done. by intros [= <-].
Qed.

Lemma returned_state_reachable : reachable returned_state.
Proof.
  apply (reachable_run [Advance 40000000000; Arrive "alpha" 5000000000; ReqStep 1; ReqStep 1]
           woken_state returned_state woken_state_reachable).
  vm_compute. reflexivity.
Qed.

Lemma ServeHTTP_keeps_awake_witness :
  ∃ s1 s2,
    step (ReqStep 1) returned_state = Some s1
    ∧ run [Advance 30000000000; WatchTick] s1 = Some s2
    ∧ (∃ info, record_of "alpha" s1 = Some info ∧ lastSeen info = clock returned_state
         ∧ ServeHTTP_reply (λ s, s) (λ _, "30s") "alpha" 8080 (Ok "10.0.0.5")
           = Forwarded (ip info +:+ ":" +:+ itoa 8080))
    ∧ watcher s2 = AtHostname [].
Proof.
  destruct (step (ReqStep 1) returned_state) as [s1|] eqn:Hstep; [|by vm_compute in Hstep].
  destruct (run [Advance 30000000000] s1) as [s2|] eqn:Hrun;
    [|vm_compute in Hstep; injection Hstep as <-; by vm_compute in Hrun].
  destruct (ServeHTTP_keeps_awake (λ s, s) (λ _, "30s") 8080 returned_state s1 s2 1
              (mkReq "alpha" 5000000000 (Returned (Ok "10.0.0.5"))) "10.0.0.5"
              [Advance 30000000000] returned_state_reachable)
    as (Hup & _ & _ & _);
    [ vm_compute; reflexivity | reflexivity | exact Hstep | exact Hrun
    | vm_compute; discriminate
    | vm_compute in Hstep; injection Hstep as <-; vm_compute in Hrun;
      injection Hrun as <-; vm_compute; discriminate |].
  exists s1. eexists. split; [done|]. split; [|split; [exact Hup|]].
  - vm_compute in Hstep. injection Hstep as <-. vm_compute. reflexivity.
  - reflexivity.
Defined.

(** The touch does not stop a tick that is under way: the watcher that
    has listed alpha as idle before the request is forwarded pauses its
    VM right after the touch. *)
Example touch_during_tick_pauses :
  ∃ s, run touch_during_tick woken_state = Some s
    ∧ record_of "alpha" s
      = Some (mkInfo "vm-alpha" "10.0.0.5" statusPaused 40000000000 (Some 0%nat) None)
    ∧ rpc <$> reqs s = [Finished; Finished]
    ∧ calls (mgr s)
      = [GetHostGroupNodes "alpha"; ResumeVM "vm-alpha"; PauseVM "vm-alpha"].
Proof.
  eexists. split; [vm_compute; reflexivity|]. split; [vm_compute; reflexivity|].
  split; vm_compute; reflexivity.
Qed.

(** ** The sequential programs and the process: instances *)

Lemma ensureRunning_alone_witness :
  ∃ s', run_alone (λ _, Ok alpha_paused) 6 0
          (with_reqs [mkReq "alpha" 5000000000 AtLookup] (init 30000000000 0)) = Some s'
    ∧ matches "alpha" 5000000000 0
        (with_reqs [mkReq "alpha" 5000000000 AtLookup] (init 30000000000 0)) s'
        (ensureRunning (λ _, Ok alpha_paused)
           (clock (with_reqs [mkReq "alpha" 5000000000 AtLookup] (init 30000000000 0)))
           "alpha"
           (mgr (with_reqs [mkReq "alpha" 5000000000 AtLookup] (init 30000000000 0)))).
Proof.
  apply (ensureRunning_alone (λ _, Ok alpha_paused) 0
           (with_reqs [mkReq "alpha" 5000000000 AtLookup] (init 30000000000 0))
           "alpha" 5000000000).
  reflexivity.
Defined.

Lemma pauseIdleVMs_alone_witness :
  ∃ s1 s', step WatchTick woken_state = Some s1
    ∧ watch_alone pause_works (S (3 * List.length (watch_keys (watcher s1)))) s1 = Some s'
    ∧ mgr s' = (pauseIdleVMs pause_works (idleTimeout woken_state) (clock woken_state)
                  (mgr woken_state) []).1.1
    ∧ watcher s' = tick_pc (pauseIdleVMs pause_works (idleTimeout woken_state)
                              (clock woken_state) (mgr woken_state) []).2.
Proof.
  apply (pauseIdleVMs_alone pause_works woken_state []). vm_compute. reflexivity.
Defined.
